(** * asm-code-lens (ca65): symbol extraction, verified against its description

    A shallow embedding of
      - src/regexes/completionregexes.ts  (the "...ForWord" search patterns),
      - src/DocumentSymbolProvider.ts     (the outline scan),
      - src/WorkspaceSymbolProvider.ts    (the workspace-symbol query),
      - src/extension.ts                  (the registration of the providers),
    followed by the properties proved about them.

    JavaScript strings are modelled as [string] (8-bit characters, ASCII
    text); a regular expression is a syntax tree interpreted by a
    backtracking matcher that follows the order in which the ECMAScript
    matcher tries alternatives. *)

From Stdlib Require Import Ascii String Bool Arith Lia List Sorted.
From stdpp Require Import base option list strings.

Set Default Proof Using "Type".
Local Open Scope string_scope.
Local Open Scope list_scope.
Local Open Scope nat_scope.

(* ===================================================================== *)
(** * Part I: the program                                                 *)
(* ===================================================================== *)

(** ** Characters and the string methods the providers call *)

Module JsChar.

Definition code (c : ascii) : nat := nat_of_ascii c.

Definition is_digit (c : ascii) : bool := (48 <=? code c) && (code c <=? 57).
Definition is_upper (c : ascii) : bool := (65 <=? code c) && (code c <=? 90).
Definition is_lower (c : ascii) : bool := (97 <=? code c) && (code c <=? 122).

(** [\w]: letters, digits and the underscore. *)
Definition is_word (c : ascii) : bool :=
  is_digit c || is_upper c || is_lower c || (code c =? 95).

(** [\s] and the characters removed by [trim]: TAB, LF, VT, FF, CR,
    SPACE and NBSP. *)
Definition is_space (c : ascii) : bool :=
  ((9 <=? code c) && (code c <=? 13)) || (code c =? 32) || (code c =? 160).

(** Line terminators, which [.] does not match. *)
Definition is_line_terminator (c : ascii) : bool :=
  (code c =? 10) || (code c =? 13).

Definition toUpperCase (c : ascii) : ascii :=
  if is_lower c then ascii_of_nat (code c - 32) else c.

Definition toLowerCase (c : ascii) : ascii :=
  if is_upper c then ascii_of_nat (code c + 32) else c.

End JsChar.

Module JsString.

Definition chars (s : string) : list ascii := list_ascii_of_string s.
Definition of_chars (l : list ascii) : string := string_of_list_ascii l.

(** [s.toLowerCase()] *)
Definition toLowerCase (s : string) : string :=
  of_chars (map JsChar.toLowerCase (chars s)).

Fixpoint trimStart_l (l : list ascii) : list ascii :=
  match l with
  | c :: l' => if JsChar.is_space c then trimStart_l l' else l
  | [] => []
  end.

Definition trimEnd_l (l : list ascii) : list ascii :=
  rev (trimStart_l (rev l)).

(** [s.trimEnd()] and [s.trim()] *)
Definition trimEnd (s : string) : string := of_chars (trimEnd_l (chars s)).
Definition trim (s : string) : string :=
  of_chars (trimEnd_l (trimStart_l (chars s))).

(** [s.substring(n)] *)
Definition substring_from (n : nat) (s : string) : string :=
  of_chars (drop n (chars s)).

(** [s.startsWith(p)] *)
Definition startsWith (p s : string) : bool := String.prefix p s.

(** Truthiness of a string: the empty string is falsy. *)
Definition truthy (s : string) : bool :=
  match s with EmptyString => false | _ => true end.

(** [arr.includes(s)] on an array of strings. *)
Definition includes (arr : list string) (s : string) : bool :=
  bool_decide (s ∈ arr).

End JsString.

(** ** Regular expressions

    The constructs that occur in the patterns of the program: anchors,
    word boundaries, character classes, sequences, alternatives, optional
    parts, greedy and lazy repetition of a character class, capture groups
    and negative lookahead. *)

Module Regex.

(** A character class. *)
Inductive cset : Type :=
| CChar (c : ascii)          (* a literal character *)
| CWord                      (* \w *)
| CSpace                     (* \s *)
| CDigit                     (* 0-9 *)
| CDot                       (* . : anything but a line terminator *)
| CUnion (a b : cset)        (* [ab] *)
| CNeg (a : cset).           (* [^a] *)

Inductive regex : Type :=
| Eps
| Bol                                   (* ^ *)
| Eol                                   (* $ *)
| WordB                                 (* \b *)
| Cls (cs : cset)
| Seq (a b : regex)
| Alt (a b : regex)                     (* a|b *)
| Opt (a : regex)                       (* a? *)
| Star (greedy : bool) (cs : cset)      (* cs* and cs*? *)
| Group (n : nat) (a : regex)           (* the n-th capture group *)
| NegLook (a : regex).                  (* (?!a) *)

(** [new RegExp(source, flags)]: the flag used by the program is [i]. *)
Record RegExp : Type := mkRegExp { source : regex; ignoreCase : bool }.

(** cs+ *)
Definition Plus (cs : cset) : regex := Seq (Cls cs) (Star true cs).

(** A literal word, character by character. *)
Fixpoint Lit_l (l : list ascii) : regex :=
  match l with
  | [] => Eps
  | c :: l' => Seq (Cls (CChar c)) (Lit_l l')
  end.
Definition Lit (s : string) : regex := Lit_l (JsString.chars s).

(** Canonicalisation of a character under the [i] flag. *)
Definition canon (i : bool) (c : ascii) : ascii :=
  if i then JsChar.toUpperCase c else c.

Fixpoint cset_mem (i : bool) (cs : cset) (c : ascii) : bool :=
  match cs with
  | CChar a => bool_decide (canon i a = canon i c)
  | CWord => JsChar.is_word c
  | CSpace => JsChar.is_space c
  | CDigit => JsChar.is_digit c
  | CDot => negb (JsChar.is_line_terminator c)
  | CUnion a b => cset_mem i a c || cset_mem i b c
  | CNeg a => negb (cset_mem i a c)
  end.

(** The matcher state: the characters already passed (nearest first),
    the characters ahead, and the captures set so far (latest first). *)
Record MState : Type := mkMState {
  before : list ascii;
  after : list ascii;
  caps : list (nat * list ascii)
}.

(** The text between two states of one run. *)
Definition consumed (st st' : MState) : list ascii :=
  rev (take (length (before st') - length (before st)) (before st')).

Definition set_cap (n : nat) (st st' : MState) : MState :=
  mkMState (before st') (after st') ((n, consumed st st') :: caps st').

Definition word_boundary (st : MState) : bool :=
  let a := match before st with c :: _ => JsChar.is_word c | [] => false end in
  let b := match after st with c :: _ => JsChar.is_word c | [] => false end in
  xorb a b.

(** Repetition of a class: the greedy form tries one more character
    before it tries the continuation, the lazy form the other way round. *)
Fixpoint star_cls (greedy : bool) (p : ascii -> bool)
    (k : MState -> option MState)
    (bef aft : list ascii) (cs : list (nat * list ascii)) {struct aft}
    : option MState :=
  match aft with
  | c :: aft' =>
      if p c then
        if greedy then
          match star_cls greedy p k (c :: bef) aft' cs with
          | Some r => Some r
          | None => k (mkMState bef aft cs)
          end
        else
          match k (mkMState bef aft cs) with
          | Some r => Some r
          | None => star_cls greedy p k (c :: bef) aft' cs
          end
      else k (mkMState bef aft cs)
  | [] => k (mkMState bef [] cs)
  end.

(** The backtracking matcher, in continuation-passing style: [k] is what
    remains to be matched after [r]. *)
Fixpoint rmatch (i : bool) (r : regex) (k : MState -> option MState)
    (st : MState) {struct r} : option MState :=
  match r with
  | Eps => k st
  | Bol => match before st with [] => k st | _ :: _ => None end
  | Eol => match after st with [] => k st | _ :: _ => None end
  | WordB => if word_boundary st then k st else None
  | Cls cs =>
      match after st with
      | c :: aft =>
          if cset_mem i cs c
          then k (mkMState (c :: before st) aft (caps st))
          else None
      | [] => None
      end
  | Seq a b => rmatch i a (rmatch i b k) st
  | Alt a b =>
      match rmatch i a k st with
      | Some r => Some r
      | None => rmatch i b k st
      end
  | Opt a =>
      match rmatch i a k st with
      | Some r => Some r
      | None => k st
      end
  | Star g cs => star_cls g (cset_mem i cs) k (before st) (after st) (caps st)
  | Group n a => rmatch i a (fun st' => k (set_cap n st st')) st
  | NegLook a =>
      match rmatch i a Some st with
      | Some _ => None
      | None => k st
      end
  end.

(** The result of [exec]: where the match starts, the matched text
    ([m[0]]) and the captures ([m[n]], [None] for [undefined]). *)
Record RegExpExecArray : Type := mkExec {
  index : nat;
  whole : string;
  captures : list (nat * list ascii)
}.

Fixpoint lookup_cap (n : nat) (cs : list (nat * list ascii))
    : option (list ascii) :=
  match cs with
  | [] => None
  | (m, v) :: cs' => if Nat.eqb n m then Some v else lookup_cap n cs'
  end.

(** [m[n]] for [n >= 1]. *)
Definition group (n : nat) (m : RegExpExecArray) : option string :=
  JsString.of_chars <$> lookup_cap n (captures m).

(** [exec] without the [g] flag: the start positions are tried from the
    left; the first one at which the pattern matches wins. *)
Fixpoint exec_from (i : bool) (r : regex) (bef aft : list ascii)
    {struct aft} : option RegExpExecArray :=
  let st := mkMState bef aft [] in
  match rmatch i r Some st with
  | Some st' =>
      Some (mkExec (length bef) (JsString.of_chars (consumed st st')) (caps st'))
  | None =>
      match aft with
      | c :: aft' => exec_from i r (c :: bef) aft'
      | [] => None
      end
  end.

Definition exec (re : RegExp) (s : string) : option RegExpExecArray :=
  exec_from (ignoreCase re) (source re) [] (JsString.chars s).

End Regex.

(** ** src/regexes/completionregexes.ts *)

Module LanguageId.
Definition ASM_COLLECTION : string := "asm-collection".
Definition ASM_LIST_FILE : string := "asm-list-file".
End LanguageId.

Module CommonRegexes_fuzzy.
Import Regex.

(** Modelled from the spec: [CommonRegexes.regexPrepareFuzzy] is not among
    the sources. The description gives the interleaved-wildcard form, and
    the doc comments of completionregexes.ts give its exact shape: the
    fuzzy search word for "snd" is [\w*s\w*n\w*d], that is [\w*] followed
    by the character, for every character of the query. The characters
    are taken as literals, which is what they are in a pattern when they
    are not syntax characters. *)
Fixpoint regexPrepareFuzzy_l (q : list ascii) : regex :=
  match q with
  | [] => Eps
  | c :: q' => Seq (Seq (Star true CWord) (Cls (CChar c))) (regexPrepareFuzzy_l q')
  end.

Definition regexPrepareFuzzy (query : string) : regex :=
  regexPrepareFuzzy_l (JsString.chars query).

End CommonRegexes_fuzzy.

Module CompletionRegexes.
Import Regex.

(** The class of the characters of a dotted name: word characters and
    the dot. *)
Definition word_or_dot : cset := CUnion CWord (CChar "."%char).

(** regexEveryLabelWithoutColonForWord. The source pattern, token by
    token, with FUZZY for the fuzzy search word and flag i:
      ^  ( ( [^0-9 ] [\w\.]* ) ? )  \b  FUZZY  [\w\.]*  \b  (?! [:\w\.] )  *)
Definition regexEveryLabelWithoutColonForWord (fuzzySearchWord : regex) : RegExp :=
  mkRegExp
    (Seq Bol
    (Seq (Group 1 (Opt (Group 2
            (Seq (Cls (CNeg (CUnion CDigit (CChar " "%char))))
                 (Star true word_or_dot)))))
    (Seq WordB
    (Seq fuzzySearchWord
    (Seq (Star true word_or_dot)
    (Seq WordB
         (NegLook (Cls (CUnion (CChar ":"%char) word_or_dot)))))))))
    true.

(** The tail shared by the two label-with-colon patterns:
      [\w\.]*  :  (?: [^:] | $ )  *)
Definition colon_tail : regex :=
  Seq (Star true word_or_dot)
  (Seq (Cls (CChar ":"%char))
       (Alt (Cls (CNeg (CChar ":"%char))) Eol)).

(** regexEveryLabelColonForWord, flag i. For list files:
      ^  ( .* )  \b  FUZZY  [\w\.]*  :  (?: [^:] | $ )
    and for "asm-collection":
      ( ^ @? [\w\.]*  |  ^ .* \s @? [\w\.]* )  \b  FUZZY  [\w\.]*  :  (?: [^:] | $ )  *)
Definition regexEveryLabelColonForWord (fuzzySearchWord : regex)
    (languageId : string) : RegExp :=
  if bool_decide (languageId = LanguageId.ASM_LIST_FILE) then
    mkRegExp
      (Seq Bol
      (Seq (Group 1 (Star true CDot))
      (Seq WordB
      (Seq fuzzySearchWord colon_tail))))
      true
  else
    mkRegExp
      (Seq (Group 1
             (Alt (Seq Bol (Seq (Opt (Cls (CChar "@"%char))) (Star true word_or_dot)))
                  (Seq Bol (Seq (Star true CDot) (Seq (Cls CSpace)
                     (Seq (Opt (Cls (CChar "@"%char))) (Star true word_or_dot)))))))
      (Seq WordB
      (Seq fuzzySearchWord colon_tail)))
      true.

(** regexesEveryLabelForWord: one or two patterns, by configuration. *)
Definition regexesEveryLabelForWord (fuzzySearchWord : regex)
    (labelsWithColons labelsWithoutColons : bool) (languageId : string)
    : list RegExp :=
  (if labelsWithColons
   then [regexEveryLabelColonForWord fuzzySearchWord languageId] else [])
  ++
  (if labelsWithoutColons && bool_decide (languageId = LanguageId.ASM_COLLECTION)
   then [regexEveryLabelWithoutColonForWord fuzzySearchWord] else []).

(** The shape shared by the MODULE and MACRO patterns, flag i.
    For list files:
      ^  ( .*? \s+ (KEYWORD) \s+ )  FUZZY  REST*
    and otherwise:
      ^  ( \s+ (KEYWORD) \s+ )  FUZZY  REST*  *)
Definition keyword_pattern (keyword : string) (name_rest : cset)
    (fuzzySearchWord : regex) (languageId : string) : RegExp :=
  if bool_decide (languageId = LanguageId.ASM_LIST_FILE) then
    mkRegExp
      (Seq Bol
      (Seq (Group 1 (Seq (Star false CDot)
                    (Seq (Plus CSpace)
                    (Seq (Group 2 (Lit keyword)) (Plus CSpace)))))
      (Seq fuzzySearchWord (Star true name_rest))))
      true
  else
    mkRegExp
      (Seq Bol
      (Seq (Group 1 (Seq (Plus CSpace)
                    (Seq (Group 2 (Lit keyword)) (Plus CSpace))))
      (Seq fuzzySearchWord (Star true name_rest))))
      true.

(** regexEveryModuleForWord: KEYWORD is MODULE and REST is [\w\.]. *)
Definition regexEveryModuleForWord (fuzzySearchWord : regex)
    (languageId : string) : RegExp :=
  keyword_pattern "MODULE" word_or_dot fuzzySearchWord languageId.

(** regexEveryMacroForWord: KEYWORD is MACRO and REST is [\w\._]. *)
Definition regexEveryMacroForWord (fuzzySearchWord : regex)
    (languageId : string) : RegExp :=
  keyword_pattern "MACRO" (CUnion word_or_dot (CChar "_"%char)) fuzzySearchWord languageId.

End CompletionRegexes.

(** ** The editor's types and the configuration *)

Module SymbolKind.
(** The members of [vscode.SymbolKind] the providers use. *)
Inductive t : Type := Function | Constant | Field | Method | Module | Struct.

#[global] Instance eq_dec : EqDecision t.
Proof. solve_decision. Defined.
End SymbolKind.

(** Objects are shared: the scope stack, the pending-label buffer and the
    relative-label parent all alias symbols that already sit in the result.
    Symbols therefore live in a store, a [ref] is an index into it, and a
    child list holds references. *)
Abbreviation ref := nat.

(** [vscode.DocumentSymbol]. Both ranges are [Range(line, 0, line, 10000)],
    so the line stands for them. *)
Record DocumentSymbol : Type := mkDocumentSymbol {
  name : string;
  detail : string;
  kind : SymbolKind.t;
  range : nat;
  children : list ref
}.

(** The fields of [Config] the two providers read. *)
Record Config : Type := mkConfig {
  enableOutlineView : bool;
  enableCA65CheapLocalLabelNestingInOutline : bool;
  labelsExcludes : list string;
  enableWorkspaceSymbols : bool;
  workspaceSymbolsRequiredLength : nat;
  labelsWithColons : bool;
  labelsWithoutColons : bool;
  wsFolderPath : string;
  excludeFiles : string
}.

(** What the scan reads from a successful [exec]: the whole match and the
    first two groups. The elements of a [RegExpExecArray] are strings; of
    the groups read by the scan only the module name is tested before use,
    and that test treats [undefined] and the empty string alike, so the
    empty string also stands for a group that took no part. *)
Record ExecResult : Type := mkExecResult {
  m0 : string;
  m1 : string;
  m2 : string
}.

(** [regex.exec(line)] for a pattern without the [g] flag, which does not
    depend on earlier calls; [None] is [null]. *)
Definition Pattern : Type := string -> option ExecResult.

(** The patterns of [CommonRegexes] and [SymbolRegexes] the outline scan
    asks for. Those two modules are not among the sources, so the scan is
    embedded over arbitrary patterns; [regexMacro] may be [undefined],
    which the scan tests. *)
Record Patterns : Type := mkPatterns {
  regexLabel : Pattern;
  regexModule : Pattern;
  regexStruct : Pattern;
  regexCA65 : Pattern;
  regexCA65BlockEnd : Pattern;
  regexConst : Pattern;
  regexData : Pattern;
  regexMacro : option Pattern
}.

(** ** src/DocumentSymbolProvider.ts *)

Module DocumentSymbolProvider.
Import JsString.

(** The local variables of [provideDocumentSymbols], with the store. *)
Record State : Type := mkState {
  heap : list DocumentSymbol;
  symbols : list ref;
  lastSymbol : option ref;
  lastSymbols : list ref;
  lastAbsSymbolChildren : option ref;   (* the symbol whose child list it is *)
  lastModules : list ref;
  defaultSymbolKind : SymbolKind.t
}.

Definition init : State :=
  mkState [] [] None [] None [] SymbolKind.Function.

Definition set_heap (h : list DocumentSymbol) (st : State) : State :=
  mkState h (symbols st) (lastSymbol st) (lastSymbols st)
          (lastAbsSymbolChildren st) (lastModules st) (defaultSymbolKind st).
Definition set_symbols (l : list ref) (st : State) : State :=
  mkState (heap st) l (lastSymbol st) (lastSymbols st)
          (lastAbsSymbolChildren st) (lastModules st) (defaultSymbolKind st).
Definition set_lastSymbol (o : option ref) (st : State) : State :=
  mkState (heap st) (symbols st) o (lastSymbols st)
          (lastAbsSymbolChildren st) (lastModules st) (defaultSymbolKind st).
Definition set_lastSymbols (l : list ref) (st : State) : State :=
  mkState (heap st) (symbols st) (lastSymbol st) l
          (lastAbsSymbolChildren st) (lastModules st) (defaultSymbolKind st).
Definition set_lastAbsSymbolChildren (o : option ref) (st : State) : State :=
  mkState (heap st) (symbols st) (lastSymbol st) (lastSymbols st)
          o (lastModules st) (defaultSymbolKind st).
Definition set_lastModules (l : list ref) (st : State) : State :=
  mkState (heap st) (symbols st) (lastSymbol st) (lastSymbols st)
          (lastAbsSymbolChildren st) l (defaultSymbolKind st).
Definition set_defaultSymbolKind (k : SymbolKind.t) (st : State) : State :=
  mkState (heap st) (symbols st) (lastSymbol st) (lastSymbols st)
          (lastAbsSymbolChildren st) (lastModules st) k.

(** [new vscode.DocumentSymbol(name, '', kind, range, range)]: the new
    object gets the next free reference. *)
Definition new_symbol (nm : string) (k : SymbolKind.t) (line : nat)
    (st : State) : ref * State :=
  (length (heap st),
   set_heap (heap st ++ [mkDocumentSymbol nm "" k line []]) st).

(** [parent.children.push(child)] *)
Definition push_child (parent child : ref) (st : State) : State :=
  set_heap
    (alter (fun o => mkDocumentSymbol (name o) (detail o) (kind o) (range o)
                       (children o ++ [child]))
           parent (heap st))
    st.

(** [symbols.push(child)] *)
Definition push_root (child : ref) (st : State) : State :=
  set_symbols (symbols st ++ [child]) st.

(** The block that occurs three times in the scan: add to the children
    of the last module, or to [symbols] when no module is open. *)
Definition push_to_lastModule (child : ref) (st : State) : State :=
  match last (lastModules st) with
  | Some lastModule => push_child lastModule child st
  | None => push_root child st
  end.

(** [elem.kind = kind; elem.detail = detail] *)
Definition set_kind_detail (k : SymbolKind.t) (d : string) (elem : ref)
    (st : State) : State :=
  set_heap
    (alter (fun o => mkDocumentSymbol (name o) d k (range o) (children o))
           elem (heap st))
    st.

Section Scan.
Context (config : Config) (pats : Patterns).

(** [const excludes = ['include', ...config.labelsExcludes]] *)
Definition excludes : list string := "include" :: labelsExcludes config.

(** Lines 64-110: label detection. Returns the new state and what is
    left of the line. *)
Definition label_step (line : nat) (lineContents : string) (st : State)
    : State * string :=
  match regexLabel pats lineContents with
  | Some m =>
      let labelPlus := trimEnd (m0 m) in
      let label := m1 m +:+ m2 m in
      if negb (includes excludes label) then
        let '(sym, st) := new_symbol label (defaultSymbolKind st) line st in
        let st := set_lastSymbol (Some sym) st in
        let st := set_lastSymbols (lastSymbols st ++ [sym]) st in
        let st :=
          if startsWith "." label then
            (* relative label: lastAbsSymbolChildren?.push(lastSymbol) *)
            match lastAbsSymbolChildren st with
            | Some parent => push_child parent sym st
            | None => st
            end
          else if negb (enableCA65CheapLocalLabelNestingInOutline config)
                  && startsWith "@" label then
            (* absolute label ignoring MODULE *)
            push_root sym st
          else
            (* absolute label *)
            set_lastAbsSymbolChildren (Some sym) (push_to_lastModule sym st)
        in
        (st, substring_from (String.length labelPlus) lineContents +:+ " ")
      else (st, lineContents)
  | None => (st, lineContents)
  end.

(** Lines 112-139: CA65 directives and block ends. *)
Definition ca65_step (line : nat) (lineContents : string) (st : State)
    : State :=
  match regexCA65 pats lineContents with
  | Some matchCA65 =>
      let directive := trim (toLowerCase (m1 matchCA65)) in
      let symbolName := m2 matchCA65 in
      let '(ca65Symbol, st) :=
        new_symbol symbolName SymbolKind.Method line st in
      let st := push_to_lastModule ca65Symbol st in
      let canHaveChildren := negb (startsWith ".define" directive) in
      if canHaveChildren
      then set_lastModules (lastModules st ++ [ca65Symbol]) st
      else st
  | None =>
      match regexCA65BlockEnd pats lineContents with
      | Some _ =>
          set_lastAbsSymbolChildren None
            (set_lastModules (removelast (lastModules st)) st)
      | None => st
      end
  end.

(** Lines 141-151: macros. The flag says whether the loop body ended
    with [continue]. *)
Definition macro_step (line : nat) (lineContents : string) (st : State)
    : State * bool :=
  match regexMacro pats with
  | Some regexMacro =>
      let st :=
        match regexMacro lineContents with
        | Some matchMacro =>
            let macroName := m2 matchMacro in
            let '(macroSymbol, st) :=
              new_symbol macroName SymbolKind.Method line st in
            push_root macroSymbol st
        | None => st
        end in
      (st, true)
  | None => (st, false)
  end.

(** Lines 153-189: MODULE, STRUCT and their ends. *)
Definition module_step (line : nat) (lineContents : string) (st : State)
    : State * bool :=
  let matchModule :=
    match regexModule pats lineContents with
    | Some m => Some m
    | None => regexStruct pats lineContents
    end in
  match matchModule with
  | Some matchModule =>
      let keyword := toLowerCase (m1 matchModule) in
      let moduleName := m2 matchModule in
      let st :=
        if truthy moduleName then
          let kind := if startsWith "module" keyword
                      then SymbolKind.Module else SymbolKind.Struct in
          let '(moduleSymbol, st) := new_symbol moduleName kind line st in
          let st := push_to_lastModule moduleSymbol st in
          set_lastModules (lastModules st ++ [moduleSymbol]) st
        else st in
      let st :=
        if bool_decide (keyword = "endmodule") || bool_decide (keyword = "ends")
        then set_lastAbsSymbolChildren None
               (set_lastModules (removelast (lastModules st)) st)
        else st in
      (set_lastSymbols [] (set_lastSymbol None st), true)
  | None => (st, false)
  end.

(** Lines 191-228: code, constant or data. *)
Definition classify_step (lineContents : string) (st : State) : State :=
  let lineContents := trim lineContents in
  let st :=
    if negb (truthy lineContents)
    then set_defaultSymbolKind SymbolKind.Function st else st in
  match lastSymbol st with
  | Some _ =>
      if truthy lineContents then
        let found :=
          match regexConst pats lineContents with
          | Some m => Some (SymbolKind.Constant, m)
          | None =>
              match regexData pats lineContents with
              | Some m => Some (SymbolKind.Field, m)
              | None => None
              end
          end in
        let st :=
          match found with
          | Some (kind, m) =>
              let st :=
                foldl (fun st elem =>
                         set_kind_detail kind (m1 m +:+ " " +:+ trimEnd (m2 m)) elem st)
                      st (lastSymbols st) in
              set_defaultSymbolKind kind st
          | None => st
          end in
        set_lastSymbols [] (set_lastSymbol None st)
      else st
  | None => st
  end.

(** One turn of the loop over the lines. *)
Definition step (line : nat) (lineContents : string) (st : State) : State :=
  let '(st, lineContents) := label_step line lineContents st in
  let st := ca65_step line lineContents st in
  let '(st, continue) := macro_step line lineContents st in
  if continue then st else
  let '(st, continue) := module_step line lineContents st in
  if continue then st else
  classify_step lineContents st.

(** The loop, from line number [line] on. *)
Fixpoint scan_from (line : nat) (lines : list string) (st : State) : State :=
  match lines with
  | [] => st
  | lineContents :: rest => scan_from (S line) rest (step line lineContents st)
  end.

Definition scan (lines : list string) : State := scan_from 0 lines init.

End Scan.

(** What the caller gets: the array [symbols], as the trees of objects
    reachable from it. A node carries the reference of its object, which
    stands for the object's identity. *)
#[local] Unset Elimination Schemes.
Inductive Tree : Type :=
| Node (self : ref) (sym_name sym_detail : string) (sym_kind : SymbolKind.t)
       (sym_line : nat) (sub : list Tree).
#[local] Set Elimination Schemes.

(** The trees of the objects [base], [base+1], ... of the store. A child
    is always created after its parent, so the trees are built from the
    end of the store. *)
Fixpoint build (base : nat) (h : list DocumentSymbol) : list Tree :=
  match h with
  | [] => []
  | o :: h' =>
      let ts := build (S base) h' in
      Node base (name o) (detail o) (kind o) (range o)
           (omap (fun c => if S base <=? c then ts !! (c - S base) else None)
                 (children o))
      :: ts
  end.

Definition outline (st : State) : list Tree :=
  omap (fun r => build 0 (heap st) !! r) (symbols st).

(** [provideDocumentSymbols]: [lines] are the lines of the document
    after [stripAllComments]; [None] is [undefined]. *)
Definition provideDocumentSymbols (config : option Config) (pats : Patterns)
    (lines : list string) : option (list Tree) :=
  match config with
  | Some config =>
      if enableOutlineView config
      then Some (outline (scan config pats lines))
      else None
  | None => None
  end.

End DocumentSymbolProvider.

(** ** src/WorkspaceSymbolProvider.ts *)

Module WorkspaceSymbolProvider.
Import Regex.

(** What [grepMultiple] reports for a hit, as far as the provider reads it. *)
Record GrepLocation : Type := mkGrepLocation {
  loc_symbol : string;
  loc_uri : string;
  loc_range : nat
}.

(** [new vscode.SymbolInformation(text, undefined, '', location)] *)
Record SymbolInformation : Type := mkSymbolInformation {
  si_name : string;
  si_uri : string;
  si_range : nat
}.

Section Query.
(** The search over the files of a workspace folder, the CA65 pattern
    of [CommonRegexes] and the table [Config.configs] belong to modules
    that are not among the sources: they are taken as they are used. *)
Context (grepMultiple : list RegExp -> string -> string -> string -> list GrepLocation).
Context (regexCA65DirectiveForWord : regex -> bool -> RegExp).
Context (configs : string -> option Config).

(** The patterns handed to [grepMultiple]. *)
Definition search_regexes (config : Config) (query : string) : list RegExp :=
  let languageId := LanguageId.ASM_COLLECTION in
  let fuzzySearchWord := CommonRegexes_fuzzy.regexPrepareFuzzy query in
  let regexes :=
    CompletionRegexes.regexesEveryLabelForWord fuzzySearchWord
      (labelsWithColons config) (labelsWithoutColons config) languageId in
  let regexes :=
    regexes ++ [CompletionRegexes.regexEveryModuleForWord fuzzySearchWord languageId] in
  let regexes :=
    regexes ++ [CompletionRegexes.regexEveryMacroForWord fuzzySearchWord languageId] in
  regexes ++ [regexCA65DirectiveForWord fuzzySearchWord true].

(** [getWsSymbols] *)
Definition getWsSymbols (config : Config) (query : string)
    : list SymbolInformation :=
  let locations :=
    grepMultiple (search_regexes config query) (wsFolderPath config)
                 LanguageId.ASM_COLLECTION (excludeFiles config) in
  foldl (fun symbols loc =>
           let text := loc_symbol loc in
           if JsString.includes (labelsExcludes config) text
           then symbols   (* skip if excluded *)
           else symbols ++ [mkSymbolInformation text (loc_uri loc) (loc_range loc)])
        [] locations.

(** The loop over the workspace folders. [token n] is what
    [token.isCancellationRequested] yields the [n]-th time it is read,
    which is at the start of the [n]-th turn. [None] is
    [resolve(undefined)]. *)
Fixpoint folders_loop (token : nat -> bool) (query : string) (n : nat)
    (wsFolders : list string) (symbols : list SymbolInformation)
    : option (list SymbolInformation) :=
  match wsFolders with
  | [] => Some symbols
  | ws :: rest =>
      if token n then None
      else
        match configs ws with
        | Some config =>
            if negb (enableWorkspaceSymbols config) then
              folders_loop token query (S n) rest symbols
            else if String.length query <? workspaceSymbolsRequiredLength config then
              folders_loop token query (S n) rest symbols
            else
              folders_loop token query (S n) rest
                (symbols ++ getWsSymbols config query)
        | None => folders_loop token query (S n) rest symbols
        end
  end.

(** [provideWorkspaceSymbols]; [wsFolders] are the paths of
    [vscode.workspace.workspaceFolders], [None] when there are none. *)
Definition provideWorkspaceSymbols (wsFolders : option (list string))
    (query : string) (token : nat -> bool)
    : option (list SymbolInformation) :=
  match wsFolders with
  | Some wsFolders => folders_loop token query 0 wsFolders []
  | None => Some []
  end.

End Query.

End WorkspaceSymbolProvider.

(** ** src/extension.ts

    The part of the extension's state that [removeProvider] and the
    provider bookkeeping of [configure] and [activate] read and write:
    the array [context.subscriptions], the nine module variables
    [regCodeLensProvider] ... [regFoldingProvider], and, on the editor's
    side, the registrations made and the [dispose] calls received. The
    other statements of [configure] and [activate] (the hex calculator,
    the donate info, the What's-New view, [Config.init], the language
    configuration and the comment prefix) do not touch these. *)

Module Extension.

(** A [vscode.Disposable], by identity: the n-th disposable the editor
    has handed out. *)
Abbreviation Disposable := nat.

(** The providers [configure] registers, in the order of its statements. *)
Inductive ProviderKind : Type :=
| CodeLens | Hover | CompletionProposals | Definition_ | Reference | Rename
| DocumentSymbol_ | WorkspaceSymbol | Folding.

#[global] Instance ProviderKind_eq_dec : EqDecision ProviderKind.
Proof. solve_decision. Defined.

(** [vscode.DocumentFilter]: the scheme is "file" in all of them. *)
Inductive DocumentFilter : Type :=
| LanguageFilter (language : string)
| PatternFilter (workspaceFolder includeFiles : string).

(** What [Config.init()] makes available to [configure]: the global
    switches, the workspace folders, and for a folder the [includeFiles]
    of its configuration, if it has one. *)
Record Settings : Type := mkSettings {
  globalEnableCodeLenses : bool;
  globalEnableHovering : bool;
  globalEnableCompletions : bool;
  globalEnableGotoDefinition : bool;
  globalEnableFindAllReferences : bool;
  globalEnableRenaming : bool;
  globalEnableOutlineView : bool;
  globalEnableWorkspaceSymbols : bool;
  workspaceFolders : list string;
  includeFilesOf : string -> option string
}.

(** A call of [vscode.languages.register...Provider(selector, provider)]
    and the disposable it returned; the workspace-symbol provider is
    registered without a selector. *)
Record Registration : Type := mkRegistration {
  reg_kind : ProviderKind;
  reg_selector : option (list DocumentFilter);
  reg_id : Disposable
}.

Record State : Type := mkState {
  subscriptions : list Disposable;            (* context.subscriptions *)
  regProvider : ProviderKind -> option Disposable;  (* the nine variables *)
  created : nat;                              (* disposables handed out *)
  registered : list Registration;             (* registrations, oldest first *)
  disposed : list Disposable                  (* dispose() calls, oldest first *)
}.

Definition init : State := mkState [] (fun _ => None) 0 [] [].

Definition set_subscriptions (l : list Disposable) (st : State) : State :=
  mkState l (regProvider st) (created st) (registered st) (disposed st).

(** [context.subscriptions.push(d)] *)
Definition push (d : Disposable) (st : State) : State :=
  set_subscriptions (subscriptions st ++ [d]) st.

(** [reg...Provider = d] *)
Definition set_regProvider (k : ProviderKind) (d : Disposable) (st : State) : State :=
  mkState (subscriptions st)
          (fun k' => if decide (k' = k) then Some d else regProvider st k')
          (created st) (registered st) (disposed st).

(** [pv.dispose()] *)
Definition dispose (pv : Disposable) (st : State) : State :=
  mkState (subscriptions st) (regProvider st) (created st) (registered st)
          (disposed st ++ [pv]).

(** A call that returns a new disposable which is no provider
    registration: [registerCommand], [registerWebviewViewProvider],
    [onDidChangeConfiguration], [onDidChangeWorkspaceFolders]. *)
Definition fresh (st : State) : Disposable * State :=
  (created st,
   mkState (subscriptions st) (regProvider st) (S (created st))
           (registered st) (disposed st)).

(** [vscode.languages.register...Provider(selector, ...)] *)
Definition register (k : ProviderKind) (selector : option (list DocumentFilter))
    (st : State) : Disposable * State :=
  (created st,
   mkState (subscriptions st) (regProvider st) (S (created st))
           (registered st ++ [mkRegistration k selector (created st)])
           (disposed st)).

(** [arr.indexOf(pv)]: the first index at which [pv] stands, or -1. *)
Fixpoint indexOf_from (pv : Disposable) (l : list Disposable) (i : nat) : Z :=
  match l with
  | [] => (-1)%Z
  | x :: l' => if decide (x = pv) then Z.of_nat i else indexOf_from pv l' (S i)
  end.

Definition indexOf (pv : Disposable) (l : list Disposable) : Z :=
  indexOf_from pv l 0.

(** What [arr.splice(start, 1)] leaves of the array: a negative [start]
    counts from the end, and the start is clamped to the array. *)
Definition splice1 (start : Z) (l : list Disposable) : list Disposable :=
  let len := Z.of_nat (length l) in
  let actualStart :=
    if (start <? 0)%Z then Z.max (len + start) 0 else Z.min start len in
  take (Z.to_nat actualStart) l ++ drop (S (Z.to_nat actualStart)) l.

(** [removeProvider(pv, context)] *)
Definition removeProvider (pv : option Disposable) (st : State) : State :=
  match pv with
  | Some pv =>
      let st := dispose pv st in
      let i := indexOf pv (subscriptions st) in
      set_subscriptions (splice1 i (subscriptions st)) st
  | None => st
  end.

(** [asmSourceFiles] and [asmListFiles] of [configure]. *)
Definition asmSourceFiles (s : Settings) : list DocumentFilter :=
  LanguageFilter LanguageId.ASM_COLLECTION ::
  omap (fun workspaceFolder =>
          PatternFilter workspaceFolder <$> includeFilesOf s workspaceFolder)
       (workspaceFolders s).

Definition asmListFiles (s : Settings) : list DocumentFilter :=
  asmSourceFiles s ++ [LanguageFilter LanguageId.ASM_LIST_FILE].

(** [if (enabled) { reg = register(selector, ...); subscriptions.push(reg); }] *)
Definition register_if (enabled : bool) (k : ProviderKind)
    (selector : option (list DocumentFilter)) (st : State) : State :=
  if enabled then
    let '(d, st) := register k selector st in
    push d (set_regProvider k d st)
  else st.

(** [configure(context)], lines 122-215: all providers are removed, then
    those that are enabled are registered again. [s] is what the settings
    are at the time of the call. *)
Definition configure (s : Settings) (st : State) : State :=
  let st := removeProvider (regProvider st CodeLens) st in
  let st := removeProvider (regProvider st Hover) st in
  let st := removeProvider (regProvider st CompletionProposals) st in
  let st := removeProvider (regProvider st Definition_) st in
  let st := removeProvider (regProvider st Reference) st in
  let st := removeProvider (regProvider st Rename) st in
  let st := removeProvider (regProvider st DocumentSymbol_) st in
  let st := removeProvider (regProvider st WorkspaceSymbol) st in
  let st := removeProvider (regProvider st Folding) st in
  let st := register_if (globalEnableCodeLenses s) CodeLens (Some (asmListFiles s)) st in
  let st := register_if (globalEnableHovering s) Hover (Some (asmListFiles s)) st in
  let st := register_if (globalEnableCompletions s) CompletionProposals
              (Some (asmListFiles s)) st in
  let st := register_if (globalEnableGotoDefinition s) Definition_
              (Some (asmListFiles s)) st in
  let st := register_if (globalEnableFindAllReferences s) Reference
              (Some (asmListFiles s)) st in
  let st := register_if (globalEnableRenaming s) Rename (Some (asmListFiles s)) st in
  let st := register_if (globalEnableOutlineView s) DocumentSymbol_
              (Some (asmListFiles s)) st in
  let st := register_if (globalEnableWorkspaceSymbols s) WorkspaceSymbol None st in
  (* always, even if disabled *)
  register_if true Folding (Some (asmSourceFiles s)) st.

(** [activate(context)]: the What's-New command and the two calculator
    views are subscribed, [configure] runs, the two change listeners are
    subscribed, and one more command is registered that is not subscribed. *)
Definition activate (s : Settings) : State :=
  let st := init in
  let '(whatsNew, st) := fresh st in
  let st := push whatsNew st in
  let '(calcExplorer, st) := fresh st in
  let st := push calcExplorer st in
  let '(calcDebug, st) := fresh st in
  let st := push calcDebug st in
  let st := configure s st in
  let '(onConfiguration, st) := fresh st in
  let st := push onConfiguration st in
  let '(onWorkspaceFolders, st) := fresh st in
  let st := push onWorkspaceFolders st in
  let '(_, st) := fresh st in
  st.

(** The extension's life: it is activated, and every change of the
    configuration or of the workspace folders calls [configure] with the
    settings of that time. *)
Definition run (s : Settings) (changes : list Settings) : State :=
  foldl (fun st s' => configure s' st) (activate s) changes.

End Extension.

(** ** Concrete patterns for the documents of the examples *)

Module SamplePatterns.
Import Regex CompletionRegexes.

(** An [exec] of the matcher above, read the way the scan reads it. *)
Definition to_pattern (re : RegExp) : Pattern :=
  fun s =>
    (fun m => mkExecResult (whole m) (default "" (group 1 m))
                           (default "" (group 2 m)))
    <$> exec re s.

(** Letters and the underscore: word characters that are no digits. *)
Definition name_start : cset := CNeg (CUnion (CNeg CWord) CDigit).
Definition name_chars : regex := Seq (Cls word_or_dot) (Star true word_or_dot).
Definition spaces : regex := Star true CSpace.
Fixpoint one_of (words : list string) : regex :=
  match words with
  | [] => Lit ""
  | [w] => Lit w
  | w :: ws => Alt (Lit w) (one_of ws)
  end.

(** Modelled from the spec: the patterns of [CommonRegexes] and
    [SymbolRegexes] are not among the sources. These are patterns of the
    shapes the description gives for the primary source dialect: a label
    is a name with an optional [@] or [.] in front and a colon behind; a
    keyword or directive stands first on its line, with its name after
    it; constants and data are recognised by their keyword. They serve as
    inputs wherever a property is evaluated on a concrete document. *)
Definition sampleLabel : RegExp :=
  mkRegExp
    (Seq Bol
    (Seq (Group 1 (Opt (Cls (CUnion (CChar "@"%char) (CChar "."%char)))))
    (Seq (Group 2 (Seq (Cls name_start) (Star true word_or_dot)))
    (Seq (Cls (CChar ":"%char)) spaces))))
    true.

Definition keyword_line (keywords : list string) (name_needed : bool) : RegExp :=
  mkRegExp
    (Seq Bol
    (Seq spaces
    (Seq (Group 1 (one_of keywords))
    (Seq WordB
         (if name_needed
          then Seq (Plus CSpace) (Group 2 name_chars)
          else Opt (Seq (Plus CSpace) (Group 2 name_chars)))))))
    true.

Definition sampleModule : RegExp := keyword_line ["module"; "endmodule"] false.
Definition sampleStruct : RegExp := keyword_line ["struct"; "ends"] false.
Definition sampleMacro : RegExp := keyword_line ["macro"] true.
Definition sampleCA65 : RegExp :=
  keyword_line [".proc"; ".scope"; ".macro"; ".struct"; ".enum"; ".define"] true.
Definition sampleCA65BlockEnd : RegExp :=
  keyword_line [".endproc"; ".endscope"; ".endmacro"; ".endstruct"; ".endenum"] false.

Definition keyword_operand (keywords : list string) : RegExp :=
  mkRegExp
    (Seq Bol
    (Seq (Group 1 (one_of keywords))
    (Seq (Plus CSpace)
         (Group 2 (Star true CDot)))))
    true.

Definition sampleConst : RegExp := keyword_operand ["equ"].
Definition sampleData : RegExp := keyword_operand ["defb"; "defw"; ".byte"; ".word"].

(** The patterns of a dialect with a macro pattern, and of one without. *)
Definition with_macro : Patterns :=
  mkPatterns (to_pattern sampleLabel) (to_pattern sampleModule)
    (to_pattern sampleStruct) (to_pattern sampleCA65)
    (to_pattern sampleCA65BlockEnd) (to_pattern sampleConst)
    (to_pattern sampleData) (Some (to_pattern sampleMacro)).

Definition without_macro : Patterns :=
  mkPatterns (to_pattern sampleLabel) (to_pattern sampleModule)
    (to_pattern sampleStruct) (to_pattern sampleCA65)
    (to_pattern sampleCA65BlockEnd) (to_pattern sampleConst)
    (to_pattern sampleData) None.

Definition sampleConfig (excluded : list string) : Config :=
  mkConfig true true excluded true 0 true true "/ws" "".

(** A search that finds the names skip and keep in every folder, a CA65
    pattern for a word, and a table that gives every folder a
    configuration that excludes the label skip. *)
Definition sample_grep (_ : list Regex.RegExp) (path _ _ : string)
    : list WorkspaceSymbolProvider.GrepLocation :=
  [WorkspaceSymbolProvider.mkGrepLocation "skip" (path +:+ "/a.asm") 3;
   WorkspaceSymbolProvider.mkGrepLocation "keep" (path +:+ "/a.asm") 7].

Definition sample_ca65_for_word (fuzzySearchWord : Regex.regex) (_ : bool)
    : Regex.RegExp :=
  Regex.mkRegExp fuzzySearchWord true.

Definition sample_configs (ws : string) : option Config :=
  Some (mkConfig true true ["skip"] true 0 true true ws "").

(** The document of the outline scenario of the description. *)
Definition module_scenario : list string :=
  ["MODULE foo"; "bar: nop"; ".loop: nop"; "ENDMODULE"].

End SamplePatterns.

(* ===================================================================== *)
(** * Part II: the vocabulary of the properties                           *)
(* ===================================================================== *)

Module Outline.
Import JsString DocumentSymbolProvider.

(** The kinds a label can have; directives and macros are [Method],
    scopes are [Module] or [Struct]. *)
Definition is_label_kind (k : SymbolKind.t) : bool :=
  match k with
  | SymbolKind.Function | SymbolKind.Constant | SymbolKind.Field => true
  | _ => false
  end.

(** Every reference the result holds: the roots and all child lists. *)
Definition refs_of (st : State) : list ref :=
  symbols st ++ concat (map children (heap st)).

(** [child] is in the child list of [parent]. *)
Definition child_of (st : State) (parent child : ref) : Prop :=
  exists o, heap st !! parent = Some o /\ child ∈ children o.

(** The nodes of a tree, the root first: reference, name and kind. *)
Fixpoint nodes (t : Tree) : list (ref * string * SymbolKind.t) :=
  match t with
  | Node r nm _ k _ sub =>
      (r, nm, k) ::
      (fix go (l : list Tree) : list (ref * string * SymbolKind.t) :=
         match l with
         | [] => []
         | t' :: l' => nodes t' ++ go l'
         end) sub
  end.

Definition all_nodes (ts : list Tree) : list (ref * string * SymbolKind.t) :=
  concat (map nodes ts).

(** The reference at the root of a tree. *)
Definition root (t : Tree) : ref :=
  match t with
  | Node r _ _ _ _ _ => r
  end.

(** The shape of an outline: names and kinds, without references, lines
    and details. *)
#[local] Unset Elimination Schemes.
Inductive Shape : Type :=
| Sym (nm : string) (k : SymbolKind.t) (sub : list Shape).
#[local] Set Elimination Schemes.

Fixpoint shape (t : Tree) : Shape :=
  match t with
  | Node _ nm _ k _ sub => Sym nm k (map shape sub)
  end.

(** Scope events: a frame is opened or closed. *)
Inductive ScopeEvent : Type := Open | Close.

#[global] Instance ScopeEvent_eq_dec : EqDecision ScopeEvent.
Proof. solve_decision. Defined.

(** What a line does to the parent of relative labels. *)
Inductive ParentEffect : Type := SetParent | ClearParent | KeepParent.

#[global] Instance ParentEffect_eq_dec : EqDecision ParentEffect.
Proof. solve_decision. Defined.

Section Lines.
Context (config : Config) (pats : Patterns).

(** What is left of a line after label detection. It does not depend
    on the state of the scan. *)
Definition rest_of_line (lineContents : string) : string :=
  (label_step config pats 0 lineContents init).2.

(** The label a line declares, if any: the pattern matches and the
    label is not excluded. *)
Definition line_label (lineContents : string) : option string :=
  match regexLabel pats lineContents with
  | Some m =>
      let label := m1 m +:+ m2 m in
      if includes (excludes config) label then None else Some label
  | None => None
  end.

(** A label that takes part in scope nesting: not relative, and not a
    cheap local label unless those are nested. *)
Definition nests (label : string) : bool :=
  negb (startsWith "." label)
  && negb (negb (enableCA65CheapLocalLabelNestingInOutline config)
           && startsWith "@" label).

(** The events of the CA65 step on (the rest of) a line. *)
Definition ca65_events (lc : string) : list ScopeEvent :=
  match regexCA65 pats lc with
  | Some m =>
      if startsWith ".define" (trim (toLowerCase (m1 m))) then [] else [Open]
  | None =>
      match regexCA65BlockEnd pats lc with
      | Some _ => [Close]
      | None => []
      end
  end.

Definition match_module (lc : string) : option ExecResult :=
  match regexModule pats lc with
  | Some m => Some m
  | None => regexStruct pats lc
  end.

Definition is_end_keyword (m : ExecResult) : bool :=
  bool_decide (toLowerCase (m1 m) = "endmodule")
  || bool_decide (toLowerCase (m1 m) = "ends").

(** The events of the MODULE/STRUCT step on a line that reaches it. *)
Definition module_events (lc : string) : list ScopeEvent :=
  match regexMacro pats with
  | Some _ => []
  | None =>
      match match_module lc with
      | Some m =>
          (if truthy (m2 m) then [Open] else [])
          ++ (if is_end_keyword m then [Close] else [])
      | None => []
      end
  end.

(** The scope events of a line, in the order the scan handles them. *)
Definition scope_events (lineContents : string) : list ScopeEvent :=
  let lc := rest_of_line lineContents in
  ca65_events lc ++ module_events lc.

Definition document_events (lines : list string) : list ScopeEvent :=
  concat (map scope_events lines).

(** The counter that cannot go below zero. *)
Definition count_event (depth : nat) (e : ScopeEvent) : nat :=
  match e with
  | Open => S depth
  | Close => pred depth
  end.

Definition depth_after (events : list ScopeEvent) (depth : nat) : nat :=
  foldl count_event depth events.

Definition opens (events : list ScopeEvent) : nat :=
  length (filter (fun e => e = Open) events).
Definition closes (events : list ScopeEvent) : nat :=
  length (filter (fun e => e = Close) events).

(** Closes never exceed opens at any prefix. *)
Definition balanced (events : list ScopeEvent) : Prop :=
  forall p, p `prefix_of` events -> closes p <= opens p.

(** The line ends a block: a CA65 block end, or ENDMODULE / ENDS on a
    line that reaches the MODULE/STRUCT step. *)
Definition ends_block (lineContents : string) : bool :=
  let lc := rest_of_line lineContents in
  match regexCA65 pats lc with
  | Some _ => false
  | None => bool_decide (is_Some (regexCA65BlockEnd pats lc))
  end
  ||
  match regexMacro pats with
  | Some _ => false
  | None =>
      match match_module lc with
      | Some m => is_end_keyword m
      | None => false
      end
  end.

Definition parent_effect (lineContents : string) : ParentEffect :=
  if ends_block lineContents then ClearParent
  else match line_label lineContents with
       | Some label => if nests label then SetParent else KeepParent
       | None => KeepParent
       end.

(** No symbol of a label kind bears an excluded name, and the symbols in
    the pending-label buffer do not either. *)
Definition clean (o : DocumentSymbol) : Prop :=
  is_label_kind (kind o) = true -> name o ∉ excludes config.

Definition excl_inv (st : State) : Prop :=
  Forall clean (heap st) /\
  Forall (fun r => exists o, heap st !! r = Some o /\ name o ∉ excludes config)
         (lastSymbols st).

End Lines.

(** ** How the store evolves

    Everything the loop does to the store and to the result is one of four
    operations: a symbol is created, a reference is pushed on a child list
    or on the roots, and kind and detail of a symbol are overwritten.
    [evolves n] collects the sequences of such operations in which every
    pushed reference is at least [n] and refers to a symbol of the store. *)

Inductive evolves (n : nat) : State -> State -> Prop :=
| ev_same st st' :
    heap st' = heap st -> symbols st' = symbols st -> evolves n st st'
| ev_trans st1 st2 st3 :
    evolves n st1 st2 -> evolves n st2 st3 -> evolves n st1 st3
| ev_new nm k line st :
    evolves n st (new_symbol nm k line st).2
| ev_push_child parent child st :
    n <= child -> child < length (heap st) ->
    evolves n st (push_child parent child st)
| ev_push_root child st :
    n <= child -> child < length (heap st) ->
    evolves n st (push_root child st)
| ev_set_kind_detail k d elem st :
    evolves n st (set_kind_detail k d elem st).

(** Every reference held by the result refers to a symbol of the store. *)
Definition refs_valid (st : State) : Prop :=
  forall x, x ∈ refs_of st -> x < length (heap st).

(** A child is created after its parent, and every reference the scan
    holds refers to a symbol of the store. *)
Definition ordered (st : State) : Prop :=
  (forall i o, heap st !! i = Some o ->
               Forall (fun c => i < c < length (heap st)) (children o)) /\
  Forall (fun r => r < length (heap st)) (symbols st) /\
  Forall (fun r => r < length (heap st)) (lastModules st) /\
  (forall a, lastAbsSymbolChildren st = Some a -> a < length (heap st)).

(** No symbol is a scope, a constant or a field, and the kind of new
    labels is Function. *)
Definition plain (o : DocumentSymbol) : Prop :=
  kind o = SymbolKind.Function \/ kind o = SymbolKind.Method.

Definition plain_inv (st : State) : Prop :=
  Forall plain (heap st) /\ defaultSymbolKind st = SymbolKind.Function.

(** A check of [balanced] by running the counter. *)
Fixpoint never_negative (depth : nat) (events : list ScopeEvent) : bool :=
  match events with
  | [] => true
  | Open :: es => never_negative (S depth) es
  | Close :: es =>
      match depth with
      | 0 => false
      | S d => never_negative d es
      end
  end.

End Outline.

(** ** What a pattern can match *)

Module Matching.
Import Regex.

(** [Path i r st st'] says that [r] can take the matcher from [st] to
    [st']: a declarative reading of the pattern, with the captures the
    matcher records on that way. *)

Inductive Path (i : bool) : regex -> MState -> MState -> Prop :=
| path_eps st : Path i Eps st st
| path_bol st : before st = [] -> Path i Bol st st
| path_eol st : after st = [] -> Path i Eol st st
| path_wordb st : word_boundary st = true -> Path i WordB st st
| path_cls cs c bef aft cps :
    cset_mem i cs c = true ->
    Path i (Cls cs) (mkMState bef (c :: aft) cps) (mkMState (c :: bef) aft cps)
| path_seq a b st1 st2 st3 :
    Path i a st1 st2 -> Path i b st2 st3 -> Path i (Seq a b) st1 st3
| path_alt_l a b st st' : Path i a st st' -> Path i (Alt a b) st st'
| path_alt_r a b st st' : Path i b st st' -> Path i (Alt a b) st st'
| path_opt_yes a st st' : Path i a st st' -> Path i (Opt a) st st'
| path_opt_no a st : Path i (Opt a) st st
| path_star g cs taken bef aft cps :
    Forall (fun c => cset_mem i cs c = true) taken ->
    Path i (Star g cs) (mkMState bef (taken ++ aft) cps)
                       (mkMState (rev taken ++ bef) aft cps)
| path_group n a st st' :
    Path i a st st' -> Path i (Group n a) st (set_cap n st st')
| path_neglook a st :
    rmatch i a Some st = None -> Path i (NegLook a) st st.

(** [t] is the text between two states. *)
Definition segment (st st' : MState) (t : list ascii) : Prop :=
  before st' = rev t ++ before st /\ after st = t ++ after st'.

(** A pattern without groups. *)
Fixpoint groupless (r : regex) : bool :=
  match r with
  | Group _ _ => false
  | Seq a b | Alt a b => groupless a && groupless b
  | Opt a => groupless a
  | _ => true
  end.

(** Two words that differ at most in case. *)
Definition same_word (i : bool) (w w' : list ascii) : Prop :=
  Forall2 (fun a c => canon i a = canon i c) w w'.

(** The text the fuzzy word of a query can match: for every character of
    the query some word characters and then that character, in either case. *)
Inductive fuzzy_text (i : bool) : list ascii -> list ascii -> Prop :=
| fuzzy_text_nil : fuzzy_text i [] []
| fuzzy_text_cons a q w c t :
    Forall (fun x => JsChar.is_word x = true) w ->
    canon i a = canon i c ->
    fuzzy_text i q t ->
    fuzzy_text i (a :: q) (w ++ c :: t).

(** An identifier: one or more word characters. *)
Definition identifier (word : list ascii) : Prop :=
  word <> [] /\ Forall (fun x => JsChar.is_word x = true) word.

End Matching.

(** ** What the folders of a workspace contribute *)

Module Folders.
Import WorkspaceSymbolProvider.

Section Query.
Context (grepMultiple : list Regex.RegExp -> string -> string -> string -> list GrepLocation).
Context (regexCA65DirectiveForWord : Regex.regex -> bool -> Regex.RegExp).
Context (configs : string -> option Config).

(** The folders that are searched: enabled, and the query is long enough. *)
Definition searched (query : string) (ws : string) : option Config :=
  match configs ws with
  | Some config =>
      if negb (enableWorkspaceSymbols config) then None
      else if String.length query <? workspaceSymbolsRequiredLength config then None
      else Some config
  | None => None
  end.

Definition folder_symbols (query : string) (ws : string) : list SymbolInformation :=
  match searched query ws with
  | Some config => getWsSymbols grepMultiple regexCA65DirectiveForWord config query
  | None => []
  end.

End Query.

End Folders.

(** ** The scope directives of a line *)

Module Directives.
Import JsString DocumentSymbolProvider Outline.

Section DirectiveLines.
Context (config : Config) (pats : Patterns).

(** The scope directive of a line, read from the patterns alone: a CA65
    directive that can have children opens a block and a CA65 block end
    closes one; a MODULE or STRUCT line with a name opens a scope; an
    ENDMODULE or ENDS line closes one. *)
Definition directive (lineContents : string) : option ScopeEvent :=
  let lc := rest_of_line config pats lineContents in
  match regexCA65 pats lc with
  | Some m =>
      if startsWith ".define" (trim (toLowerCase (m1 m))) then None else Some Open
  | None =>
      match regexCA65BlockEnd pats lc with
      | Some _ => Some Close
      | None =>
          match match_module pats lc with
          | Some m =>
              if is_end_keyword m then Some Close
              else if truthy (m2 m) then Some Open else None
          | None => None
          end
      end
  end.

(** A line holds one directive at most, and a MODULE, STRUCT, ENDMODULE
    or ENDS line is one of a dialect without a macro pattern: a line that
    the MODULE or STRUCT pattern matches holds no CA65 directive and no
    CA65 block end, and an end keyword has no name behind it. *)
Definition single_directive (lineContents : string) : bool :=
  let lc := rest_of_line config pats lineContents in
  match match_module pats lc with
  | None => true
  | Some m =>
      match regexMacro pats, regexCA65 pats lc, regexCA65BlockEnd pats lc with
      | None, None, None => negb (is_end_keyword m && truthy (m2 m))
      | _, _, _ => false
      end
  end.

(** The directives of a document, in the order of its lines. *)
Definition directives (lines : list string) : list ScopeEvent :=
  omap directive lines.

End DirectiveLines.

End Directives.

(** ** The lines that declare a name *)

Module Declaring.
Import Regex CompletionRegexes.




End Declaring.

(** ** The hits of a folder *)

Module FolderHits.
Import WorkspaceSymbolProvider.

(** The symbol made of a hit. *)
Definition to_symbol (loc : GrepLocation) : SymbolInformation :=
  mkSymbolInformation (loc_symbol loc) (loc_uri loc) (loc_range loc).

(** The hits whose name is not excluded, as symbols, in their order. *)
Definition kept (config : Config) (locations : list GrepLocation)
    : list SymbolInformation :=
  map to_symbol
      (filter (fun loc => loc_symbol loc ∉ labelsExcludes config) locations).

End FolderHits.

(** ** Lines that differ in case *)

Module Casing.
Import Regex.

Definition upper_l (l : list ascii) : list ascii := map JsChar.toUpperCase l.

(** [s.toUpperCase()] *)
Definition toUpperCase (s : string) : string :=
  JsString.of_chars (upper_l (JsString.chars s)).

Definition upper_caps (cps : list (nat * list ascii)) : list (nat * list ascii) :=
  map (fun c => (c.1, upper_l c.2)) cps.

(** The matcher state on the upper-case text. *)
Definition upper_state (st : MState) : MState :=
  mkMState (upper_l (before st)) (upper_l (after st)) (upper_caps (caps st)).

(** The result of a match on the upper-case text. *)
Definition upper_result (m : RegExpExecArray) : RegExpExecArray :=
  mkExec (index m) (toUpperCase (whole m)) (upper_caps (captures m)).

(** Two continuations of which the second does on the upper-case text
    what the first does on the text. *)
Definition lifts (k k' : MState -> option MState) : Prop :=
  forall st, k' (upper_state st) = upper_state <$> k st.

(** The four search patterns for a word. *)
Definition patterns_for_word (fuzzySearchWord : regex) (languageId : string)
    : list RegExp :=
  [CompletionRegexes.regexEveryLabelWithoutColonForWord fuzzySearchWord;
   CompletionRegexes.regexEveryLabelColonForWord fuzzySearchWord languageId;
   CompletionRegexes.regexEveryModuleForWord fuzzySearchWord languageId;
   CompletionRegexes.regexEveryMacroForWord fuzzySearchWord languageId].

End Casing.

(** ** The shape of the store *)

Module Growth.
Import JsString DocumentSymbolProvider Outline.

(** What the loop does to the store on line [line]: as [evolves], but a
    new symbol lies on that line, and a reference is pushed only when it
    is above every reference the result holds. *)
Inductive grows (line : nat) : State -> State -> Prop :=
| grows_same st st' :
    heap st' = heap st -> symbols st' = symbols st -> grows line st st'
| grows_trans st1 st2 st3 :
    grows line st1 st2 -> grows line st2 st3 -> grows line st1 st3
| grows_new nm k st :
    grows line st (new_symbol nm k line st).2
| grows_push_child parent child st :
    (forall x, x ∈ refs_of st -> x < child) -> child < length (heap st) ->
    grows line st (push_child parent child st)
| grows_push_root child st :
    (forall x, x ∈ refs_of st -> x < child) -> child < length (heap st) ->
    grows line st (push_root child st)
| grows_set_kind_detail k d elem st :
    grows line st (set_kind_detail k d elem st).

(** No reference is held twice, and the roots and every child list are
    in the order of creation. *)
Definition tidy (st : State) : Prop :=
  NoDup (refs_of st) /\
  StronglySorted lt (symbols st) /\
  Forall (fun o => StronglySorted lt (children o)) (heap st) /\
  refs_valid st.

(** The symbols of the store lie on lines up to [line], later symbols on
    later lines or the same. *)
Definition lined (line : nat) (st : State) : Prop :=
  Forall (fun o => range o <= line) (heap st) /\
  StronglySorted le (map range (heap st)).

(** The line of the symbol behind a reference. *)
Definition line_of (st : State) (r : ref) : option nat :=
  range <$> heap st !! r.

(** A list of references in document order: the references grow, and
    the lines of their symbols do not fall. *)
Definition in_document_order (st : State) (l : list ref) : Prop :=
  forall i j r r' n n',
    i < j -> l !! i = Some r -> l !! j = Some r' ->
    line_of st r = Some n -> line_of st r' = Some n' ->
    r < r' /\ n <= n'.

(** The scope stack under a sequence of events; an open pushes some
    reference. *)
Inductive stack_run : list ScopeEvent -> list ref -> list ref -> Prop :=
| stack_nil l : stack_run [] l l
| stack_open c es l l' :
    stack_run es (l ++ [c]) l' -> stack_run (Open :: es) l l'
| stack_close es l l' :
    stack_run es (removelast l) l' -> stack_run (Close :: es) l l'.

(** Every block that is opened is closed again, and nothing else is
    closed. *)
Definition closed_blocks (events : list ScopeEvent) : Prop :=
  never_negative 0 events = true /\ depth_after events 0 = 0.

(** Kind and detail of the symbol behind a reference. *)
Definition kind_at (st : State) (r : ref) : option (SymbolKind.t * string) :=
  (fun o => (kind o, detail o)) <$> heap st !! r.

Section ClassifiedLines.
Context (config : Config) (pats : Patterns).

(** A line with a label and nothing else that the scan recognises. *)
Definition label_only (lineContents : string) : Prop :=
  is_Some (line_label config pats lineContents) /\
  regexCA65 pats (rest_of_line config pats lineContents) = None /\
  match_module pats (rest_of_line config pats lineContents) = None /\
  trim (rest_of_line config pats lineContents) = "".

(** The classification a line gives the pending labels: the line is no
    directive and no module line, and what is left of it is a constant
    or a data definition. *)
Definition classification (lineContents : string)
    : option (SymbolKind.t * ExecResult) :=
  let rest := rest_of_line config pats lineContents in
  match regexCA65 pats rest, match_module pats rest with
  | None, None =>
      if truthy (trim rest) then
        match regexConst pats (trim rest) with
        | Some m => Some (SymbolKind.Constant, m)
        | None =>
            match regexData pats (trim rest) with
            | Some m => Some (SymbolKind.Field, m)
            | None => None
            end
        end
      else None
  | _, _ => None
  end.

(** A line with an instruction: no directive, no module line, not
    empty, and neither a constant nor a data definition. *)
Definition code_line (lineContents : string) : Prop :=
  let rest := rest_of_line config pats lineContents in
  regexCA65 pats rest = None /\ match_module pats rest = None /\
  truthy (trim rest) = true /\
  regexConst pats (trim rest) = None /\ regexData pats (trim rest) = None.

(** The detail a classified label gets. *)
Definition detail_of (m : ExecResult) : string :=
  m1 m +:+ " " +:+ trimEnd (m2 m).

End ClassifiedLines.

End Growth.

(** ** The providers of the extension *)

Module Providers.
Import Extension.

(** The kinds of provider, in the order in which [configure] removes and
    registers them. *)
Definition kinds : list ProviderKind :=
  [CodeLens; Hover; CompletionProposals; Definition_; Reference; Rename;
   DocumentSymbol_; WorkspaceSymbol; Folding].

(** The switch of a kind; the folding provider has none. *)
Definition enabled (s : Settings) (k : ProviderKind) : bool :=
  match k with
  | CodeLens => globalEnableCodeLenses s
  | Hover => globalEnableHovering s
  | CompletionProposals => globalEnableCompletions s
  | Definition_ => globalEnableGotoDefinition s
  | Reference => globalEnableFindAllReferences s
  | Rename => globalEnableRenaming s
  | DocumentSymbol_ => globalEnableOutlineView s
  | WorkspaceSymbol => globalEnableWorkspaceSymbols s
  | Folding => true
  end.

(** The selector a kind is registered with. *)
Definition selector (s : Settings) (k : ProviderKind)
    : option (list DocumentFilter) :=
  match k with
  | WorkspaceSymbol => None
  | Folding => Some (asmSourceFiles s)
  | _ => Some (asmListFiles s)
  end.

(** What a single entry of the subscription list loses to
    [removeProvider]. *)
Definition remove_one (pv : Disposable) (l : list Disposable) : list Disposable :=
  splice1 (indexOf pv l) l.

(** The registrations the editor still serves: those whose disposable
    has not been disposed. *)
Definition live (st : State) : list Registration :=
  filter (fun r => reg_id r ∉ disposed st) (registered st).

(** The values of the provider variables that are set. *)
Definition defined_providers (st : State) : list Disposable :=
  omap (regProvider st) kinds.

(** The provider variables whose value is not in the subscription list. *)
Definition stale (st : State) : list Disposable :=
  filter (fun d => d ∉ subscriptions st) (defined_providers st).

(** The subscriptions that are not values of provider variables. *)
Definition foreign (st : State) : list Disposable :=
  filter (fun d => d ∉ defined_providers st) (subscriptions st).

(** The subscriptions that are no provider registrations at all. *)
Definition others (st : State) : list Disposable :=
  filter (fun d => d ∉ map reg_id (registered st)) (subscriptions st).

(** The disposables of the registrations a call of [configure] makes. *)
Definition new_providers (s : Settings) (st : State) : list Disposable :=
  seq (created st) (length (filter (fun k => enabled s k = true) kinds)).

(** The registrations the settings ask for: kind and selector. *)
Definition expected (s : Settings)
    : list (ProviderKind * option (list DocumentFilter)) :=
  map (fun k => (k, selector s k)) (filter (fun k => enabled s k = true) kinds).

(** The registrations made for the kinds [ks], the first of which gets
    the disposable [base]. *)
Fixpoint registrations_of (s : Settings) (base : nat) (ks : list ProviderKind)
    : list Registration :=
  match ks with
  | [] => []
  | k :: ks' =>
      if enabled s k
      then mkRegistration k (selector s k) base :: registrations_of s (S base) ks'
      else registrations_of s base ks'
  end.

(** What holds of the state whenever the extension is at rest. *)
Definition consistent (st : State) : Prop :=
  NoDup (subscriptions st) /\
  (forall d, d ∈ subscriptions st -> d < created st) /\
  (forall d, d ∈ disposed st -> d ∈ map reg_id (registered st)) /\
  NoDup (map reg_id (registered st)) /\
  (forall r, r ∈ registered st -> reg_id r < created st) /\
  (forall k d, regProvider st k = Some d ->
     exists sel, mkRegistration k sel d ∈ registered st) /\
  (forall r, r ∈ registered st -> reg_id r ∉ disposed st ->
     regProvider st (reg_kind r) = Some (reg_id r) /\ reg_id r ∈ subscriptions st) /\
  (forall d, d ∈ subscriptions st -> d ∉ disposed st).

(** No feature that some settings enabled is disabled by later ones. *)
Definition never_switched_off (settings : list Settings) : Prop :=
  forall i j si sj k,
    i < j -> settings !! i = Some si -> settings !! j = Some sj ->
    enabled si k = true -> enabled sj k = true.

(** Settings that enable every feature. *)
Definition all_on (folders : list string) (includeFiles : string -> option string)
    : Settings :=
  mkSettings true true true true true true true true folders includeFiles.

(** The first phase of [configure]: the providers of the kinds [ks] are
    removed. *)
Definition remove_phase (st : State) (ks : list ProviderKind) : State :=
  foldl (fun st k => removeProvider (regProvider st k) st) st ks.

(** The second phase: the enabled kinds among [ks] are registered. *)
Definition register_phase (s : Settings) (st : State) (ks : list ProviderKind) : State :=
  foldl (fun st k => register_if (enabled s k) k (selector s k) st) st ks.

(** The provider variable of a kind after the registrations for [ks]:
    the disposable of the last registration of that kind, if there is one. *)
Definition last_of_kind (k : ProviderKind) (rs : list Registration)
    (old : option Disposable) : option Disposable :=
  foldl (fun v r => if decide (k = reg_kind r) then Some (reg_id r) else v) old rs.

End Providers.

(* ===================================================================== *)
(** * Part III: the matcher and the search patterns                       *)
(* ===================================================================== *)

Module RegexFacts.
Import Regex Matching.

(** *** The repetition of a class *)

Lemma star_cls_zero g p k bef aft cps :
  is_Some (k (mkMState bef aft cps)) -> is_Some (star_cls g p k bef aft cps).
Proof.
  intros Hk. destruct aft as [|c aft]; simpl; [done|].
  destruct (p c); [|done]. destruct g.
  - by destruct (star_cls true p k (c :: bef) aft cps).
  - by destruct (k (mkMState bef (c :: aft) cps)).
Qed.

Lemma star_cls_complete g p k taken bef aft cps :
  Forall (fun c => p c = true) taken ->
  is_Some (k (mkMState (rev taken ++ bef) aft cps)) ->
  is_Some (star_cls g p k bef (taken ++ aft) cps).
Proof.
  intros Hall. revert bef. induction Hall as [|c taken Hc _ IH]; intros bef Hk.
  - by apply star_cls_zero.
  - simpl. rewrite Hc.
    assert (Hrec : is_Some (star_cls g p k (c :: bef) (taken ++ aft) cps)).
    { apply IH. simpl in Hk. by rewrite <- app_assoc in Hk. }
    destruct g.
    + by destruct (star_cls true p k (c :: bef) (taken ++ aft) cps).
    + by destruct (k (mkMState bef (c :: taken ++ aft) cps)).
Qed.

Lemma star_cls_sound g p k bef aft cps res :
  star_cls g p k bef aft cps = Some res ->
  exists taken rest,
    aft = taken ++ rest /\ Forall (fun c => p c = true) taken /\
    k (mkMState (rev taken ++ bef) rest cps) = Some res.
Proof.
  revert bef. induction aft as [|c aft IH]; intros bef; simpl.
  - intros Hk. by exists [], [].
  - assert (Hzero : k (mkMState bef (c :: aft) cps) = Some res ->
                    exists taken rest,
                      c :: aft = taken ++ rest /\ Forall (fun c => p c = true) taken /\
                      k (mkMState (rev taken ++ bef) rest cps) = Some res)
      by (intros Hk; by exists [], (c :: aft)).
    assert (Hmore : star_cls g p k (c :: bef) aft cps = Some res -> p c = true ->
                    exists taken rest,
                      c :: aft = taken ++ rest /\ Forall (fun c => p c = true) taken /\
                      k (mkMState (rev taken ++ bef) rest cps) = Some res).
    { intros Hs Hc. destruct (IH _ Hs) as (taken & rest & -> & Hall & Hk).
      exists (c :: taken), rest. split; [done|]. split; [by constructor|].
      simpl. by rewrite <- app_assoc. }
    destruct (p c) eqn:Hc; [|done]. destruct g.
    + destruct (star_cls true p k (c :: bef) aft cps) eqn:Hs.
      * intros [= <-]. by apply Hmore.
      * done.
    + destruct (k (mkMState bef (c :: aft) cps)) eqn:Hk.
      * intros [= <-]. by apply Hzero.
      * intros Hs. by apply Hmore.
Qed.

(** *** The matcher finds a match exactly when the pattern has one *)

Lemma rmatch_complete i r st st' :
  Path i r st st' ->
  forall k, is_Some (k st') -> is_Some (rmatch i r k st).
Proof.
  induction 1 as [st|st Hb|st He|st Hw|cs c bef aft cps Hc
                  |a b st1 st2 st3 _ IHa _ IHb
                  |a b st st' _ IH|a b st st' _ IH
                  |a st st' _ IH|a st
                  |g cs taken bef aft cps Hall
                  |n a st st' _ IH
                  |a st Hn]; intros k Hk; simpl.
  - done.
  - by rewrite Hb.
  - by rewrite He.
  - by rewrite Hw.
  - by rewrite Hc.
  - apply IHa, IHb, Hk.
  - specialize (IH k Hk). by destruct (rmatch i a k st).
  - specialize (IH k Hk). by destruct (rmatch i a k st).
  - specialize (IH k Hk). by destruct (rmatch i a k st).
  - by destruct (rmatch i a k st).
  - by apply star_cls_complete.
  - by apply (IH (fun st' => k (set_cap n st st'))).
  - by rewrite Hn.
Qed.

Lemma rmatch_sound i r :
  forall k st res,
    rmatch i r k st = Some res ->
    exists st', Path i r st st' /\ k st' = Some res.
Proof.
  induction r as [| | | |cs|a IHa b IHb|a IHa b IHb|a IHa|g cs|n a IHa|a IHa];
    intros k st res; simpl.
  - intros Hk. exists st. split; [constructor|done].
  - destruct (before st) eqn:Hb; [|done]. intros Hk. exists st. split; [by constructor|done].
  - destruct (after st) eqn:He; [|done]. intros Hk. exists st. split; [by constructor|done].
  - destruct (word_boundary st) eqn:Hw; [|done]. intros Hk.
    exists st. split; [by constructor|done].
  - destruct st as [bef aft cps]. simpl. destruct aft as [|c aft]; [done|].
    destruct (cset_mem i cs c) eqn:Hc; [|done]. intros Hk.
    eexists. split; [by constructor|done].
  - intros Hm. destruct (IHa _ _ _ Hm) as (st2 & Ha & Hm2).
    destruct (IHb _ _ _ Hm2) as (st3 & Hb & Hk).
    exists st3. split; [by econstructor|done].
  - destruct (rmatch i a k st) eqn:Hm.
    + intros [= <-]. destruct (IHa _ _ _ Hm) as (st' & Ha & Hk).
      exists st'. split; [by apply path_alt_l|done].
    + intros Hm2. destruct (IHb _ _ _ Hm2) as (st' & Hb & Hk).
      exists st'. split; [by apply path_alt_r|done].
  - destruct (rmatch i a k st) eqn:Hm.
    + intros [= <-]. destruct (IHa _ _ _ Hm) as (st' & Ha & Hk).
      exists st'. split; [by apply path_opt_yes|done].
    + intros Hk. exists st. split; [apply path_opt_no|done].
  - destruct st as [bef aft cps]. simpl. intros Hs.
    destruct (star_cls_sound _ _ _ _ _ _ _ Hs) as (taken & rest & -> & Hall & Hk).
    eexists. split; [by apply path_star|done].
  - intros Hm. destruct (IHa _ _ _ Hm) as (st' & Ha & Hk).
    exists (set_cap n st st'). split; [by constructor|done].
  - destruct (rmatch i a Some st) eqn:Hm; [done|]. intros Hk.
    exists st. split; [by constructor|done].
Qed.

(** *** Text and captures along a path *)

Lemma path_text i r st st' :
  Path i r st st' ->
  exists t, before st' = rev t ++ before st /\ after st = t ++ after st'.
Proof.
  induction 1 as [st|st Hb|st He|st Hw|cs c bef aft cps Hc
                  |a b st1 st2 st3 _ IHa _ IHb
                  |a b st st' _ IH|a b st st' _ IH
                  |a st st' _ IH|a st
                  |g cs taken bef aft cps Hall
                  |n a st st' _ IH
                  |a st Hn];
    try (by exists []); try done.
  - by exists [c].
  - destruct IHa as (t1 & Hb1 & Ha1). destruct IHb as (t2 & Hb2 & Ha2).
    exists (t1 ++ t2). rewrite Hb2, Hb1, Ha1, Ha2, rev_app_distr.
    by rewrite !app_assoc.
  - by exists taken.
Qed.

Lemma consumed_text st st' t :
  before st' = rev t ++ before st -> consumed st st' = t.
Proof.
  intros Hb. unfold consumed. rewrite Hb, length_app, length_rev.
  replace (length t + length (before st) - length (before st)) with (length (rev t))
    by (rewrite length_rev; lia).
  by rewrite take_app_length, rev_involutive.
Qed.

Lemma path_groupless i r st st' :
  Path i r st st' -> groupless r = true -> caps st' = caps st.
Proof.
  induction 1 as [st|st Hb|st He|st Hw|cs c bef aft cps Hc
                  |a b st1 st2 st3 _ IHa _ IHb
                  |a b st st' _ IH|a b st st' _ IH
                  |a st st' _ IH|a st
                  |g cs taken bef aft cps Hall
                  |n a st st' _ IH
                  |a st Hn]; simpl; try done.
  - intros [Ha Hb]%andb_prop. by rewrite IHb, IHa.
  - intros [Ha Hb]%andb_prop. auto.
  - intros [Ha Hb]%andb_prop. auto.
Qed.

(** *** [exec] *)

Lemma exec_from_unfold i r bef aft :
  exec_from i r bef aft =
  match rmatch i r Some (mkMState bef aft []) with
  | Some st' =>
      Some (mkExec (length bef)
              (JsString.of_chars (consumed (mkMState bef aft []) st')) (caps st'))
  | None =>
      match aft with
      | c :: aft' => exec_from i r (c :: bef) aft'
      | [] => None
      end
  end.
Proof. by destruct aft. Qed.

Lemma exec_found re s st' :
  rmatch (ignoreCase re) (source re) Some (mkMState [] (JsString.chars s) []) = Some st' ->
  exec re s =
  Some (mkExec 0 (JsString.of_chars
                    (consumed (mkMState [] (JsString.chars s) []) st'))
               (caps st')).
Proof.
  intros Hm. unfold exec. by rewrite exec_from_unfold, Hm.
Qed.


(** A pattern that starts with the line-begin anchor matches at position 0
    or not at all. *)
Lemma exec_from_anchored i r bef aft :
  bef <> [] -> exec_from i (Seq Bol r) bef aft = None.
Proof.
  revert bef. induction aft as [|c aft IH]; intros bef Hb;
    rewrite exec_from_unfold; simpl.
  - destruct bef; done.
  - destruct bef as [|b bef]; [done|]. by apply IH.
Qed.

Lemma exec_anchored i r s m :
  exec (mkRegExp (Seq Bol r) i) s = Some m ->
  exists st',
    Path i r (mkMState [] (JsString.chars s) []) st' /\
    m = mkExec 0 (JsString.of_chars (consumed (mkMState [] (JsString.chars s) []) st'))
               (caps st').
Proof.
  unfold exec. simpl ignoreCase. simpl source. rewrite exec_from_unfold.
  destruct (rmatch i (Seq Bol r) Some (mkMState [] (JsString.chars s) [])) as [st'|] eqn:Hm.
  - intros [= <-]. simpl in Hm.
    apply rmatch_sound in Hm as (st2 & Hp & [= ->]).
    exists st'. split; done.
  - destruct (JsString.chars s) as [|c l]; [done|].
    by rewrite exec_from_anchored.
Qed.

(** *** Strings and character lists *)

Lemma chars_of_chars l : JsString.chars (JsString.of_chars l) = l.
Proof. apply list_ascii_of_string_of_list_ascii. Qed.



(** *** Building paths *)

Lemma path_plus i cs taken bef aft cps :
  taken <> [] ->
  Forall (fun c => cset_mem i cs c = true) taken ->
  Path i (Plus cs) (mkMState bef (taken ++ aft) cps)
                   (mkMState (rev taken ++ bef) aft cps).
Proof.
  intros Hne Hall. destruct Hall as [|c taken Hc Hall]; [done|].
  unfold Plus. simpl. rewrite <- app_assoc. simpl.
  eapply path_seq; [by apply path_cls|]. by apply path_star.
Qed.


Lemma path_lit i w w' bef aft cps :
  same_word i w w' ->
  Path i (Lit_l w) (mkMState bef (w' ++ aft) cps)
                   (mkMState (rev w' ++ bef) aft cps).
Proof.
  intros Hw. revert bef. induction Hw as [|a c w w' Hac _ IH]; intros bef; simpl.
  - constructor.
  - rewrite <- app_assoc. simpl.
    eapply path_seq; [|apply IH]. apply path_cls. simpl. by apply bool_decide_eq_true.
Qed.

(** *** The fuzzy search word *)

Import CommonRegexes_fuzzy.

Lemma fuzzy_text_path i q t :
  fuzzy_text i q t ->
  forall bef aft cps,
    Path i (regexPrepareFuzzy_l q) (mkMState bef (t ++ aft) cps)
                                   (mkMState (rev t ++ bef) aft cps).
Proof.
  induction 1 as [|a q w c t Hw Hac _ IH]; intros bef aft cps; simpl.
  - constructor.
  - rewrite rev_app_distr. simpl. rewrite <- !app_assoc. simpl.
    eapply path_seq; [|apply IH].
    eapply path_seq; [by apply path_star|].
    apply path_cls. simpl. by apply bool_decide_eq_true.
Qed.

(** A query that is, up to case, a subsequence of a word of word
    characters has such a text at the start of that word. *)
Lemma subsequence_fuzzy_text i q word :
  map (canon i) q `sublist_of` map (canon i) word ->
  Forall (fun x => JsChar.is_word x = true) word ->
  exists t rest, word = t ++ rest /\ fuzzy_text i q t.
Proof.
  revert q. induction word as [|c word IH]; intros q Hsub Hword.
  - apply sublist_nil_r in Hsub. destruct q; [|done].
    exists [], []. split; [done|constructor].
  - apply Forall_cons in Hword as [Hc Hword].
    destruct q as [|a q].
    { exists [], (c :: word). split; [done|constructor]. }
    simpl in Hsub. apply sublist_cons_r in Hsub as [Hsub|(l' & Heq & Hsub)].
    + destruct (IH (a :: q) Hsub Hword) as (t & rest & -> & Ht).
      inversion Ht as [|a' q' w c' t' Hw Hac Ht' E1 E2]; subst.
      exists ((c :: w) ++ c' :: t'), rest. split; [by rewrite <- !app_assoc|].
      constructor; [by constructor|done|done].
    + injection Heq as Hac <-.
      destruct (IH q Hsub Hword) as (t & rest & -> & Ht).
      exists ([] ++ c :: t), rest. split; [done|].
      by constructor.
Qed.


Lemma path_fuzzy_name_end i q word cs bef aft cps :
  map (canon i) q `sublist_of` map (canon i) word ->
  Forall (fun x => JsChar.is_word x = true) word ->
  (forall x, JsChar.is_word x = true -> cset_mem i cs x = true) ->
  Path i (Seq (regexPrepareFuzzy_l q) (Star true cs))
         (mkMState bef (word ++ aft) cps) (mkMState (rev word ++ bef) aft cps).
Proof.
  intros Hsub Hword Hcs.
  destruct (subsequence_fuzzy_text i q word Hsub Hword) as (t & rest & -> & Ht).
  rewrite <- app_assoc, rev_app_distr, <- app_assoc.
  eapply path_seq; [by apply fuzzy_text_path|].
  apply path_star. apply Forall_app in Hword as [_ Hrest_word].
  eapply Forall_impl; [exact Hrest_word|]. auto.
Qed.

(** *** Identifiers and the lines that declare them *)



Import CompletionRegexes.

Lemma word_in_word_or_dot x :
  JsChar.is_word x = true -> cset_mem true word_or_dot x = true.
Proof. intros Hx. simpl. by rewrite Hx. Qed.


Section Declarations.
Context (q word : list ascii).
Context (Hsub : map (canon true) q `sublist_of` map (canon true) word).
Context (Hword : identifier word).




(** A keyword line: any text, white space, the keyword in either case,
    white space, and the name. Without the leading text the line matches
    in both dialects, with it in the list-file dialect. *)
Lemma keyword_line_matches keyword name_rest languageId p ws kw ws' tail :
  (forall x, JsChar.is_word x = true -> cset_mem true name_rest x = true) ->
  (p = [] \/ languageId = LanguageId.ASM_LIST_FILE) ->
  Forall (fun c => JsChar.is_line_terminator c = false) p ->
  ws <> [] -> Forall (fun c => JsChar.is_space c = true) ws ->
  same_word true (JsString.chars keyword) kw ->
  ws' <> [] -> Forall (fun c => JsChar.is_space c = true) ws' ->
  exists m,
    exec (keyword_pattern keyword name_rest (regexPrepareFuzzy_l q) languageId)
         (JsString.of_chars (p ++ ws ++ kw ++ ws' ++ word ++ tail)) = Some m /\
    index m = 0.
Proof using Hsub Hword.
  intros Hrest Hp Hpl Hws1 Hws2 Hkw Hws1' Hws2'.
  assert (Hname : forall bef cps,
            Path true (Seq (regexPrepareFuzzy_l q) (Star true name_rest))
              (mkMState bef (word ++ tail) cps) (mkMState (rev word ++ bef) tail cps)).
  { intros bef cps. apply path_fuzzy_name_end; [done|by destruct Hword|done]. }
  assert (Hkey : forall bef cps,
            Path true (Seq (Plus CSpace) (Seq (Group 2 (Lit keyword)) (Plus CSpace)))
              (mkMState bef (ws ++ kw ++ ws' ++ word ++ tail) cps)
              (mkMState (rev ws' ++ rev kw ++ rev ws ++ bef) (word ++ tail)
                        ((2, kw) :: cps))).
  { intros bef cps.
    eapply path_seq; [by apply path_plus|].
    eapply path_seq; [apply path_group, path_lit, Hkw|].
    unfold set_cap. simpl before. simpl after. simpl caps.
    rewrite (consumed_text _ _ kw) by done.
    by apply path_plus. }
  assert (Hfound : forall re st',
            Path (ignoreCase re) (source re)
              (mkMState [] (p ++ ws ++ kw ++ ws' ++ word ++ tail) []) st' ->
            source re = Seq Bol (match source re with Seq _ r => r | r => r end) ->
            exists m, exec re (JsString.of_chars (p ++ ws ++ kw ++ ws' ++ word ++ tail))
                      = Some m /\ index m = 0).
  { intros re st' Hpath _.
    destruct (rmatch_complete _ _ _ _ Hpath Some) as [res Hres]; [done|].
    eexists. split; [apply exec_found; rewrite chars_of_chars; exact Hres|done]. }
  unfold keyword_pattern. destruct (bool_decide _) eqn:Hlang.
  - eapply Hfound; [|reflexivity]. simpl.
    eapply path_seq; [by apply path_bol|].
    eapply path_seq.
    { apply path_group. eapply path_seq; [|apply Hkey].
      apply path_star. eapply Forall_impl; [exact Hpl|].
      intros c Hc. simpl. by rewrite Hc. }
    apply Hname.
  - destruct Hp as [-> | ->]; [|by apply bool_decide_eq_false in Hlang].
    eapply Hfound; [|reflexivity]. simpl.
    eapply path_seq; [by apply path_bol|].
    eapply path_seq; [apply path_group, Hkey|].
    apply Hname.
Qed.

End Declarations.

(** *** Reading a path backwards *)

Lemma segment_app st1 st2 st3 t1 t2 :
  segment st1 st2 t1 -> segment st2 st3 t2 -> segment st1 st3 (t1 ++ t2).
Proof.
  intros [Hb1 Ha1] [Hb2 Ha2]. split.
  - by rewrite Hb2, Hb1, rev_app_distr, app_assoc.
  - by rewrite Ha1, Ha2, app_assoc.
Qed.

Lemma path_seq_inv i a b st st' :
  Path i (Seq a b) st st' -> exists st2, Path i a st st2 /\ Path i b st2 st'.
Proof. inversion 1; subst. eauto. Qed.

Lemma path_group_inv i n a st st' :
  Path i (Group n a) st st' -> exists st1, Path i a st st1 /\ st' = set_cap n st st1.
Proof. inversion 1; subst. eauto. Qed.

Lemma path_star_inv i g cs st st' :
  Path i (Star g cs) st st' ->
  exists taken,
    Forall (fun c => cset_mem i cs c = true) taken /\
    segment st st' taken /\ caps st' = caps st.
Proof. inversion 1; subst. exists taken. by repeat split. Qed.

Lemma path_cls_inv i cs st st' :
  Path i (Cls cs) st st' ->
  exists c, cset_mem i cs c = true /\ segment st st' [c] /\ caps st' = caps st.
Proof. inversion 1; subst. exists c. by repeat split. Qed.

Lemma path_plus_inv i cs st st' :
  Path i (Plus cs) st st' ->
  exists taken,
    taken <> [] /\ Forall (fun c => cset_mem i cs c = true) taken /\
    segment st st' taken /\ caps st' = caps st.
Proof.
  intros (st2 & Hc & Hs)%path_seq_inv.
  apply path_cls_inv in Hc as (c & Hc & Hseg1 & Hcaps1).
  apply path_star_inv in Hs as (taken & Hall & Hseg2 & Hcaps2).
  exists ([c] ++ taken). split; [done|]. split; [by constructor|].
  split; [by eapply segment_app|congruence].
Qed.

Lemma path_lit_inv i w st st' :
  Path i (Lit_l w) st st' ->
  exists w', same_word i w w' /\ segment st st' w' /\ caps st' = caps st.
Proof.
  revert st. induction w as [|a w IH]; intros st; simpl.
  - inversion 1; subst. exists []. by repeat split; try constructor.
  - intros (st2 & Hc & Hl)%path_seq_inv.
    apply path_cls_inv in Hc as (c & Hc & Hseg1 & Hcaps1).
    destruct (IH _ Hl) as (w' & Hw & Hseg2 & Hcaps2).
    exists ([c] ++ w'). split.
    + constructor; [|done]. simpl in Hc. by apply bool_decide_eq_true in Hc.
    + split; [by eapply segment_app|congruence].
Qed.

(** What a match of a keyword pattern looks like: it starts at position 0
    with some text (none outside list files), white space, the keyword in
    either case and white space, which together are group 1, and the word
    follows. *)
Lemma keyword_pattern_sound keyword name_rest fuzzy languageId line m :
  groupless fuzzy = true ->
  exec (keyword_pattern keyword name_rest fuzzy languageId) line = Some m ->
  index m = 0 /\
  exists p ws kw ws' w tail,
    JsString.chars line = p ++ ws ++ kw ++ ws' ++ w ++ tail /\
    (languageId <> LanguageId.ASM_LIST_FILE -> p = []) /\
    Forall (fun c => JsChar.is_line_terminator c = false) p /\
    ws <> [] /\ Forall (fun c => JsChar.is_space c = true) ws /\
    same_word true (JsString.chars keyword) kw /\
    ws' <> [] /\ Forall (fun c => JsChar.is_space c = true) ws' /\
    group 1 m = Some (JsString.of_chars (p ++ ws ++ kw ++ ws')) /\
    whole m = JsString.of_chars ((p ++ ws ++ kw ++ ws') ++ w).
Proof.
  intros Hfz Hex.
  set (st0 := mkMState [] (JsString.chars line) []).
  assert (Hshape : exists st',
    (exists p sta std,
       (languageId <> LanguageId.ASM_LIST_FILE -> p = []) /\
       Forall (fun c => JsChar.is_line_terminator c = false) p /\
       segment st0 sta p /\ caps sta = caps st0 /\
       Path true (Seq (Plus CSpace) (Seq (Group 2 (Lit keyword)) (Plus CSpace))) sta std /\
       Path true (Seq fuzzy (Star true name_rest)) (set_cap 1 st0 std) st') /\
    m = mkExec 0 (JsString.of_chars (consumed st0 st')) (caps st')).
  { unfold keyword_pattern in Hex. destruct (bool_decide _) eqn:Hlang.
    - apply exec_anchored in Hex as (st' & Hp & ->). exists st'. split; [|done].
      apply path_seq_inv in Hp as (st1 & Hg & Hname).
      apply path_group_inv in Hg as (std & Hg & ->).
      apply path_seq_inv in Hg as (sta & Hdot & Hkey).
      apply path_star_inv in Hdot as (p & Hp & Hseg & Hcaps).
      exists p, sta, std. split; [by apply bool_decide_eq_true in Hlang|].
      split; [|done].
      eapply Forall_impl; [exact Hp|]. intros c Hc. simpl in Hc.
      by destruct (JsChar.is_line_terminator c).
    - apply exec_anchored in Hex as (st' & Hp & ->). exists st'. split; [|done].
      apply path_seq_inv in Hp as (st1 & Hg & Hname).
      apply path_group_inv in Hg as (std & Hg & ->).
      exists [], st0, std. repeat split; done. }
  destruct Hshape as (st' & (p & sta & std & Hplang & Hpl & Hsegp & Hcapsp & Hkey & Hname) & ->).
  split; [done|].
  apply path_seq_inv in Hkey as (stb & Hws & Hkey).
  apply path_plus_inv in Hws as (ws & Hws1 & Hws2 & Hsegws & Hcapsws).
  apply path_seq_inv in Hkey as (stc & Hkw & Hws').
  apply path_group_inv in Hkw as (stc' & Hkw & ->).
  apply path_lit_inv in Hkw as (kw & Hkw & Hsegkw & Hcapskw).
  apply path_plus_inv in Hws' as (ws' & Hws1' & Hws2' & Hsegws' & Hcapsws').
  assert (Hseg1 : segment st0 std (p ++ ws ++ kw ++ ws')).
  { eapply segment_app; [exact Hsegp|].
    eapply segment_app; [exact Hsegws|].
    eapply segment_app; [|exact Hsegws']. exact Hsegkw. }
  pose proof (path_text _ _ _ _ Hname) as (w & Hbw & Haw).
  assert (Hcaps : caps st' = caps (set_cap 1 st0 std))
    by (eapply path_groupless; [exact Hname|simpl; by rewrite Hfz]).
  exists p, ws, kw, ws', w, (after st').
  split.
  { destruct Hseg1 as [_ Ha]. simpl in Ha. rewrite Ha.
    simpl in Haw. rewrite Haw. by rewrite <- !app_assoc. }
  do 7 (split; [done|]).
  split.
  - unfold group. simpl. rewrite Hcaps. simpl.
    rewrite (consumed_text st0 std (p ++ ws ++ kw ++ ws')) by apply Hseg1.
    reflexivity.
  - simpl. f_equal. apply consumed_text.
    simpl in Hbw. rewrite Hbw. destruct Hseg1 as [Hb _]. rewrite Hb.
    by rewrite (rev_app_distr (p ++ ws ++ kw ++ ws') w), <- app_assoc.
Qed.

End RegexFacts.

(** ** The ends of a label match *)

Module DelimiterFacts.
Import Regex Matching RegexFacts CompletionRegexes.

(** A match of [exec]: some characters are skipped, and the pattern takes
    the matcher from there to the end of the match. *)
Lemma exec_from_sound i r aft : forall bef m,
  exec_from i r bef aft = Some m ->
  exists skipped rest st',
    aft = skipped ++ rest /\
    Path i r (mkMState (rev skipped ++ bef) rest []) st' /\
    m = mkExec (length (rev skipped ++ bef))
               (JsString.of_chars
                  (consumed (mkMState (rev skipped ++ bef) rest []) st'))
               (caps st').
Proof.
  induction aft as [|c aft IH]; intros bef m; rewrite exec_from_unfold.
  - destruct (rmatch i r Some (mkMState bef [] [])) as [st'|] eqn:Hm; [|done].
    intros [= <-]. apply rmatch_sound in Hm as (st2 & Hp & [= ->]).
    by exists [], [], st'.
  - destruct (rmatch i r Some (mkMState bef (c :: aft) [])) as [st'|] eqn:Hm.
    + intros [= <-]. apply rmatch_sound in Hm as (st2 & Hp & [= ->]).
      by exists [], (c :: aft), st'.
    + intros (skipped & rest & st' & -> & Hp & ->)%IH.
      exists (c :: skipped), rest, st'. simpl.
      rewrite <- !app_assoc. simpl. done.
Qed.

Lemma path_bol_inv i st st' : Path i Bol st st' -> st' = st /\ before st = [].
Proof. by inversion 1. Qed.

Lemma path_eol_inv i st st' : Path i Eol st st' -> st' = st /\ after st = [].
Proof. by inversion 1. Qed.

Lemma path_wordb_inv i st st' :
  Path i WordB st st' -> st' = st /\ word_boundary st = true.
Proof. by inversion 1. Qed.

Lemma path_alt_inv i a b st st' :
  Path i (Alt a b) st st' -> Path i a st st' \/ Path i b st st'.
Proof. inversion 1; subst; auto. Qed.

Lemma path_neglook_inv i a st st' :
  Path i (NegLook a) st st' -> st' = st /\ rmatch i a Some st = None.
Proof. by inversion 1. Qed.

Lemma path_segment i r st st' :
  Path i r st st' -> exists t, segment st st' t.
Proof. intros (t & ? & ?)%path_text. by exists t. Qed.


(** The text of a match that starts at the beginning of the line. *)
Lemma segment_whole line st' t :
  segment (mkMState [] (JsString.chars line) []) st' t ->
  consumed (mkMState [] (JsString.chars line) []) st' = t /\
  JsString.chars line = t ++ after st'.
Proof.
  intros [Hb Ha]. split; [by apply consumed_text|exact Ha].
Qed.

(** A match of the tail of the label-with-colon patterns ends with a
    colon and one more character that is no colon, or with a colon at the
    end of the line. *)
Lemma colon_tail_inv st st' :
  Path true colon_tail st st' ->
  exists name_end after_colon,
    segment st st' (name_end ++ ":"%char :: after_colon) /\
    ((exists c, after_colon = [c] /\ c <> ":"%char) \/
     (after_colon = [] /\ after st' = [])).
Proof.
  unfold colon_tail.
  intros (st1 & Hs & (st2 & Hc & Ha)%path_seq_inv)%path_seq_inv.
  apply path_star_inv in Hs as (name_end & _ & Hseg1 & _).
  apply path_cls_inv in Hc as (c & Hc & Hseg2 & _).
  assert (c = ":"%char) as ->.
  { simpl in Hc. apply bool_decide_eq_true in Hc.
    revert Hc. destruct c as [[] [] [] [] [] [] [] []]; vm_compute; congruence. }
  apply path_alt_inv in Ha as [Ha | Ha].
  - apply path_cls_inv in Ha as (c & Hc' & Hseg3 & _).
    exists name_end, [c]. split.
    + eapply segment_app; [exact Hseg1|].
      by apply (segment_app _ _ _ [":"%char] [c] Hseg2).
    + left. exists c. split; [done|]. intros ->. by vm_compute in Hc'.
  - apply path_eol_inv in Ha as [-> Hend].
    exists name_end, []. split; [|by right].
    eapply segment_app; [exact Hseg1|exact Hseg2].
Qed.

(** The label-with-colon patterns match at the beginning of the line. *)
Lemma colon_pattern_path fz languageId bef aft st' :
  Path true (source (regexEveryLabelColonForWord fz languageId))
       (mkMState bef aft []) st' ->
  bef = [] /\
  exists st1 st2,
    segment (mkMState bef aft []) st1 (consumed (mkMState bef aft []) st1) /\
    Path true fz st1 st2 /\ Path true colon_tail st2 st'.
Proof.
  unfold regexEveryLabelColonForWord. destruct (bool_decide _); simpl.
  - intros (st0 & [-> Hb]%path_bol_inv & (st1 & Hg & Hrest)%path_seq_inv)%path_seq_inv.
    simpl in Hb. split; [done|].
    apply path_group_inv in Hg as (st1' & Hdot & ->).
    apply path_seq_inv in Hrest as (st1b & [-> _]%path_wordb_inv & Hrest).
    apply path_seq_inv in Hrest as (st2 & Hfz & Htail).
    exists (set_cap 1 (mkMState bef aft []) st1'), st2. split; [|done].
    apply path_segment in Hdot as (t & Hseg).
    destruct Hseg as [Hb' Ha']. unfold consumed. simpl.
    rewrite Hb'. simpl. rewrite length_app, length_rev.
    replace (length t + length bef - length bef) with (length t) by lia.
    rewrite <- (length_rev t), take_app_length, rev_involutive.
    by split.
  - intros (st1 & Hg & Hrest)%path_seq_inv.
    apply path_group_inv in Hg as (st1' & Halt & ->).
    assert (Hb : bef = []).
    { apply path_alt_inv in Halt as [Halt | Halt];
        by apply path_seq_inv in Halt as (? & [-> Hb]%path_bol_inv & _). }
    split; [done|].
    apply path_seq_inv in Hrest as (st1b & [-> _]%path_wordb_inv & Hrest).
    apply path_seq_inv in Hrest as (st2 & Hfz & Htail).
    exists (set_cap 1 (mkMState bef aft []) st1'), st2. split; [|done].
    assert (Hseg : exists t, segment (mkMState bef aft []) st1' t).
    { apply path_alt_inv in Halt as [Halt | Halt]; by eapply path_segment. }
    destruct Hseg as (t & Hb' & Ha'). unfold consumed. simpl.
    rewrite Hb'. simpl. rewrite length_app, length_rev.
    replace (length t + length bef - length bef) with (length t) by lia.
    rewrite <- (length_rev t), take_app_length, rev_involutive.
    by split.
Qed.

End DelimiterFacts.

(** ** Queries and the names they find *)

Module DeclaringFacts.
Import Regex Matching RegexFacts DelimiterFacts.
Import CompletionRegexes CommonRegexes_fuzzy Declaring.

(** *** What the fuzzy word of a query matches *)



(** *** The greedy repetition takes all it can *)




(** *** Lists of characters *)



(** *** The lines that declare an identifier *)

Section DeclaringLines.
Context (q word : list ascii).
Context (Hword : identifier word).

#[local] Abbreviation fz := (regexPrepareFuzzy_l q).






End DeclaringLines.

(** *** A query finds a declaration exactly when it is a subsequence of
    the declared name *)


End DeclaringFacts.

(* ===================================================================== *)
(** * Part IV: properties of the outline scan                            *)
(* ===================================================================== *)

Module ScanFacts.
Import JsString DocumentSymbolProvider Outline.

(** *** The store operations, field by field *)

Lemma foldl_set_kind_detail_fields k d l st :
  let st' := foldl (fun st elem => set_kind_detail k d elem st) st l in
  symbols st' = symbols st /\ lastSymbol st' = lastSymbol st /\
  lastSymbols st' = lastSymbols st /\
  lastAbsSymbolChildren st' = lastAbsSymbolChildren st /\
  lastModules st' = lastModules st /\
  defaultSymbolKind st' = defaultSymbolKind st /\
  length (heap st') = length (heap st).
Proof.
  revert st. induction l as [|r l IH]; intros st; simpl; [tauto|].
  destruct (IH (set_kind_detail k d r st)) as (?&?&?&?&?&?&Hlen).
  simpl in *. rewrite length_alter in Hlen. tauto.
Qed.

Lemma length_removelast {A} (l : list A) :
  length (removelast l) = pred (length l).
Proof.
  rewrite removelast_firstn_len, length_take. lia.
Qed.

Section Steps.
Context (config : Config) (pats : Patterns).

#[local] Abbreviation label_step := (label_step config pats).
#[local] Abbreviation ca65_step := (ca65_step pats).
#[local] Abbreviation macro_step := (macro_step pats).
#[local] Abbreviation module_step := (module_step pats).
#[local] Abbreviation classify_step := (classify_step pats).
#[local] Abbreviation step := (step config pats).
#[local] Abbreviation scan_from := (scan_from config pats).
#[local] Abbreviation scan := (scan config pats).

(** *** The rest of a line does not depend on the state *)

Lemma label_step_rest line lc st :
  (label_step line lc st).2 = rest_of_line config pats lc.
Proof.
  unfold rest_of_line, DocumentSymbolProvider.label_step.
  destruct (regexLabel pats lc) as [m|]; [|done].
  destruct (includes (excludes config) (m1 m +:+ m2 m)); done.
Qed.

(** The loop body in terms of the rest of the line. *)
Lemma step_unfold line lc st :
  step line lc st =
  let st1 := (label_step line lc st).1 in
  let rest := rest_of_line config pats lc in
  let st2 := ca65_step line rest st1 in
  let st3 := macro_step line rest st2 in
  if st3.2 then st3.1 else
  let st4 := module_step line rest st3.1 in
  if st4.2 then st4.1 else classify_step rest st4.1.
Proof.
  unfold DocumentSymbolProvider.step.
  rewrite <- (label_step_rest line lc st).
  destruct (label_step line lc st) as [st1 rest]; simpl.
  destruct (macro_step line rest (ca65_step line rest st1)) as [st3 c3]; simpl.
  destruct c3; [done|].
  destruct (module_step line rest st3) as [st4 c4]; simpl.
  by destruct c4.
Qed.

Lemma scan_from_app line l1 l2 st :
  scan_from line (l1 ++ l2) st =
  scan_from (line + length l1) l2 (scan_from line l1 st).
Proof.
  revert line st. induction l1 as [|x l1 IH]; intros line st; simpl.
  - by rewrite Nat.add_0_r.
  - rewrite IH. f_equal. lia.
Qed.

Lemma scan_snoc pre lc :
  scan (pre ++ [lc]) = step (length pre) lc (scan pre).
Proof. unfold DocumentSymbolProvider.scan. by rewrite scan_from_app. Qed.

(** *** The scope stack *)

Lemma label_step_lastModules line lc st :
  lastModules (label_step line lc st).1 = lastModules st.
Proof.
  unfold DocumentSymbolProvider.label_step.
  destruct (regexLabel pats lc) as [m|]; [|done].
  destruct (negb _); [|done]. simpl.
  destruct (startsWith "." _); simpl.
  { by destruct (lastAbsSymbolChildren st). }
  destruct (_ && _); simpl; [done|].
  unfold push_to_lastModule; simpl. by destruct (last (lastModules st)).
Qed.

Lemma ca65_step_depth line lc st :
  length (lastModules (ca65_step line lc st)) =
  depth_after (ca65_events pats lc) (length (lastModules st)).
Proof.
  unfold DocumentSymbolProvider.ca65_step, ca65_events.
  destruct (regexCA65 pats lc) as [m|].
  - destruct (startsWith ".define" _); simpl;
      unfold push_to_lastModule; simpl;
      destruct (last (lastModules st)); simpl;
      rewrite ?length_app; simpl; lia.
  - destruct (regexCA65BlockEnd pats lc); simpl; [|done].
    apply length_removelast.
Qed.

Lemma macro_step_lastModules line lc st :
  lastModules (macro_step line lc st).1 = lastModules st.
Proof.
  unfold DocumentSymbolProvider.macro_step.
  destruct (regexMacro pats) as [re|]; [|done]. simpl.
  by destruct (re lc).
Qed.

Lemma macro_step_continue line lc st :
  (macro_step line lc st).2 = bool_decide (is_Some (regexMacro pats)).
Proof.
  unfold DocumentSymbolProvider.macro_step.
  by destruct (regexMacro pats).
Qed.

Lemma module_step_depth line lc st :
  regexMacro pats = None ->
  length (lastModules (module_step line lc st).1) =
  depth_after (module_events pats lc) (length (lastModules st)).
Proof.
  intros Hm. unfold DocumentSymbolProvider.module_step, module_events, match_module.
  rewrite Hm.
  destruct (match regexModule pats lc with Some m => Some m | None => regexStruct pats lc end)
    as [m|]; [|done].
  unfold is_end_keyword. simpl.
  destruct (truthy (m2 m)); simpl;
    destruct (bool_decide _ || bool_decide _); simpl;
    unfold push_to_lastModule; simpl;
    destruct (last (lastModules st)); simpl;
    rewrite ?length_removelast, ?length_app; simpl; lia.
Qed.

Lemma module_step_not_continue line lc st :
  (module_step line lc st).2 = false -> (module_step line lc st).1 = st.
Proof.
  unfold DocumentSymbolProvider.module_step.
  by destruct (match regexModule pats lc with Some m => Some m | None => regexStruct pats lc end).
Qed.

Lemma classify_step_lastModules lc st :
  lastModules (classify_step lc st) = lastModules st.
Proof.
  unfold DocumentSymbolProvider.classify_step.
  destruct (negb (truthy (trim lc))); simpl;
    destruct (lastSymbol st); simpl; try done;
    destruct (truthy (trim lc)); simpl; try done;
    destruct (regexConst pats (trim lc)); simpl;
    try (destruct (regexData pats (trim lc)); simpl); try done;
    match goal with
    | |- context [foldl (fun st elem => set_kind_detail ?k ?d elem st) ?s ?l] =>
        destruct (foldl_set_kind_detail_fields k d l s) as (_&_&_&_&H&_); by rewrite H
    end.
Qed.

Lemma depth_after_app e1 e2 d :
  depth_after (e1 ++ e2) d = depth_after e2 (depth_after e1 d).
Proof. unfold depth_after. apply foldl_app. Qed.

Lemma step_depth line lc st :
  length (lastModules (step line lc st)) =
  depth_after (scope_events config pats lc) (length (lastModules st)).
Proof.
  rewrite step_unfold. cbv zeta. unfold scope_events.
  set (rest := rest_of_line config pats lc).
  set (st1 := (label_step line lc st).1).
  rewrite depth_after_app, <- (label_step_lastModules line lc st).
  fold st1. rewrite <- (ca65_step_depth line rest st1).
  rewrite macro_step_continue.
  destruct (regexMacro pats) as [re|] eqn:Hm.
  - rewrite bool_decide_eq_true_2 by eauto.
    rewrite macro_step_lastModules.
    unfold module_events. by rewrite Hm.
  - rewrite bool_decide_eq_false_2 by (intros [? ?]; done).
    rewrite <- (macro_step_lastModules line rest (ca65_step line rest st1)).
    rewrite <- (module_step_depth line rest) by done.
    destruct (module_step line rest _).2 eqn:Hc; [done|].
    rewrite classify_step_lastModules. done.
Qed.

Lemma scan_from_depth line lines st :
  length (lastModules (scan_from line lines st)) =
  depth_after (document_events config pats lines) (length (lastModules st)).
Proof.
  revert line st. induction lines as [|lc lines IH]; intros line st; [done|].
  simpl. rewrite IH, step_depth.
  unfold document_events. simpl. by rewrite depth_after_app.
Qed.

End Steps.

(** *** How the store evolves *)

Lemma evolves_weaken n m st st' :
  m <= n -> evolves n st st' -> evolves m st st'.
Proof.
  intros Hle Hev. induction Hev.
  - by apply ev_same.
  - by eapply ev_trans.
  - apply ev_new.
  - apply ev_push_child; [lia|done].
  - apply ev_push_root; [lia|done].
  - apply ev_set_kind_detail.
Qed.

Lemma elem_of_concat_map {A B} (f : A -> list B) (l : list A) (x : B) :
  x ∈ concat (map f l) <-> exists a, a ∈ l /\ x ∈ f a.
Proof.
  induction l as [|a l IH]; simpl.
  - split; [by intros ?%elem_of_nil|by intros (? & ?%elem_of_nil & _)].
  - rewrite elem_of_app, IH. split.
    + intros [?|(b & ? & ?)]; [exists a|exists b]; split; try done; by constructor.
    + intros (b & Hb & ?). apply elem_of_cons in Hb as [->|?]; eauto.
Qed.

Lemma elem_of_refs_of st x :
  x ∈ refs_of st <-> x ∈ symbols st \/ exists o, o ∈ heap st /\ x ∈ children o.
Proof. unfold refs_of. by rewrite elem_of_app, elem_of_concat_map. Qed.

Lemma elem_of_alter {A} (f : A -> A) (i : nat) (l : list A) (y : A) :
  y ∈ alter f i l -> y ∈ l \/ exists x, l !! i = Some x /\ y = f x.
Proof.
  intros Hy. apply list_elem_of_lookup in Hy as [j Hj].
  destruct (decide (i = j)) as [->|].
  - rewrite list_lookup_alter_eq in Hj.
    destruct (l !! j) as [x|] eqn:Hx; simplify_eq/=. right. eauto.
  - rewrite list_lookup_alter_ne in Hj by done. left. by eapply list_elem_of_lookup_2.
Qed.

Lemma refs_of_new_symbol nm k line st x :
  x ∈ refs_of (new_symbol nm k line st).2 -> x ∈ refs_of st.
Proof.
  intros Hx. apply elem_of_refs_of in Hx. apply elem_of_refs_of. simpl in Hx.
  destruct Hx as [?|(o & Ho & Hxo)]; [by left|right].
  apply elem_of_app in Ho as [?|Ho]; [eauto|].
  apply list_elem_of_singleton in Ho as ->. simpl in Hxo. by apply elem_of_nil in Hxo.
Qed.

(** The store only grows, and the references that appear are new ones. *)
Lemma evolves_length n st st' :
  evolves n st st' -> length (heap st) <= length (heap st').
Proof.
  induction 1; simpl; rewrite ?length_alter, ?length_app; try lia.
  by rewrite H.
Qed.

Lemma evolves_refs n st st' x :
  evolves n st st' -> x ∈ refs_of st' -> x ∈ refs_of st \/ n <= x.
Proof.
  intros Hev. revert x. induction Hev; intros x Hx.
  - left. apply elem_of_refs_of in Hx. apply elem_of_refs_of.
    by rewrite <- H, <- H0.
  - destruct (IHHev2 x Hx) as [?|?]; [|by right]. by apply IHHev1.
  - left. by eapply refs_of_new_symbol.
  - apply elem_of_refs_of in Hx. simpl in Hx.
    destruct Hx as [?|(o & Ho & Hxo)].
    { left. apply elem_of_refs_of. by left. }
    apply elem_of_alter in Ho as [?|(o' & Ho' & ->)].
    { left. apply elem_of_refs_of. eauto. }
    simpl in Hxo. apply elem_of_app in Hxo as [?|Hxc].
    + left. apply elem_of_refs_of. right. exists o'. split; [|done].
      by eapply list_elem_of_lookup_2.
    + apply list_elem_of_singleton in Hxc as ->. by right.
  - apply elem_of_refs_of in Hx. simpl in Hx.
    destruct Hx as [Hx|?].
    + apply elem_of_app in Hx as [?|Hxc].
      * left. apply elem_of_refs_of. by left.
      * apply list_elem_of_singleton in Hxc as ->. by right.
    + left. apply elem_of_refs_of. by right.
  - left. apply elem_of_refs_of in Hx. apply elem_of_refs_of. simpl in Hx.
    destruct Hx as [?|(o & Ho & Hxo)]; [by left|right].
    apply elem_of_alter in Ho as [?|(o' & Ho' & ->)]; [eauto|].
    exists o'. split; [by eapply list_elem_of_lookup_2|done].
Qed.

(** Every reference held by the result refers to a symbol of the store. *)
Lemma evolves_refs_valid n st st' :
  evolves n st st' -> refs_valid st -> refs_valid st'.
Proof.
  induction 1 as [st st' Hh Hs| | | | |]; intros Hv; [|by auto|..]; intros x Hx.
  - rewrite Hh. apply Hv. apply elem_of_refs_of in Hx. apply elem_of_refs_of.
    by rewrite <- Hh, <- Hs.
  - pose proof (evolves_length _ _ _ (ev_new n nm k line st)) as Hlen.
    apply refs_of_new_symbol in Hx. specialize (Hv x Hx). lia.
  - simpl. rewrite length_alter.
    apply elem_of_refs_of in Hx. simpl in Hx.
    destruct Hx as [?|(o & Ho & Hxo)].
    { apply Hv, elem_of_refs_of. by left. }
    apply elem_of_alter in Ho as [?|(o' & Ho' & ->)].
    { apply Hv, elem_of_refs_of. eauto. }
    simpl in Hxo. apply elem_of_app in Hxo as [?|Hxc].
    + apply Hv, elem_of_refs_of. right. exists o'. split; [|done].
      by eapply list_elem_of_lookup_2.
    + by apply list_elem_of_singleton in Hxc as ->.
  - simpl. apply elem_of_refs_of in Hx. simpl in Hx.
    destruct Hx as [Hx|?].
    + apply elem_of_app in Hx as [?|Hxc].
      * apply Hv, elem_of_refs_of. by left.
      * by apply list_elem_of_singleton in Hxc as ->.
    + apply Hv, elem_of_refs_of. by right.
  - simpl. rewrite length_alter.
    apply elem_of_refs_of in Hx. simpl in Hx.
    destruct Hx as [?|(o & Ho & Hxo)]; [apply Hv, elem_of_refs_of; by left|].
    apply elem_of_alter in Ho as [?|(o' & Ho' & ->)];
      [apply Hv, elem_of_refs_of; eauto|].
    apply Hv, elem_of_refs_of. right.
    exists o'. split; [by eapply list_elem_of_lookup_2|done].
Qed.

(** A symbol keeps its name and its line, and its child list is only
    extended. *)
Lemma evolves_lookup n st st' r o :
  evolves n st st' -> heap st !! r = Some o ->
  exists o', heap st' !! r = Some o' /\ name o' = name o /\ range o' = range o /\
             (forall c, c ∈ children o -> c ∈ children o').
Proof.
  intros Hev. revert o. induction Hev; intros o Ho.
  - exists o. by rewrite H.
  - destruct (IHHev1 o Ho) as (o1 & H1 & Hn1 & Hr1 & Hc1).
    destruct (IHHev2 o1 H1) as (o2 & H2 & Hn2 & Hr2 & Hc2).
    exists o2. repeat split; [done|congruence|congruence|auto].
  - exists o. simpl. by rewrite lookup_app_l by (by eapply lookup_lt_Some).
  - simpl. destruct (decide (parent = r)) as [->|].
    + rewrite list_lookup_alter_eq, Ho. simpl. eexists. split; [reflexivity|]. simpl.
      do 2 (split; [done|]). intros c Hc. apply elem_of_app. by left.
    + rewrite list_lookup_alter_ne by done. by exists o.
  - by exists o.
  - simpl. destruct (decide (elem = r)) as [->|].
    + rewrite list_lookup_alter_eq, Ho. simpl. eexists. split; [reflexivity|]. done.
    + rewrite list_lookup_alter_ne by done. by exists o.
Qed.

Lemma evolves_child_of n st st' parent child :
  evolves n st st' -> child_of st parent child -> child_of st' parent child.
Proof.
  intros Hev (o & Ho & Hc).
  destruct (evolves_lookup n st st' parent o Hev Ho) as (o' & Ho' & _ & _ & Hcs).
  exists o'. auto.
Qed.

(** Decomposes a goal [evolves n st (f (g (... st)))] along the operations. *)
Ltac evolve_step :=
  lazymatch goal with
  | |- evolves ?n ?st ?st => apply ev_same; reflexivity
  | |- evolves ?n ?st (set_lastSymbol ?v ?x) =>
      apply (ev_trans n st x); [|apply ev_same; reflexivity]
  | |- evolves ?n ?st (set_lastSymbols ?v ?x) =>
      apply (ev_trans n st x); [|apply ev_same; reflexivity]
  | |- evolves ?n ?st (set_lastAbsSymbolChildren ?v ?x) =>
      apply (ev_trans n st x); [|apply ev_same; reflexivity]
  | |- evolves ?n ?st (set_lastModules ?v ?x) =>
      apply (ev_trans n st x); [|apply ev_same; reflexivity]
  | |- evolves ?n ?st (set_defaultSymbolKind ?v ?x) =>
      apply (ev_trans n st x); [|apply ev_same; reflexivity]
  | |- evolves ?n ?st (push_child ?p ?c ?x) =>
      apply (ev_trans n st x);
      [|apply ev_push_child; simpl; rewrite ?length_app; simpl; lia]
  | |- evolves ?n ?st (push_root ?c ?x) =>
      apply (ev_trans n st x);
      [|apply ev_push_root; simpl; rewrite ?length_app; simpl; lia]
  | |- evolves ?n ?st (push_to_lastModule ?c ?x) =>
      apply (ev_trans n st x);
      [|unfold push_to_lastModule; destruct (last (lastModules x));
        [apply ev_push_child|apply ev_push_root];
        simpl; rewrite ?length_app; simpl; lia]
  | |- evolves ?n ?st (set_heap (heap ?x ++ [mkDocumentSymbol ?nm _ ?k ?line _]) ?x) =>
      apply (ev_trans n st x); [|apply (ev_new n nm k line x)]
  end.

Ltac evolve := cbn [fst snd]; repeat evolve_step.

Lemma foldl_set_kind_detail_evolves n k d l st :
  evolves n st (foldl (fun st elem => set_kind_detail k d elem st) st l).
Proof.
  revert st. induction l as [|r l IH]; intros st; simpl.
  - by apply ev_same.
  - eapply ev_trans; [apply ev_set_kind_detail|apply IH].
Qed.

Section Phases.
Context (config : Config) (pats : Patterns).

#[local] Abbreviation label_step := (label_step config pats).
#[local] Abbreviation ca65_step := (ca65_step pats).
#[local] Abbreviation macro_step := (macro_step pats).
#[local] Abbreviation module_step := (module_step pats).
#[local] Abbreviation classify_step := (classify_step pats).
#[local] Abbreviation step := (step config pats).
#[local] Abbreviation scan_from := (scan_from config pats).
#[local] Abbreviation scan := (scan config pats).

Lemma label_step_evolves line lc st :
  evolves (length (heap st)) st (label_step line lc st).1.
Proof.
  unfold DocumentSymbolProvider.label_step, new_symbol.
  destruct (regexLabel pats lc) as [m|]; [|evolve].
  destruct (negb _); [|evolve]. cbv beta iota zeta. simpl fst.
  destruct (startsWith "." _).
  { destruct (lastAbsSymbolChildren _); evolve. }
  destruct (_ && _); evolve.
Qed.

Lemma ca65_step_evolves line lc st :
  evolves (length (heap st)) st (ca65_step line lc st).
Proof.
  unfold DocumentSymbolProvider.ca65_step, new_symbol.
  destruct (regexCA65 pats lc) as [m|].
  - cbv beta iota zeta. destruct (negb _); evolve.
  - destruct (regexCA65BlockEnd pats lc); evolve.
Qed.

Lemma macro_step_evolves line lc st :
  evolves (length (heap st)) st (macro_step line lc st).1.
Proof.
  unfold DocumentSymbolProvider.macro_step, new_symbol.
  destruct (regexMacro pats) as [re|]; [|evolve]. simpl fst.
  destruct (re lc); cbv beta iota zeta; evolve.
Qed.

Lemma module_step_evolves line lc st :
  evolves (length (heap st)) st (module_step line lc st).1.
Proof.
  unfold DocumentSymbolProvider.module_step, new_symbol.
  destruct (match regexModule pats lc with Some m => Some m | None => regexStruct pats lc end)
    as [m|]; [|evolve].
  cbv beta iota zeta. simpl fst.
  destruct (truthy (m2 m)); destruct (bool_decide _ || bool_decide _); evolve.
Qed.

Lemma classify_step_evolves n lc st :
  evolves n st (classify_step lc st).
Proof.
  unfold DocumentSymbolProvider.classify_step. cbv zeta.
  assert (He : evolves n st
            (if negb (truthy (trim lc))
             then set_defaultSymbolKind SymbolKind.Function st else st))
    by (destruct (negb _); [apply ev_same; reflexivity|by apply ev_same]).
  eapply ev_trans; [exact He|].
  set (st0 := if negb (truthy (trim lc)) then _ else st). clearbody st0.
  destruct (lastSymbol st0); [|by apply ev_same].
  destruct (truthy (trim lc)); [|by apply ev_same].
  destruct (regexConst pats (trim lc)) as [m|];
    [|destruct (regexData pats (trim lc)) as [m|]];
    repeat first
      [ apply foldl_set_kind_detail_evolves
      | evolve_step ].
Qed.

(** The rest of the loop body, after label detection. *)
Lemma step_evolves_after_label line lc st :
  evolves (length (heap (label_step line lc st).1))
          (label_step line lc st).1 (step line lc st).
Proof.
  rewrite step_unfold. cbv zeta.
  set (rest := rest_of_line config pats lc).
  set (st1 := (label_step line lc st).1) in *.
  pose proof (ca65_step_evolves line rest st1) as H2.
  set (st2 := ca65_step line rest st1) in *.
  pose proof (evolves_length _ _ _ H2) as L2.
  pose proof (macro_step_evolves line rest st2) as H3.
  set (st3 := macro_step line rest st2) in *.
  pose proof (evolves_length _ _ _ H3) as L3.
  pose proof (module_step_evolves line rest st3.1) as H4.
  set (st4 := module_step line rest st3.1) in *.
  pose proof (evolves_length _ _ _ H4) as L4.
  assert (E3 : evolves (length (heap st1)) st1 st3.1).
  { eapply ev_trans; [exact H2|]. eapply evolves_weaken; [|exact H3]. lia. }
  destruct st3.2; [done|].
  assert (E4 : evolves (length (heap st1)) st1 st4.1).
  { eapply ev_trans; [exact E3|]. eapply evolves_weaken; [|exact H4]. lia. }
  destruct st4.2; [done|].
  eapply ev_trans; [exact E4|]. apply classify_step_evolves.
Qed.

Lemma step_evolves line lc st :
  evolves (length (heap st)) st (step line lc st).
Proof.
  pose proof (label_step_evolves line lc st) as H1.
  eapply ev_trans; [exact H1|].
  eapply evolves_weaken; [|apply step_evolves_after_label].
  by eapply evolves_length.
Qed.

Lemma scan_from_evolves line lines st :
  evolves (length (heap st)) st (scan_from line lines st).
Proof.
  revert line st. induction lines as [|lc lines IH]; intros line st; simpl.
  - by apply ev_same.
  - pose proof (step_evolves line lc st) as H.
    eapply ev_trans; [exact H|].
    eapply evolves_weaken; [|apply IH]. by eapply evolves_length.
Qed.

(** *** The label of a line and its symbol *)

Lemma label_step_no_label line lc st :
  line_label config pats lc = None -> (label_step line lc st).1 = st.
Proof.
  unfold line_label, DocumentSymbolProvider.label_step.
  destruct (regexLabel pats lc) as [m|]; [|done].
  by destruct (includes (excludes config) (m1 m +:+ m2 m)).
Qed.

Lemma label_step_new_symbol line lc st label :
  line_label config pats lc = Some label ->
  length (heap (label_step line lc st).1) = S (length (heap st)) /\
  exists o, heap (label_step line lc st).1 !! length (heap st) = Some o /\
            name o = label /\ range o = line /\ kind o = defaultSymbolKind st.
Proof.
  unfold line_label, DocumentSymbolProvider.label_step, new_symbol.
  destruct (regexLabel pats lc) as [m|]; [|done].
  destruct (includes (excludes config) (m1 m +:+ m2 m)); [done|].
  intros [= <-]. cbv beta iota zeta. cbn [negb fst].
  set (o := mkDocumentSymbol _ _ _ _ _).
  assert (Hl : (heap st ++ [o]) !! length (heap st) = Some o).
  { rewrite lookup_app_r by lia. by rewrite Nat.sub_diag. }
  destruct (startsWith "." _).
  - destruct (lastAbsSymbolChildren _) as [a|] eqn:Ha; simpl.
    + rewrite length_alter, length_app. simpl. split; [lia|].
      simpl in Ha. destruct (decide (a = length (heap st))) as [->|].
      * rewrite list_lookup_alter_eq, Hl. simpl. eauto.
      * rewrite list_lookup_alter_ne by done. rewrite Hl. eauto.
    + rewrite length_app. simpl. split; [lia|]. rewrite Hl. eauto.
  - destruct (_ && _); simpl.
    + rewrite length_app. simpl. split; [lia|]. rewrite Hl. eauto.
    + unfold push_to_lastModule. simpl.
      destruct (last (lastModules st)) as [p|]; simpl.
      * rewrite length_alter, length_app. simpl. split; [lia|].
        destruct (decide (p = length (heap st))) as [->|].
        -- rewrite list_lookup_alter_eq, Hl. simpl. eauto.
        -- rewrite list_lookup_alter_ne by done. rewrite Hl. eauto.
      * rewrite length_app. simpl. split; [lia|]. rewrite Hl. eauto.
Qed.

(** A relative label is pushed on the child list of the parent, if there
    is one ... *)
Lemma label_step_relative_attached line lc st label parent :
  line_label config pats lc = Some label ->
  startsWith "." label = true ->
  lastAbsSymbolChildren st = Some parent ->
  parent < length (heap st) ->
  child_of (label_step line lc st).1 parent (length (heap st)).
Proof.
  unfold line_label, DocumentSymbolProvider.label_step, new_symbol.
  destruct (regexLabel pats lc) as [m|]; [|done].
  destruct (includes (excludes config) (m1 m +:+ m2 m)); [done|].
  intros [= <-] -> Hp Hlt. cbv beta iota zeta. cbn [negb fst].
  simpl. rewrite Hp. unfold child_of. simpl.
  rewrite list_lookup_alter_eq.
  destruct (lookup_lt_is_Some_2 (heap st) parent Hlt) as [o Ho].
  rewrite lookup_app_l, Ho by done. simpl. eexists. split; [done|]. simpl.
  apply elem_of_app. right. by apply list_elem_of_singleton.
Qed.

(** ... and is pushed nowhere if there is none. *)
Lemma label_step_relative_dropped line lc st label n :
  line_label config pats lc = Some label ->
  startsWith "." label = true ->
  lastAbsSymbolChildren st = None ->
  evolves n st (label_step line lc st).1.
Proof.
  unfold line_label, DocumentSymbolProvider.label_step, new_symbol.
  destruct (regexLabel pats lc) as [m|]; [|done].
  destruct (includes (excludes config) (m1 m +:+ m2 m)); [done|].
  intros [= <-] -> Hp. cbv beta iota zeta. cbn [negb fst].
  simpl lastAbsSymbolChildren. rewrite Hp. evolve.
Qed.

(** *** The parent of relative labels *)

Lemma label_step_parent line lc st :
  lastAbsSymbolChildren (label_step line lc st).1 =
  match line_label config pats lc with
  | Some label =>
      if nests config label then Some (length (heap st))
      else lastAbsSymbolChildren st
  | None => lastAbsSymbolChildren st
  end.
Proof.
  unfold line_label, nests, DocumentSymbolProvider.label_step, new_symbol.
  destruct (regexLabel pats lc) as [m|]; [|done].
  destruct (includes (excludes config) (m1 m +:+ m2 m)); [done|].
  cbv beta iota zeta. cbn [negb fst].
  destruct (startsWith "." _); simpl.
  - by destruct (lastAbsSymbolChildren st) eqn:E; simpl; rewrite ?E.
  - destruct (_ && _); simpl; done.
Qed.

Lemma ca65_step_parent line lc st :
  lastAbsSymbolChildren (ca65_step line lc st) =
  match regexCA65 pats lc with
  | Some _ => lastAbsSymbolChildren st
  | None => if bool_decide (is_Some (regexCA65BlockEnd pats lc))
            then None else lastAbsSymbolChildren st
  end.
Proof.
  unfold DocumentSymbolProvider.ca65_step, new_symbol.
  destruct (regexCA65 pats lc) as [m|].
  - cbv beta iota zeta. destruct (negb _); simpl;
      unfold push_to_lastModule; simpl; by destruct (last (lastModules st)).
  - destruct (regexCA65BlockEnd pats lc); simpl; done.
Qed.

Lemma macro_step_parent line lc st :
  lastAbsSymbolChildren (macro_step line lc st).1 = lastAbsSymbolChildren st.
Proof.
  unfold DocumentSymbolProvider.macro_step, new_symbol.
  destruct (regexMacro pats) as [re|]; [|done]. simpl.
  by destruct (re lc).
Qed.

Lemma module_step_parent line lc st :
  lastAbsSymbolChildren (module_step line lc st).1 =
  match match_module pats lc with
  | Some m => if is_end_keyword m then None else lastAbsSymbolChildren st
  | None => lastAbsSymbolChildren st
  end.
Proof.
  unfold DocumentSymbolProvider.module_step, match_module, is_end_keyword, new_symbol.
  destruct (match regexModule pats lc with Some m => Some m | None => regexStruct pats lc end)
    as [m|]; [|done].
  cbv beta iota zeta. cbn [fst].
  destruct (truthy (m2 m)); destruct (bool_decide _ || bool_decide _); simpl; try done;
    unfold push_to_lastModule; simpl; by destruct (last (lastModules st)).
Qed.

Lemma classify_step_parent lc st :
  lastAbsSymbolChildren (classify_step lc st) = lastAbsSymbolChildren st.
Proof.
  unfold DocumentSymbolProvider.classify_step.
  destruct (negb (truthy (trim lc))); simpl;
    destruct (lastSymbol st); simpl; try done;
    destruct (truthy (trim lc)); simpl; try done;
    destruct (regexConst pats (trim lc)); simpl;
    try (destruct (regexData pats (trim lc)); simpl); try done;
    match goal with
    | |- context [foldl (fun st elem => set_kind_detail ?k ?d elem st) ?s ?l] =>
        destruct (foldl_set_kind_detail_fields k d l s) as (_&_&_&H&_); by rewrite H
    end.
Qed.

Lemma step_parent line lc st :
  lastAbsSymbolChildren (step line lc st) =
  match parent_effect config pats lc with
  | SetParent => Some (length (heap st))
  | ClearParent => None
  | KeepParent => lastAbsSymbolChildren st
  end.
Proof.
  rewrite step_unfold. cbv zeta. unfold parent_effect, ends_block.
  set (rest := rest_of_line config pats lc).
  set (st1 := (label_step line lc st).1).
  set (st2 := ca65_step line rest st1).
  assert (H2 : lastAbsSymbolChildren st2 =
               if match regexCA65 pats rest with
                  | Some _ => false
                  | None => bool_decide (is_Some (regexCA65BlockEnd pats rest))
                  end
               then None
               else match line_label config pats lc with
                    | Some label => if nests config label then Some (length (heap st))
                                    else lastAbsSymbolChildren st
                    | None => lastAbsSymbolChildren st
                    end).
  { unfold st2. rewrite ca65_step_parent. unfold st1. rewrite label_step_parent.
    destruct (regexCA65 pats rest); [done|]. by destruct (bool_decide _). }
  rewrite macro_step_continue.
  destruct (regexMacro pats) as [re|] eqn:Hm.
  - rewrite bool_decide_eq_true_2 by eauto.
    rewrite macro_step_parent, H2, orb_false_r.
    destruct (match regexCA65 pats rest with Some _ => false | None => _ end); [done|].
    destruct (line_label config pats lc) as [l|]; [|done]. by destruct (nests config l).
  - rewrite bool_decide_eq_false_2 by (intros [? ?]; done).
    set (st3 := (macro_step line rest st2).1).
    assert (H4 : lastAbsSymbolChildren (module_step line rest st3).1 =
                 match match_module pats rest with
                 | Some m => if is_end_keyword m then None else lastAbsSymbolChildren st2
                 | None => lastAbsSymbolChildren st2
                 end).
    { rewrite module_step_parent. unfold st3. by rewrite macro_step_parent. }
    assert (Hgoal : lastAbsSymbolChildren (module_step line rest st3).1 =
      match
        (if match regexCA65 pats rest with
            | Some _ => false
            | None => bool_decide (is_Some (regexCA65BlockEnd pats rest))
            end
            || match match_module pats rest with
               | Some m => is_end_keyword m
               | None => false
               end
         then ClearParent
         else match line_label config pats lc with
              | Some label => if nests config label then SetParent else KeepParent
              | None => KeepParent
              end)
      with
      | SetParent => Some (length (heap st))
      | ClearParent => None
      | KeepParent => lastAbsSymbolChildren st
      end).
    { rewrite H4, H2.
      destruct (match regexCA65 pats rest with Some _ => false | None => _ end);
        destruct (match_module pats rest) as [m|]; simpl;
        try destruct (is_end_keyword m); simpl; try done;
        destruct (line_label config pats lc) as [l|]; try done;
        by destruct (nests config l). }
    destruct (module_step line rest st3).2; [done|].
    by rewrite classify_step_parent.
Qed.

(** The parent, when set, is a symbol of the store. *)
Lemma scan_from_parent_valid line lines st a :
  (forall a, lastAbsSymbolChildren st = Some a -> a < length (heap st)) ->
  lastAbsSymbolChildren (scan_from line lines st) = Some a ->
  a < length (heap (scan_from line lines st)).
Proof.
  revert line st. induction lines as [|lc lines IH]; intros line st Hst; simpl.
  - apply Hst.
  - apply IH. intros b. rewrite step_parent.
    pose proof (evolves_length _ _ _ (step_evolves line lc st)) as Hlen.
    unfold parent_effect.
    destruct (ends_block config pats lc); [done|].
    destruct (line_label config pats lc) as [l|] eqn:Hl.
    + destruct (nests config l).
      * intros [= <-].
        pose proof (label_step_new_symbol line lc st l Hl) as [Hs _].
        revert Hlen Hs. rewrite step_unfold. cbv zeta.
        set (rest := rest_of_line config pats lc).
        set (st1 := (label_step line lc st).1).
        pose proof (evolves_length _ _ _ (ca65_step_evolves line rest st1)).
        pose proof (evolves_length _ _ _ (macro_step_evolves line rest (ca65_step line rest st1))).
        pose proof (evolves_length _ _ _
          (module_step_evolves line rest (macro_step line rest (ca65_step line rest st1)).1)).
        pose proof (evolves_length _ _ _
          (classify_step_evolves 0 rest
             (module_step line rest (macro_step line rest (ca65_step line rest st1)).1).1)).
        destruct (macro_step line rest _).2; [lia|].
        destruct (module_step line rest _).2; lia.
      * intros Hb. specialize (Hst b Hb). lia.
    + intros Hb. specialize (Hst b Hb). lia.
Qed.

Lemma scan_from_parent_keep line lines st :
  Forall (fun l => parent_effect config pats l = KeepParent) lines ->
  lastAbsSymbolChildren (scan_from line lines st) = lastAbsSymbolChildren st.
Proof.
  intros Hall. revert line st.
  induction Hall as [|lc lines Hlc _ IH]; intros line st; simpl; [done|].
  by rewrite IH, step_parent, Hlc.
Qed.

Lemma scan_from_parent_unset line lines st :
  Forall (fun l => parent_effect config pats l <> SetParent) lines ->
  lastAbsSymbolChildren st = None ->
  lastAbsSymbolChildren (scan_from line lines st) = None.
Proof.
  intros Hall. revert line st.
  induction Hall as [|lc lines Hlc _ IH]; intros line st Hst; simpl; [done|].
  apply IH. rewrite step_parent.
  by destruct (parent_effect config pats lc).
Qed.

Lemma scan_refs_valid lines : refs_valid (scan lines).
Proof.
  eapply evolves_refs_valid; [apply (scan_from_evolves 0 lines init)|].
  intros x Hx. by apply elem_of_nil in Hx.
Qed.

Lemma scan_parent_valid lines a :
  lastAbsSymbolChildren (scan lines) = Some a -> a < length (heap (scan lines)).
Proof. apply scan_from_parent_valid. done. Qed.

Lemma scan_cons_app pre lc post :
  scan (pre ++ lc :: post) =
  scan_from (S (length pre)) post (step (length pre) lc (scan pre)).
Proof.
  unfold DocumentSymbolProvider.scan. rewrite scan_from_app. reflexivity.
Qed.

(** From the state after label detection on a line to the end of the scan. *)
Lemma scan_evolves_after_label pre lc post :
  let st1 := (label_step (length pre) lc (scan pre)).1 in
  evolves (length (heap st1)) st1 (scan (pre ++ lc :: post)).
Proof.
  intros st1. rewrite scan_cons_app.
  pose proof (step_evolves_after_label (length pre) lc (scan pre)) as H1.
  fold st1 in H1.
  eapply ev_trans; [exact H1|].
  eapply evolves_weaken; [|apply scan_from_evolves]. by eapply evolves_length.
Qed.

End Phases.

(** *** The macro step ends the loop body whenever there is a macro pattern *)

Lemma step_with_macro_pattern config pats re line lc st :
  regexMacro pats = Some re ->
  step config pats line lc st =
  let rest := rest_of_line config pats lc in
  (macro_step pats line rest
     (ca65_step pats line rest (label_step config pats line lc st).1)).1.
Proof.
  intros Hre. rewrite step_unfold. cbv zeta.
  rewrite macro_step_continue, Hre. by rewrite bool_decide_eq_true_2 by eauto.
Qed.

Lemma step_without_macro_pattern config pats line lc st :
  regexMacro pats = None ->
  step config pats line lc st =
  let rest := rest_of_line config pats lc in
  let st2 := ca65_step pats line rest (label_step config pats line lc st).1 in
  let st4 := module_step pats line rest st2 in
  if st4.2 then st4.1 else classify_step pats rest st4.1.
Proof.
  intros Hre. rewrite step_unfold. cbv zeta.
  rewrite macro_step_continue, Hre.
  rewrite bool_decide_eq_false_2 by (intros [? ?]; done).
  unfold macro_step. by rewrite Hre.
Qed.

(** *** From the store to the returned trees *)

Lemma nodes_Node r nm d k l sub :
  nodes (Node r nm d k l sub) = (r, nm, k) :: concat (map nodes sub).
Proof.
  simpl. f_equal. induction sub as [|t sub IH]; [done|].
  simpl. by rewrite IH.
Qed.

Lemma build_length base h : length (build base h) = length h.
Proof.
  revert base. induction h as [|o h IH]; intros base; simpl; [done|].
  by rewrite IH.
Qed.

(** The tree at position [i] is the tree of the object [base + i]; its
    subtrees are the trees of the children of that object. *)
Lemma build_lookup base h i t :
  build base h !! i = Some t ->
  exists o sub,
    h !! i = Some o /\
    t = Node (base + i) (name o) (detail o) (kind o) (range o) sub /\
    forall t', t' ∈ sub ->
      exists c, c ∈ children o /\ base + i < c /\ build base h !! (c - base) = Some t'.
Proof.
  revert base i. induction h as [|o h IH]; intros base i; [done|].
  change (build base (o :: h)) with
    (Node base (name o) (detail o) (kind o) (range o)
       (omap (fun c => if S base <=? c then build (S base) h !! (c - S base) else None)
             (children o))
     :: build (S base) h).
  destruct i as [|i].
  - intros [= <-]. eexists o, _. split; [done|]. rewrite Nat.add_0_r.
    split; [done|]. intros t' Ht'.
    apply list_elem_of_omap in Ht' as (c & Hc & Hf).
    change ((if S base <=? c then build (S base) h !! (c - S base) else None) = Some t')
      in Hf.
    destruct (S base <=? c) eqn:Hle; [|done].
    apply Nat.leb_le in Hle.
    exists c. split; [done|]. split; [lia|].
    replace (c - base) with (S (c - S base)) by lia. done.
  - intros Ht. change (build (S base) h !! i = Some t) in Ht.
    destruct (IH (S base) i Ht) as (o' & sub & Ho' & -> & Hsub).
    exists o', sub. split; [done|]. split; [f_equal; lia|].
    intros t' Ht'. destruct (Hsub t' Ht') as (c & Hc & Hlt & Hb).
    exists c. split; [done|]. split; [lia|].
    replace (c - base) with (S (c - S base)) by lia. done.
Qed.

(** Every node of a tree shows an object of the store, and every node but
    the root is referenced by a child list. *)
Lemma build_nodes base h m i t r nm k :
  length h - i <= m ->
  build base h !! i = Some t ->
  (r, nm, k) ∈ nodes t ->
  (exists o, h !! (r - base) = Some o /\ base <= r /\ name o = nm /\ kind o = k) /\
  (r = base + i \/ exists o, o ∈ h /\ r ∈ children o).
Proof.
  revert i t. induction m as [|m IH]; intros i t Hm Ht Hn.
  { apply lookup_lt_Some in Ht. rewrite build_length in Ht. lia. }
  destruct (build_lookup base h i t Ht) as (o & sub & Ho & -> & Hsub).
  rewrite nodes_Node in Hn. apply elem_of_cons in Hn as [Heq|Hn].
  - injection Heq as -> -> ->. split; [|by left].
    exists o. replace (base + i - base) with i by lia. split; [done|]. split; [lia|done].
  - apply elem_of_concat_map in Hn as (t' & Ht' & Hn).
    destruct (Hsub t' Ht') as (c & Hc & Hlt & Hb).
    assert (Hlen : c - base < length h).
    { apply lookup_lt_Some in Hb. by rewrite build_length in Hb. }
    destruct (IH (c - base) t') as [Hobj Href]; [lia|done|done|].
    split; [done|]. right. destruct Href as [->|?]; [|done].
    exists o. split; [by eapply list_elem_of_lookup_2|].
    by replace (base + (c - base)) with c by lia.
Qed.

Lemma outline_nodes st r nm k :
  (r, nm, k) ∈ all_nodes (outline st) ->
  (exists o, heap st !! r = Some o /\ name o = nm /\ kind o = k) /\ r ∈ refs_of st.
Proof.
  unfold all_nodes, outline. intros Hn.
  apply elem_of_concat_map in Hn as (t & Ht & Hn).
  apply list_elem_of_omap in Ht as (root & Hroot & Ht).
  destruct (build_nodes 0 (heap st) (length (heap st)) root t r nm k)
    as [(o & Ho & _ & Hnm & Hk) Href]; [lia|done|done|].
  rewrite Nat.sub_0_r in Ho. split; [eauto|].
  apply elem_of_refs_of. destruct Href as [->|?]; [by left|by right].
Qed.

(** *** The returned trees show the whole store

    A child is created after its parent, and every reference held by the
    scan refers to a symbol of the store. So the trees read off the store
    leave nothing out: the subtrees of a node are the trees of the
    children of its object, in their order. *)

Lemma ordered_same st st' :
  heap st' = heap st -> symbols st' = symbols st ->
  lastModules st' = lastModules st ->
  lastAbsSymbolChildren st' = lastAbsSymbolChildren st ->
  ordered st -> ordered st'.
Proof. unfold ordered. by intros -> -> -> ->. Qed.

Lemma ordered_new nm k line st :
  ordered st -> ordered (new_symbol nm k line st).2.
Proof.
  intros (H1 & H2 & H3 & H4). unfold ordered. simpl. rewrite length_app. simpl.
  split; [|split; [|split]].
  - intros i o Ho. apply lookup_app_Some in Ho as [Ho|[Hi Ho]].
    + eapply Forall_impl; [exact (H1 i o Ho)|]. simpl. intros c. lia.
    + destruct (i - length (heap st)); simplify_eq/=. constructor.
  - eapply Forall_impl; [exact H2|]. simpl. intros c. lia.
  - eapply Forall_impl; [exact H3|]. simpl. intros c. lia.
  - intros a Ha. specialize (H4 a Ha). lia.
Qed.

Lemma ordered_push_child p c st :
  p < c -> c < length (heap st) -> ordered st -> ordered (push_child p c st).
Proof.
  intros Hpc Hc (H1 & H2 & H3 & H4). unfold ordered. simpl. rewrite length_alter.
  split; [|done]. intros i o Ho.
  destruct (decide (p = i)) as [->|Hne].
  - rewrite list_lookup_alter_eq in Ho.
    destruct (heap st !! i) as [o'|] eqn:Ho'; simplify_eq/=.
    apply Forall_app. split; [by apply (H1 i)|]. constructor; [lia|constructor].
  - rewrite list_lookup_alter_ne in Ho by done. by apply (H1 i).
Qed.

Lemma ordered_push_root c st :
  c < length (heap st) -> ordered st -> ordered (push_root c st).
Proof.
  intros Hc (H1 & H2 & H3 & H4). unfold ordered. simpl.
  split; [done|]. split; [|done].
  apply Forall_app. split; [done|]. by constructor.
Qed.

Lemma ordered_push_to_lastModule c st :
  (forall m, m ∈ lastModules st -> m < c) -> c < length (heap st) ->
  ordered st -> ordered (push_to_lastModule c st).
Proof.
  intros Hm Hc Hord. unfold push_to_lastModule.
  destruct (last (lastModules st)) as [m|] eqn:Hlast.
  - apply ordered_push_child; [|done|done].
    apply Hm. apply last_Some in Hlast as [l' ->].
    apply elem_of_app. right. by apply list_elem_of_singleton.
  - by apply ordered_push_root.
Qed.

Lemma ordered_open c st :
  c < length (heap st) -> ordered st ->
  ordered (set_lastModules (lastModules st ++ [c]) st).
Proof.
  intros Hc (H1 & H2 & H3 & H4). unfold ordered. simpl.
  do 2 (split; [done|]). split; [|done].
  apply Forall_app. split; [done|]. by constructor.
Qed.

Lemma ordered_close st :
  ordered st ->
  ordered (set_lastAbsSymbolChildren None
             (set_lastModules (removelast (lastModules st)) st)).
Proof.
  intros (H1 & H2 & H3 & H4). unfold ordered. simpl.
  do 2 (split; [done|]). split; [|done].
  rewrite removelast_firstn_len. by apply Forall_take.
Qed.

Lemma ordered_set_parent a st :
  a < length (heap st) -> ordered st ->
  ordered (set_lastAbsSymbolChildren (Some a) st).
Proof.
  intros Ha (H1 & H2 & H3 & H4). unfold ordered. simpl.
  do 3 (split; [done|]). by intros ? [= <-].
Qed.

Lemma ordered_set_kind_detail k d elem st :
  ordered st -> ordered (set_kind_detail k d elem st).
Proof.
  intros (H1 & H2 & H3 & H4). unfold ordered. simpl. rewrite length_alter.
  split; [|done]. intros i o Ho.
  destruct (decide (elem = i)) as [->|Hne].
  - rewrite list_lookup_alter_eq in Ho.
    destruct (heap st !! i) as [o'|] eqn:Ho'; simplify_eq/=. by apply (H1 i).
  - rewrite list_lookup_alter_ne in Ho by done. by apply (H1 i).
Qed.

Lemma ordered_foldl k d l st :
  ordered st -> ordered (foldl (fun st elem => set_kind_detail k d elem st) st l).
Proof.
  revert st. induction l as [|r l IH]; intros st Hord; simpl; [done|].
  by apply IH, ordered_set_kind_detail.
Qed.

(** A new symbol is above every reference the scan holds. *)
Lemma ordered_below_new st :
  ordered st ->
  (forall m, m ∈ lastModules st -> m < length (heap st)) /\
  (forall a, lastAbsSymbolChildren st = Some a -> a < length (heap st)).
Proof.
  intros (_ & _ & H3 & H4). split; [|done].
  rewrite Forall_forall in H3. exact H3.
Qed.

Section Ordered.
Context (config : Config) (pats : Patterns).

Lemma label_step_ordered line lc st :
  ordered st -> ordered (label_step config pats line lc st).1.
Proof.
  intros Hord. destruct (ordered_below_new st Hord) as [Hm Ha].
  unfold label_step.
  destruct (regexLabel pats lc) as [m|]; [|done].
  destruct (negb _); [|done].
  pose proof (ordered_new (m1 m +:+ m2 m) (defaultSymbolKind st) line st Hord) as H1.
  unfold new_symbol in *. cbv beta iota zeta. cbn [fst snd] in *.
  set (st1 := set_heap _ st) in *.
  set (st3 := set_lastSymbols _ (set_lastSymbol _ st1)).
  assert (H3 : ordered st3) by (by eapply ordered_same; [..|exact H1]).
  assert (Hlen : length (heap st) < length (heap st3))
    by (unfold st3, st1; simpl; rewrite length_app; simpl; lia).
  destruct (startsWith "." _).
  - destruct (lastAbsSymbolChildren st3) as [a|] eqn:Hp; [|done].
    apply ordered_push_child; [by apply Ha|done|done].
  - destruct (_ && _); [by apply ordered_push_root|].
    apply ordered_set_parent.
    + unfold push_to_lastModule. destruct (last (lastModules st3)); simpl;
        rewrite ?length_alter; exact Hlen.
    + by apply ordered_push_to_lastModule.
Qed.

Lemma ca65_step_ordered line lc st :
  ordered st -> ordered (ca65_step pats line lc st).
Proof.
  intros Hord. destruct (ordered_below_new st Hord) as [Hm Ha].
  unfold ca65_step. destruct (regexCA65 pats lc) as [m|].
  - pose proof (ordered_new (m2 m) SymbolKind.Method line st Hord) as H1.
    unfold new_symbol in *. cbv beta iota zeta. cbn [fst snd] in *.
    set (st1 := set_heap _ st) in *.
    assert (Hlen : length (heap st) < length (heap st1))
      by (unfold st1; simpl; rewrite length_app; simpl; lia).
    assert (H2 : ordered (push_to_lastModule (length (heap st)) st1))
      by (by apply ordered_push_to_lastModule).
    destruct (negb _); [|done].
    apply ordered_open; [|done].
    unfold push_to_lastModule. destruct (last (lastModules st1)); simpl;
      rewrite ?length_alter; exact Hlen.
  - destruct (regexCA65BlockEnd pats lc); [|done]. by apply ordered_close.
Qed.

Lemma macro_step_ordered line lc st :
  ordered st -> ordered (macro_step pats line lc st).1.
Proof.
  intros Hord. unfold macro_step.
  destruct (regexMacro pats) as [re|]; [|done]. cbn [fst].
  destruct (re lc) as [m|]; [|done].
  pose proof (ordered_new (m2 m) SymbolKind.Method line st Hord) as H1.
  unfold new_symbol in *. cbv beta iota zeta. cbn [fst snd] in *.
  apply ordered_push_root; [|done]. simpl. rewrite length_app. simpl. lia.
Qed.

Lemma module_step_ordered line lc st :
  ordered st -> ordered (module_step pats line lc st).1.
Proof.
  intros Hord. destruct (ordered_below_new st Hord) as [Hm Ha].
  unfold module_step.
  destruct (match regexModule pats lc with Some m => Some m | None => regexStruct pats lc end)
    as [m|]; [|done].
  cbv zeta. cbn [fst].
  set (k := if startsWith "module" (toLowerCase (m1 m))
            then SymbolKind.Module else SymbolKind.Struct).
  pose proof (ordered_new (m2 m) k line st Hord) as H1.
  unfold new_symbol in *. cbv beta iota zeta. cbn [fst snd] in *.
  set (st1 := set_heap _ st) in *.
  assert (Hlen : length (heap st) < length (heap st1))
    by (unfold st1; simpl; rewrite length_app; simpl; lia).
  assert (H2 : ordered (if truthy (m2 m)
                        then set_lastModules
                               (lastModules (push_to_lastModule (length (heap st)) st1)
                                ++ [length (heap st)])
                               (push_to_lastModule (length (heap st)) st1)
                        else st)).
  { destruct (truthy (m2 m)); [|done].
    apply ordered_open; [|by apply ordered_push_to_lastModule].
    unfold push_to_lastModule. destruct (last (lastModules st1)); simpl;
      rewrite ?length_alter; exact Hlen. }
  set (st2 := if truthy (m2 m) then _ else st) in *. clearbody st2.
  eapply ordered_same; [reflexivity..|].
  destruct (bool_decide _ || bool_decide _); [by apply ordered_close|done].
Qed.

Lemma classify_step_ordered lc st :
  ordered st -> ordered (classify_step pats lc st).
Proof.
  intros Hord. unfold classify_step. cbv zeta.
  assert (H0 : ordered (if negb (truthy (trim lc))
                        then set_defaultSymbolKind SymbolKind.Function st else st))
    by (by destruct (negb _)).
  set (st0 := if negb (truthy (trim lc)) then _ else st) in *. clearbody st0.
  destruct (lastSymbol st0); [|done].
  destruct (truthy (trim lc)); [|done].
  eapply ordered_same; [reflexivity..|].
  destruct (regexConst pats (trim lc)) as [m|];
    [|destruct (regexData pats (trim lc)) as [m|]]; [| |done].
  all: eapply ordered_same; [reflexivity..|]; by apply ordered_foldl.
Qed.

Lemma step_ordered line lc st :
  ordered st -> ordered (step config pats line lc st).
Proof.
  intros Hord. unfold step.
  pose proof (label_step_ordered line lc st Hord) as H1.
  destruct (label_step config pats line lc st) as [st1 rest]. cbn [fst] in H1.
  pose proof (ca65_step_ordered line rest st1 H1) as H2.
  pose proof (macro_step_ordered line rest _ H2) as H3.
  destruct (macro_step pats line rest (ca65_step pats line rest st1)) as [st3 c3].
  cbn [fst] in H3. destruct c3; [done|].
  pose proof (module_step_ordered line rest st3 H3) as H4.
  destruct (module_step pats line rest st3) as [st4 c4].
  cbn [fst] in H4. destruct c4; [done|].
  by apply classify_step_ordered.
Qed.

Lemma scan_ordered lines : ordered (scan config pats lines).
Proof.
  unfold scan.
  assert (H : ordered init).
  { split; [intros i o Hi; simpl in Hi; by destruct i|].
    split; [constructor|]. split; [constructor|done]. }
  revert H. generalize init, 0.
  induction lines as [|lc lines IH]; intros st line Hord; simpl; [done|].
  apply IH. by apply step_ordered.
Qed.

End Ordered.

(** The tree of every object is there, and its subtrees are the trees of
    the children. *)
Lemma build_exact base h :
  (forall i o, h !! i = Some o ->
               Forall (fun c => base + i < c < base + length h) (children o)) ->
  forall i o, h !! i = Some o ->
    exists sub,
      build base h !! i
      = Some (Node (base + i) (name o) (detail o) (kind o) (range o) sub) /\
      map root sub = children o.
Proof.
  revert base. induction h as [|o0 h IH]; intros base Hh i o Hi; [done|].
  assert (IH' : forall i o, h !! i = Some o ->
            exists sub,
              build (S base) h !! i
              = Some (Node (S base + i) (name o) (detail o) (kind o) (range o) sub) /\
              map root sub = children o).
  { apply IH. intros j oj Hj. specialize (Hh (S j) oj Hj). simpl in Hh.
    eapply Forall_impl; [exact Hh|]. simpl. intros c. lia. }
  change (build base (o0 :: h)) with
    (Node base (name o0) (detail o0) (kind o0) (range o0)
       (omap (fun c => if S base <=? c then build (S base) h !! (c - S base) else None)
             (children o0))
     :: build (S base) h).
  destruct i as [|i].
  - injection Hi as ->. eexists. split; [by rewrite Nat.add_0_r|].
    specialize (Hh 0 o eq_refl). rewrite Nat.add_0_r in Hh. simpl in Hh.
    induction Hh as [|c cs Hc _ IHcs]; [done|].
    change (omap ?f (c :: cs)) with
      (match f c with Some y => y :: omap f cs | None => omap f cs end).
    cbv beta. destruct (Nat.leb_spec (S base) c) as [Hle|Hle]; [|lia].
    assert (Hlt : c - S base < length h) by lia.
    destruct (lookup_lt_is_Some_2 h _ Hlt) as [oc Hoc].
    destruct (IH' _ _ Hoc) as (subc & -> & _).
    rewrite map_cons, IHcs. cbn [root]. f_equal. lia.
  - destruct (IH' i o Hi) as (sub & Hb & Hsub).
    exists sub. split; [|done]. simpl. rewrite Hb. do 2 f_equal. lia.
Qed.

Lemma outline_exact config pats lines :
  let st := scan config pats lines in
  map root (outline st) = symbols st /\
  forall i o, heap st !! i = Some o ->
    exists sub,
      build 0 (heap st) !! i
      = Some (Node i (name o) (detail o) (kind o) (range o) sub) /\
      map root sub = children o.
Proof.
  cbv zeta. destruct (scan_ordered config pats lines) as (H1 & H2 & _ & _).
  set (st := scan config pats lines) in *.
  assert (Hex : forall i o, heap st !! i = Some o ->
            exists sub,
              build 0 (heap st) !! i
              = Some (Node (0 + i) (name o) (detail o) (kind o) (range o) sub) /\
              map root sub = children o).
  { apply build_exact. intros i o Ho. exact (H1 i o Ho). }
  split; [|exact Hex].
  unfold outline. induction H2 as [|r rs Hr _ IH]; [done|].
  change (omap ?f (r :: rs)) with
    (match f r with Some y => y :: omap f rs | None => omap f rs end).
  cbv beta. destruct (lookup_lt_is_Some_2 (heap st) r Hr) as [o Ho].
  destruct (Hex r o Ho) as (sub & -> & _). by rewrite map_cons, IH.
Qed.

(** *** Excluded names *)

Section Excluded.
Context (config : Config) (pats : Patterns).

#[local] Abbreviation clean := (clean config).
#[local] Abbreviation excl_inv := (excl_inv config).

Lemma excl_inv_same st st' :
  heap st' = heap st -> lastSymbols st' = lastSymbols st ->
  excl_inv st -> excl_inv st'.
Proof. unfold excl_inv. by intros -> ->. Qed.

Lemma excl_inv_clear st :
  excl_inv st -> excl_inv (set_lastSymbols [] st).
Proof. intros [H1 _]. split; [done|]. simpl. constructor. Qed.

Lemma excl_inv_push_child p c st :
  excl_inv st -> excl_inv (push_child p c st).
Proof.
  intros [H1 H2]. split; simpl.
  - apply Forall_alter; [done|]. intros o _ Ho. exact Ho.
  - eapply Forall_impl; [exact H2|]. intros r (o & Ho & Hn).
    unfold push_child. cbn [heap set_heap].
    destruct (decide (p = r)) as [->|].
    + rewrite list_lookup_alter_eq, Ho. simpl. eexists. split; [done|]. done.
    + rewrite list_lookup_alter_ne by done. eauto.
Qed.

Lemma excl_inv_push_root c st :
  excl_inv st -> excl_inv (push_root c st).
Proof. by apply excl_inv_same. Qed.

Lemma excl_inv_push_to_lastModule c st :
  excl_inv st -> excl_inv (push_to_lastModule c st).
Proof.
  unfold push_to_lastModule. destruct (last (lastModules st)).
  - apply excl_inv_push_child.
  - apply excl_inv_push_root.
Qed.

Lemma excl_inv_new nm k line st :
  (is_label_kind k = true -> nm ∉ excludes config) ->
  excl_inv st -> excl_inv (new_symbol nm k line st).2.
Proof.
  intros Hnm [H1 H2]. split; simpl.
  - apply Forall_app. split; [done|]. by constructor.
  - eapply Forall_impl; [exact H2|]. intros r (o & Ho & Hn).
    unfold new_symbol. cbn [snd heap set_heap].
    exists o. split; [|done]. rewrite lookup_app_l; [done|]. by eapply lookup_lt_Some.
Qed.

Lemma excl_inv_set_kind_detail k d elem st :
  elem ∈ lastSymbols st ->
  excl_inv st -> excl_inv (set_kind_detail k d elem st).
Proof.
  intros Hin [H1 H2].
  assert (Hel : exists o, heap st !! elem = Some o /\ name o ∉ excludes config).
  { rewrite Forall_forall in H2. by apply H2. }
  destruct Hel as (oe & Hoe & Hne).
  split; simpl.
  - apply Forall_alter; [done|]. intros o Ho _ _. simpl. congruence.
  - eapply Forall_impl; [exact H2|]. intros r (o & Ho & Hn).
    unfold set_kind_detail. cbn [heap set_heap].
    destruct (decide (elem = r)) as [->|].
    + rewrite list_lookup_alter_eq, Ho. simpl. eexists. split; [done|]. done.
    + rewrite list_lookup_alter_ne by done. eauto.
Qed.

Lemma excl_inv_foldl k d l st :
  l ⊆ lastSymbols st ->
  excl_inv st ->
  excl_inv (foldl (fun st elem => set_kind_detail k d elem st) st l).
Proof.
  revert st. induction l as [|r l IH]; intros st Hsub Hinv; simpl; [done|].
  apply IH.
  - simpl. intros x Hx. apply Hsub. by right.
  - apply excl_inv_set_kind_detail; [|done]. apply Hsub. by left.
Qed.

Lemma label_step_excl line lc st :
  excl_inv st -> excl_inv (label_step config pats line lc st).1.
Proof.
  intros Hinv. unfold DocumentSymbolProvider.label_step.
  destruct (regexLabel pats lc) as [m|]; [|done].
  destruct (includes (excludes config) (m1 m +:+ m2 m)) eqn:Hex; [done|].
  cbn [negb].
  assert (Hnm : m1 m +:+ m2 m ∉ excludes config).
  { unfold includes in Hex. by apply bool_decide_eq_false in Hex. }
  pose proof (excl_inv_new (m1 m +:+ m2 m) (defaultSymbolKind st) line st
                (fun _ => Hnm) Hinv) as H1.
  unfold new_symbol in *. cbv beta iota zeta. cbn [fst snd] in *.
  set (st1 := set_heap _ st) in *.
  assert (H2 : excl_inv (set_lastSymbols (lastSymbols (set_lastSymbol (Some (length (heap st))) st1)
                                          ++ [length (heap st)])
                           (set_lastSymbol (Some (length (heap st))) st1))).
  { destruct H1 as [Ha Hb]. split; [done|]. simpl.
    apply Forall_app. split; [done|]. constructor; [|done].
    eexists. split;
      [unfold st1; cbn [heap set_heap set_lastSymbol];
       rewrite lookup_app_r by lia; rewrite Nat.sub_diag; reflexivity
      |exact Hnm]. }
  destruct (startsWith "." _).
  - destruct (lastAbsSymbolChildren _); [by apply excl_inv_push_child|done].
  - destruct (_ && _); [by apply excl_inv_push_root|].
    eapply excl_inv_same; [reflexivity|reflexivity|].
    by apply excl_inv_push_to_lastModule.
Qed.

Lemma ca65_step_excl line lc st :
  excl_inv st -> excl_inv (ca65_step pats line lc st).
Proof.
  intros Hinv. unfold DocumentSymbolProvider.ca65_step.
  destruct (regexCA65 pats lc) as [m|].
  - pose proof (excl_inv_new (m2 m) SymbolKind.Method line st
                  (fun H => ltac:(discriminate H)) Hinv) as H1.
    unfold new_symbol in *. cbv beta iota zeta. cbn [fst snd] in *.
    destruct (negb _).
    + eapply excl_inv_same; [reflexivity|reflexivity|].
      by apply excl_inv_push_to_lastModule.
    + by apply excl_inv_push_to_lastModule.
  - destruct (regexCA65BlockEnd pats lc); [|done].
    by eapply excl_inv_same; [reflexivity|reflexivity|].
Qed.

Lemma macro_step_excl line lc st :
  excl_inv st -> excl_inv (macro_step pats line lc st).1.
Proof.
  intros Hinv. unfold DocumentSymbolProvider.macro_step.
  destruct (regexMacro pats) as [re|]; [|done]. cbn [fst].
  destruct (re lc) as [m|]; [|done].
  pose proof (excl_inv_new (m2 m) SymbolKind.Method line st
                (fun H => ltac:(discriminate H)) Hinv) as H1.
  unfold new_symbol in *. cbv beta iota zeta. cbn [fst snd] in *.
  by apply excl_inv_push_root.
Qed.

Lemma module_step_excl line lc st :
  excl_inv st -> excl_inv (module_step pats line lc st).1.
Proof.
  intros Hinv. unfold DocumentSymbolProvider.module_step.
  destruct (match regexModule pats lc with Some m => Some m | None => regexStruct pats lc end)
    as [m|]; [|done].
  cbv zeta. cbn [fst].
  set (k := if startsWith "module" (toLowerCase (m1 m))
            then SymbolKind.Module else SymbolKind.Struct).
  assert (Hk : is_label_kind k = true -> m2 m ∉ excludes config).
  { unfold k. destruct (startsWith _ _); discriminate. }
  pose proof (excl_inv_new (m2 m) k line st Hk Hinv) as H1.
  unfold new_symbol in *. cbv beta iota zeta. cbn [fst snd] in *.
  apply excl_inv_clear.
  eapply excl_inv_same; [reflexivity|reflexivity|].
  destruct (truthy (m2 m)); destruct (bool_decide _ || bool_decide _);
    repeat first
      [ assumption
      | apply excl_inv_push_to_lastModule
      | (eapply excl_inv_same; [reflexivity|reflexivity|]) ].
Qed.

Lemma classify_step_excl lc st :
  excl_inv st -> excl_inv (classify_step pats lc st).
Proof.
  intros Hinv. unfold DocumentSymbolProvider.classify_step. cbv zeta.
  assert (H0 : excl_inv (if negb (truthy (trim lc))
                         then set_defaultSymbolKind SymbolKind.Function st else st))
    by (destruct (negb _); [by eapply excl_inv_same; [reflexivity|reflexivity|]|done]).
  set (st0 := if negb (truthy (trim lc)) then _ else st) in *. clearbody st0.
  destruct (lastSymbol st0); [|done].
  destruct (truthy (trim lc)); [|done].
  apply excl_inv_clear.
  eapply excl_inv_same; [reflexivity|reflexivity|].
  destruct (regexConst pats (trim lc)) as [m|];
    [|destruct (regexData pats (trim lc)) as [m|]]; [| |done].
  all: eapply excl_inv_same; [reflexivity|reflexivity|];
       by apply excl_inv_foldl.
Qed.

Lemma step_excl line lc st :
  excl_inv st -> excl_inv (step config pats line lc st).
Proof.
  intros Hinv. unfold DocumentSymbolProvider.step.
  pose proof (label_step_excl line lc st Hinv) as H1.
  destruct (label_step config pats line lc st) as [st1 rest]. cbn [fst] in H1.
  pose proof (ca65_step_excl line rest st1 H1) as H2.
  pose proof (macro_step_excl line rest _ H2) as H3.
  destruct (macro_step pats line rest (ca65_step pats line rest st1)) as [st3 c3].
  cbn [fst] in H3. destruct c3; [done|].
  pose proof (module_step_excl line rest st3 H3) as H4.
  destruct (module_step pats line rest st3) as [st4 c4].
  cbn [fst] in H4. destruct c4; [done|].
  by apply classify_step_excl.
Qed.

Lemma scan_excl lines :
  excl_inv (scan config pats lines).
Proof.
  unfold scan. assert (H : excl_inv init) by (split; constructor).
  revert H. generalize init, 0.
  induction lines as [|lc lines IH]; intros st line Hinv; simpl; [done|].
  apply IH. by apply step_excl.
Qed.

(** In the returned trees no symbol of a label kind bears an excluded
    name. *)
Lemma outline_excluded lines r nm k :
  (r, nm, k) ∈ all_nodes (outline (scan config pats lines)) ->
  is_label_kind k = true ->
  nm ∉ excludes config.
Proof.
  intros Hn Hk.
  destruct (outline_nodes _ _ _ _ Hn) as [(o & Ho & <- & <-) _].
  destruct (scan_excl lines) as [Hall _].
  rewrite Forall_forall in Hall. apply Hall; [|done].
  by eapply list_elem_of_lookup_2.
Qed.

End Excluded.

(** *** With a macro pattern there are labels and directives only *)

Section MacroPattern.
Context (config : Config) (pats : Patterns) (re : Pattern).
Context (Hre : regexMacro pats = Some re).

Lemma plain_inv_same st st' :
  heap st' = heap st -> defaultSymbolKind st' = defaultSymbolKind st ->
  plain_inv st -> plain_inv st'.
Proof. unfold plain_inv. by intros -> ->. Qed.

Lemma plain_inv_push_child p c st :
  plain_inv st -> plain_inv (push_child p c st).
Proof.
  intros [H1 H2]. split; [|done]. simpl.
  apply Forall_alter; [done|]. intros o _ Ho. exact Ho.
Qed.

Lemma plain_inv_push_to_lastModule c st :
  plain_inv st -> plain_inv (push_to_lastModule c st).
Proof.
  unfold push_to_lastModule. destruct (last (lastModules st)).
  - apply plain_inv_push_child.
  - by apply plain_inv_same.
Qed.

Lemma plain_inv_new nm k line st :
  k = SymbolKind.Function \/ k = SymbolKind.Method ->
  plain_inv st -> plain_inv (new_symbol nm k line st).2.
Proof.
  intros Hk [H1 H2]. split; [|done]. simpl.
  apply Forall_app. split; [done|]. by constructor.
Qed.

Lemma step_plain line lc st :
  plain_inv st -> plain_inv (step config pats line lc st).
Proof using Hre.
  intros Hinv. rewrite (step_with_macro_pattern config pats re) by done. cbv zeta.
  set (rest := rest_of_line config pats lc).
  assert (H1 : plain_inv (label_step config pats line lc st).1).
  { unfold label_step. destruct (regexLabel pats lc) as [m|]; [|done].
    destruct (negb _); [|done].
    pose proof (plain_inv_new (m1 m +:+ m2 m) (defaultSymbolKind st) line st
                  (or_introl (proj2 Hinv)) Hinv) as Hn.
    unfold new_symbol in *. cbv beta iota zeta. cbn [fst snd] in *.
    set (st1 := set_heap _ st) in *.
    assert (H2 : plain_inv (set_lastSymbols (lastSymbols (set_lastSymbol (Some (length (heap st))) st1)
                                             ++ [length (heap st)])
                              (set_lastSymbol (Some (length (heap st))) st1)))
      by (by eapply plain_inv_same; [reflexivity|reflexivity|]).
    destruct (startsWith "." _).
    - destruct (lastAbsSymbolChildren _); [by apply plain_inv_push_child|done].
    - destruct (_ && _); [by eapply plain_inv_same; [reflexivity|reflexivity|]|].
      eapply plain_inv_same; [reflexivity|reflexivity|].
      by apply plain_inv_push_to_lastModule. }
  set (st1 := (label_step config pats line lc st).1) in *.
  assert (H2 : plain_inv (ca65_step pats line rest st1)).
  { unfold ca65_step. destruct (regexCA65 pats rest) as [m|].
    - pose proof (plain_inv_new (m2 m) SymbolKind.Method line st1 (or_intror eq_refl) H1)
        as Hn.
      unfold new_symbol in *. cbv beta iota zeta. cbn [fst snd] in *.
      destruct (negb _).
      + eapply plain_inv_same; [reflexivity|reflexivity|].
        by apply plain_inv_push_to_lastModule.
      + by apply plain_inv_push_to_lastModule.
    - destruct (regexCA65BlockEnd pats rest); [|done].
      by eapply plain_inv_same; [reflexivity|reflexivity|]. }
  set (st2 := ca65_step pats line rest st1) in *.
  unfold macro_step. rewrite Hre. cbn [fst].
  destruct (re rest) as [m|]; [|done].
  pose proof (plain_inv_new (m2 m) SymbolKind.Method line st2 (or_intror eq_refl) H2) as Hn.
  unfold new_symbol in *. cbv beta iota zeta. cbn [fst snd] in *.
  by eapply plain_inv_same; [reflexivity|reflexivity|].
Qed.

Lemma scan_plain lines : plain_inv (scan config pats lines).
Proof using Hre.
  unfold scan. assert (H : plain_inv init) by (split; [constructor|done]).
  revert H. generalize init, 0.
  induction lines as [|lc lines IH]; intros st line Hinv; simpl; [done|].
  apply IH. by apply step_plain.
Qed.

(** Every symbol of the returned trees is a Function or a Method. *)
Lemma outline_plain lines :
  Forall (fun node => node.2 = SymbolKind.Function \/ node.2 = SymbolKind.Method)
         (all_nodes (outline (scan config pats lines))).
Proof using Hre.
  apply Forall_forall. intros [[r nm] k] Hn.
  destruct (outline_nodes _ _ _ _ Hn) as [(o & Ho & _ & <-) _].
  destruct (scan_plain lines) as [Hall _].
  rewrite Forall_forall in Hall. apply Hall. by eapply list_elem_of_lookup_2.
Qed.

End MacroPattern.

(** *** The counter on balanced sequences *)

Lemma opens_app e1 e2 : opens (e1 ++ e2) = opens e1 + opens e2.
Proof. unfold opens. by rewrite filter_app, length_app. Qed.

Lemma closes_app e1 e2 : closes (e1 ++ e2) = closes e1 + closes e2.
Proof. unfold closes. by rewrite filter_app, length_app. Qed.

Lemma balanced_depth events :
  balanced events ->
  closes events <= opens events /\
  depth_after events 0 = opens events - closes events.
Proof.
  induction events as [|e events IH] using rev_ind; intros Hb; [done|].
  assert (Hall : closes (events ++ [e]) <= opens (events ++ [e]))
    by (apply Hb; done).
  split; [done|].
  destruct IH as [Hle Heq].
  { intros p Hp. apply Hb. etrans; [done|]. by apply prefix_app_r. }
  unfold depth_after in *. rewrite foldl_app. simpl. rewrite Heq.
  rewrite opens_app, closes_app in *.
  destruct e.
  - change (opens [Open]) with 1 in *. change (closes [Open]) with 0 in *.
    simpl. lia.
  - change (opens [Close]) with 0 in *. change (closes [Close]) with 1 in *.
    simpl. lia.
Qed.

(** The check of [balanced] by running the counter is right. *)
Lemma never_negative_closes depth events p :
  never_negative depth events = true ->
  p `prefix_of` events -> closes p <= depth + opens p.
Proof.
  revert depth p. induction events as [|e es IH]; intros depth p Hnn Hp.
  - apply prefix_nil_inv in Hp as ->. cbn. lia.
  - destruct p as [|e' p]; [cbn; lia|].
    apply prefix_cons_inv_1 in Hp as He. subst e'.
    apply prefix_cons_inv_2 in Hp.
    change (e :: p) with ([e] ++ p). rewrite opens_app, closes_app.
    destruct e; simpl in Hnn.
    + specialize (IH (S depth) p Hnn Hp).
      change (opens [Open]) with 1. change (closes [Open]) with 0. lia.
    + destruct depth as [|d]; [done|].
      specialize (IH d p Hnn Hp).
      change (opens [Close]) with 0. change (closes [Close]) with 1. lia.
Qed.

Lemma never_negative_balanced events :
  never_negative 0 events = true -> balanced events.
Proof.
  intros Hnn p Hp. by apply (never_negative_closes 0 events p Hnn) in Hp.
Qed.

End ScanFacts.

(** ** Scope directives and the scope stack *)

Module DirectiveFacts.
Import JsString DocumentSymbolProvider Outline Directives ScanFacts.

Section DirectiveLineFacts.
Context (config : Config) (pats : Patterns).

(** On a line with one directive at most, the scope stack is pushed and
    popped as the directive says. *)
Lemma scope_events_directive lc :
  single_directive config pats lc = true ->
  scope_events config pats lc = option_list (directive config pats lc).
Proof.
  unfold single_directive, scope_events, directive, ca65_events, module_events.
  cbv zeta. set (rest := rest_of_line config pats lc).
  destruct (match_module pats rest) as [m|].
  - destruct (regexMacro pats); [done|].
    destruct (regexCA65 pats rest); [done|].
    destruct (regexCA65BlockEnd pats rest); [done|].
    destruct (is_end_keyword m), (truthy (m2 m)); done.
  - intros _.
    destruct (regexMacro pats); rewrite app_nil_r;
      (destruct (regexCA65 pats rest) as [m|];
       [by destruct (startsWith ".define" _)
       |by destruct (regexCA65BlockEnd pats rest)]).
Qed.

Lemma document_events_directives lines :
  Forall (fun l => single_directive config pats l = true) lines ->
  document_events config pats lines = directives config pats lines.
Proof.
  unfold document_events, directives.
  induction 1 as [|l lines Hl _ IH]; [done|].
  simpl. rewrite IH, (scope_events_directive l Hl).
  by destruct (directive config pats l).
Qed.

Lemma scan_depth_directives lines :
  Forall (fun l => single_directive config pats l = true) lines ->
  length (lastModules (scan config pats lines))
  = depth_after (directives config pats lines) 0.
Proof.
  intros Hall. rewrite <- (document_events_directives lines Hall).
  apply (scan_from_depth config pats 0 lines init).
Qed.

End DirectiveLineFacts.

End DirectiveFacts.

(** ** The parent of relative labels *)

Module ParentFacts.
Import JsString DocumentSymbolProvider Outline ScanFacts.

Section ParentLines.
Context (config : Config) (pats : Patterns).

(** With a macro pattern the loop body ends before the MODULE/STRUCT
    step: only a CA65 block end resets the parent of relative labels. *)
Lemma parent_effect_with_macro_pattern re lc :
  regexMacro pats = Some re ->
  regexCA65BlockEnd pats (rest_of_line config pats lc) = None ->
  parent_effect config pats lc
  = match line_label config pats lc with
    | Some label => if nests config label then SetParent else KeepParent
    | None => KeepParent
    end.
Proof.
  intros Hm Hend. unfold parent_effect, ends_block. cbv zeta. rewrite Hm, Hend.
  by destruct (regexCA65 pats (rest_of_line config pats lc)).
Qed.

(** A relative label goes to the child list of the symbol that the
    parent of relative labels refers to. *)
Lemma relative_label_attached pre la mid lr post label :
  parent_effect config pats la = SetParent ->
  Forall (fun l => parent_effect config pats l = KeepParent) mid ->
  line_label config pats lr = Some label ->
  startsWith "." label = true ->
  child_of (scan config pats (pre ++ la :: mid ++ lr :: post))
           (length (heap (scan config pats pre)))
           (length (heap (scan config pats (pre ++ la :: mid)))).
Proof.
  intros Hset Hmid Hlabel Hrel.
  set (sta := scan config pats pre).
  set (stm := scan config pats (pre ++ la :: mid)).
  assert (Hparent : lastAbsSymbolChildren stm = Some (length (heap sta))).
  { unfold stm. rewrite scan_cons_app, scan_from_parent_keep by done.
    rewrite step_parent. by rewrite Hset. }
  pose proof (scan_parent_valid config pats _ _ Hparent) as Hvalid. fold stm in Hvalid.
  replace (pre ++ la :: mid ++ lr :: post) with ((pre ++ la :: mid) ++ lr :: post)
    by (by rewrite <- app_assoc).
  pose proof (scan_evolves_after_label config pats (pre ++ la :: mid) lr post) as Hrest.
  cbv zeta in Hrest. fold stm in Hrest.
  eapply evolves_child_of; [exact Hrest|].
  by apply (label_step_relative_attached config pats
              (length (pre ++ la :: mid)) lr stm label).
Qed.

End ParentLines.

End ParentFacts.

(* ===================================================================== *)
(** * Part V: the workspace-symbol query                                 *)
(* ===================================================================== *)

Module WorkspaceFacts.
Import WorkspaceSymbolProvider.

Section Query.
Context (grepMultiple : list Regex.RegExp -> string -> string -> string -> list GrepLocation).
Context (regexCA65DirectiveForWord : Regex.regex -> bool -> Regex.RegExp).
Context (configs : string -> option Config).

#[local] Abbreviation getWsSymbols := (getWsSymbols grepMultiple regexCA65DirectiveForWord).
#[local] Abbreviation folders_loop :=
  (folders_loop grepMultiple regexCA65DirectiveForWord configs).
#[local] Abbreviation searched := (Folders.searched configs).
#[local] Abbreviation folder_symbols :=
  (Folders.folder_symbols grepMultiple regexCA65DirectiveForWord configs).

(** What one folder contributes: its hits, without the excluded names. *)
Lemma filter_locations_not_excluded config locations acc :
  Forall (fun s => si_name s ∉ labelsExcludes config) acc ->
  Forall (fun s => si_name s ∉ labelsExcludes config)
    (foldl (fun symbols loc =>
              if JsString.includes (labelsExcludes config) (loc_symbol loc)
              then symbols
              else symbols ++ [mkSymbolInformation (loc_symbol loc) (loc_uri loc)
                                                    (loc_range loc)])
           acc locations).
Proof.
  revert acc. induction locations as [|loc locations IH]; intros acc Hacc; simpl.
  - done.
  - apply IH. unfold JsString.includes.
    destruct (bool_decide (loc_symbol loc ∈ labelsExcludes config)) eqn:Hex; [done|].
    apply bool_decide_eq_false in Hex.
    apply Forall_app. split; [done|]. by constructor.
Qed.

Lemma getWsSymbols_not_excluded config query sym :
  sym ∈ getWsSymbols config query -> si_name sym ∉ labelsExcludes config.
Proof.
  unfold WorkspaceSymbolProvider.getWsSymbols. cbv zeta. intros Hsym.
  pose proof (filter_locations_not_excluded config
    (grepMultiple (search_regexes regexCA65DirectiveForWord config query)
       (wsFolderPath config) LanguageId.ASM_COLLECTION (excludeFiles config))
    [] ltac:(constructor)) as Hall.
  rewrite Forall_forall in Hall. by apply Hall.
Qed.

Lemma folders_loop_cons token query n ws rest symbols :
  folders_loop token query n (ws :: rest) symbols =
  if token n then None
  else folders_loop token query (S n) rest (symbols ++ folder_symbols query ws).
Proof.
  simpl. unfold folder_symbols, searched.
  destruct (token n); [done|].
  destruct (configs ws) as [config|]; [|by rewrite app_nil_r].
  destruct (negb (enableWorkspaceSymbols config)); [by rewrite app_nil_r|].
  destruct (String.length query <? workspaceSymbolsRequiredLength config);
    [by rewrite app_nil_r|done].
Qed.

(** Without a cancellation the loop returns what the folders contribute,
    in order. *)
Lemma folders_loop_complete token query n wsFolders symbols :
  (forall i, i < length wsFolders -> token (n + i) = false) ->
  folders_loop token query n wsFolders symbols =
  Some (symbols ++ concat (map (folder_symbols query) wsFolders)).
Proof.
  revert n symbols. induction wsFolders as [|ws rest IH]; intros n symbols Htok.
  - simpl. by rewrite app_nil_r.
  - rewrite folders_loop_cons.
    pose proof (Htok 0 ltac:(simpl; lia)) as H0. rewrite Nat.add_0_r in H0.
    rewrite H0, IH.
    + simpl. by rewrite app_assoc.
    + intros i Hi. replace (S n + i) with (n + S i) by lia. apply Htok. simpl. lia.
Qed.

(** With a cancellation at any of the checks the loop returns nothing. *)
Lemma folders_loop_cancelled token query n wsFolders symbols i :
  i < length wsFolders -> token (n + i) = true ->
  folders_loop token query n wsFolders symbols = None.
Proof.
  revert n symbols i. induction wsFolders as [|ws rest IH]; intros n symbols i Hi Htok.
  - simpl in Hi. lia.
  - rewrite folders_loop_cons. destruct (token n) eqn:Hn; [done|].
    destruct i as [|i]; [rewrite Nat.add_0_r in Htok; congruence|].
    apply (IH (S n) _ i); [simpl in Hi; lia|].
    by replace (S n + i) with (n + S i) by lia.
Qed.

Lemma folders_loop_Some token query n wsFolders symbols result :
  folders_loop token query n wsFolders symbols = Some result ->
  (forall i, i < length wsFolders -> token (n + i) = false) /\
  result = symbols ++ concat (map (folder_symbols query) wsFolders).
Proof.
  intros Hres.
  assert (Htok : forall i, i < length wsFolders -> token (n + i) = false).
  { intros i Hi. destruct (token (n + i)) eqn:Ht; [|done].
    by rewrite (folders_loop_cancelled token query n wsFolders symbols i Hi Ht) in Hres. }
  split; [done|]. rewrite folders_loop_complete in Hres by done. congruence.
Qed.

End Query.

End WorkspaceFacts.

(* ===================================================================== *)
(** * Part VI: the statements of the description, one by one               *)
(* ===================================================================== *)

Import JsString DocumentSymbolProvider Outline ScanFacts.
Import WorkspaceSymbolProvider Folders WorkspaceFacts SamplePatterns.
Import Directives DirectiveFacts ParentFacts.

(** ** The outline scenario and the macro step *)

(** C1. The document MODULE foo / bar: nop / .loop: nop / ENDMODULE. In a
    dialect with a macro pattern the loop body ends after the macro step on
    every line, so the MODULE line opens no scope: whatever the patterns
    are, the outline holds Function and Method symbols only, and with the
    sample patterns it is the label bar with .loop below it. In a dialect
    without a macro pattern the same document gives the outline of the
    description, module foo with bar in it and .loop below bar. *)
Theorem module_scenario_outline :
  (forall config label module struct ca65 ca65_end const data macro,
     let pats := mkPatterns label module struct ca65 ca65_end const data (Some macro) in
     Forall (fun node => node.2 = SymbolKind.Function \/ node.2 = SymbolKind.Method)
            (all_nodes (outline (scan config pats module_scenario)))) /\
  provideDocumentSymbols (Some (sampleConfig [])) with_macro module_scenario
  = Some [Node 0 "bar" "" SymbolKind.Function 1
            [Node 1 ".loop" "" SymbolKind.Function 2 []]]
  /\
  map shape <$> provideDocumentSymbols (Some (sampleConfig [])) without_macro module_scenario
  = Some [Sym "foo" SymbolKind.Module
            [Sym "bar" SymbolKind.Function
               [Sym ".loop" SymbolKind.Function []]]].
Proof.
  split.
  - intros config label module struct ca65 ca65_end const data macro pats.
    by apply (outline_plain config pats macro).
  - split; vm_compute; reflexivity.
Qed.

(** C5. A macro line gives a Method symbol at the root, also inside an
    open scope, and nothing else happens on that line. But once there is a
    macro pattern the later steps are skipped on every other line as well:
    for all patterns and documents the outline then holds Function and
    Method symbols only, no module, struct, constant or field. On the
    lines below the macro pattern does not match, yet no module is opened
    and VAL stays a Function without detail, where the dialect without a
    macro pattern gives a module and a constant. *)
Theorem macro_step_skips_unmatched_lines :
  (forall config label module struct ca65 ca65_end const data macro lines,
     let pats := mkPatterns label module struct ca65 ca65_end const data (Some macro) in
     Forall (fun node => node.2 = SymbolKind.Function \/ node.2 = SymbolKind.Method)
            (all_nodes (outline (scan config pats lines)))) /\
  let lines := [".proc p"; " MACRO m1"; ".endproc"; " MODULE foo"; "VAL: EQU 5"] in
  to_pattern sampleMacro " MODULE foo" = None /\
  to_pattern sampleMacro "VAL: EQU 5" = None /\
  provideDocumentSymbols (Some (sampleConfig [])) with_macro lines
  = Some [Node 0 "p" "" SymbolKind.Method 0 [];
          Node 1 "m1" "" SymbolKind.Method 1 [];
          Node 2 "VAL" "" SymbolKind.Function 4 []]
  /\
  provideDocumentSymbols (Some (sampleConfig [])) without_macro (drop 3 lines)
  = Some [Node 0 "foo" "" SymbolKind.Module 0
            [Node 1 "VAL" "EQU 5" SymbolKind.Constant 1 []]].
Proof.
  split.
  - intros config label module struct ca65 ca65_end const data macro lines pats.
    by apply (outline_plain config pats macro).
  - repeat split; vm_compute; reflexivity.
Qed.

(** ** The scope stack *)

(** C3, the statement as given fails: after a close on the empty stack
    the count is 0 only until the next open. The block end comes first,
    so closes exceed opens at the first prefix, and one frame is open at
    the end. *)
Lemma scope_depth_after_unmatched_close :
  ~ (forall config pats lines,
       Forall (fun l => single_directive config pats l = true) lines ->
       (exists p, p `prefix_of` directives config pats lines /\
                  opens p < closes p) ->
       length (lastModules (scan config pats lines)) = 0).
Proof.
  intros H.
  specialize (H (sampleConfig []) with_macro [".endproc"; ".proc a"]).
  assert (Hev : directives (sampleConfig []) with_macro [".endproc"; ".proc a"]
                = [Close; Open]) by (vm_compute; reflexivity).
  rewrite Hev in H.
  assert (Hlen : length (lastModules (scan (sampleConfig []) with_macro
                                        [".endproc"; ".proc a"])) = 1)
    by (vm_compute; reflexivity).
  rewrite Hlen in H. discriminate H.
  - repeat (constructor; [vm_compute; reflexivity|]). constructor.
  - exists [Close]. split; [by exists [Open]|]. vm_compute. lia.
Qed.

(** C3 (as amended). The lines of the document hold CA65 block opens and
    block ends, and in a dialect without a macro pattern MODULE, STRUCT,
    ENDMODULE and ENDS lines, one directive a line at most and no name
    behind an end keyword. Then the number of open scope frames after the
    scan is the count that starts at 0, goes up by one at every open and
    down by one, but not below 0, at every close. It is opens minus closes
    when closes never exceed opens at any prefix. A close on the empty
    stack leaves the stack empty. *)
Theorem scope_stack_depth config pats lines :
  Forall (fun l => single_directive config pats l = true) lines ->
  let depth := length (lastModules (scan config pats lines)) in
  depth = depth_after (directives config pats lines) 0 /\
  (balanced (directives config pats lines) ->
   depth = opens (directives config pats lines)
           - closes (directives config pats lines)) /\
  (forall pre l post,
     lines = pre ++ l :: post ->
     directive config pats l = Some Close ->
     lastModules (scan config pats pre) = [] ->
     lastModules (scan config pats (pre ++ [l])) = []).
Proof.
  intros Hall. cbv zeta.
  pose proof (scan_depth_directives config pats lines Hall) as Hd.
  split; [done|]. split.
  - intros Hb. rewrite Hd. by apply balanced_depth.
  - intros pre l post -> Hl Hpre.
    apply Forall_app in Hall as [Hall_pre Hall_l].
    apply Forall_cons in Hall_l as [Hsingle _].
    assert (Hlen : length (lastModules (scan config pats (pre ++ [l]))) = 0).
    { rewrite scan_depth_directives
        by (apply Forall_app; split; [done|by constructor]).
      assert (Hdirs : directives config pats (pre ++ [l])
                      = directives config pats pre ++ [Close]).
      { unfold directives. rewrite omap_app. simpl. by rewrite Hl. }
      rewrite Hdirs, depth_after_app.
      rewrite <- (scan_depth_directives config pats pre Hall_pre), Hpre.
      reflexivity. }
    by destruct (lastModules (scan config pats (pre ++ [l]))).
Qed.

Lemma scope_stack_depth_witness :
  let config := sampleConfig [] in
  let lines := [" MODULE a"; ".proc p"; "foo: nop"; " STRUCT s"; " ENDS"; ".endproc";
                 " ENDMODULE"; " ENDMODULE"; "bar: .scope b"] in
  Forall (fun l => single_directive config without_macro l = true) lines /\
  directives config without_macro lines
  = [Open; Open; Open; Close; Close; Close; Close; Open] /\
  length (lastModules (scan config without_macro lines)) = 1 /\
  balanced (directives config without_macro (take 6 lines)) /\
  length (lastModules (scan config without_macro (take 6 lines))) = 3 - 2 /\
  lastModules (scan config without_macro (take 7 lines ++ [" ENDMODULE"])) = [].
Proof.
  cbv zeta.
  set (lines := [" MODULE a"; ".proc p"; "foo: nop"; " STRUCT s"; " ENDS"; ".endproc";
                  " ENDMODULE"; " ENDMODULE"; "bar: .scope b"]).
  assert (Hall : Forall (fun l => single_directive (sampleConfig []) without_macro l = true)
                        lines)
    by (repeat (constructor; [vm_compute; reflexivity|]); constructor).
  assert (Hall6 : Forall (fun l => single_directive (sampleConfig []) without_macro l = true)
                         (take 6 lines))
    by (repeat (constructor; [vm_compute; reflexivity|]); constructor).
  assert (Hdir : directives (sampleConfig []) without_macro lines
                 = [Open; Open; Open; Close; Close; Close; Close; Open])
    by (vm_compute; reflexivity).
  assert (Hb : balanced (directives (sampleConfig []) without_macro (take 6 lines))).
  { apply never_negative_balanced. vm_compute. reflexivity. }
  destruct (scope_stack_depth (sampleConfig []) without_macro lines Hall)
    as (Hdepth & _ & Hpop).
  destruct (scope_stack_depth (sampleConfig []) without_macro (take 6 lines) Hall6)
    as (_ & Hbal & _).
  split; [exact Hall|]. split; [exact Hdir|]. split; [|split; [exact Hb|split]].
  - rewrite Hdepth, Hdir. reflexivity.
  - rewrite (Hbal Hb). vm_compute. reflexivity.
  - apply (Hpop (take 7 lines) " ENDMODULE" ["bar: .scope b"]).
    + reflexivity.
    + vm_compute. reflexivity.
    + vm_compute. reflexivity.
Defined.

(** ** Relative labels *)

(** C9. A relative label on a line before which no line has set the parent
    of relative labels, or before which a block was ended and no line
    after the block end has set the parent, is dropped: its symbol is
    created, but no child list and no root holds it, so it is in none of
    the returned trees. A line sets the parent when it declares a label
    that takes part in scope nesting and does not end a block. But a block
    end is a CA65 block end, or an ENDMODULE or ENDS on a line that
    reaches the MODULE/STRUCT step, and with a macro pattern no line
    reaches that step: whatever the patterns are, a relative label that
    follows a label and a line without label and without CA65 block end
    is a child of that label, also when the line between is an ENDMODULE
    line. For foo: / ENDMODULE / .rel: the outline with a macro pattern
    has .rel below foo; without one .rel is dropped. *)
Theorem relative_label_without_parent_is_dropped :
  (forall config pats pre lc post label,
     line_label config pats lc = Some label ->
     startsWith "." label = true ->
     (Forall (fun l => parent_effect config pats l <> SetParent) pre
      \/ exists p1 e p2,
           pre = p1 ++ e :: p2 /\ ends_block config pats e = true /\
           Forall (fun l => parent_effect config pats l <> SetParent) p2) ->
     let final := scan config pats (pre ++ lc :: post) in
     let r := length (heap (scan config pats pre)) in
     (exists o, heap final !! r = Some o /\ name o = label /\ range o = length pre) /\
     (r ∉ refs_of final) /\
     (forall nm k, (r, nm, k) ∉ all_nodes (outline final))) /\
  (forall config label module struct ca65 ca65_end const data macro
          pre la e lr post absolute relative,
     let pats := mkPatterns label module struct ca65 ca65_end const data (Some macro) in
     line_label config pats la = Some absolute ->
     nests config absolute = true ->
     regexCA65BlockEnd pats (rest_of_line config pats la) = None ->
     line_label config pats e = None ->
     regexCA65BlockEnd pats (rest_of_line config pats e) = None ->
     line_label config pats lr = Some relative ->
     startsWith "." relative = true ->
     child_of (scan config pats (pre ++ la :: [e] ++ lr :: post))
              (length (heap (scan config pats pre)))
              (length (heap (scan config pats (pre ++ la :: [e]))))) /\
  let lines := ["foo:"; " ENDMODULE"; ".rel:"] in
  (is_end_keyword
     <$> match_module with_macro (rest_of_line (sampleConfig []) with_macro " ENDMODULE"))
  = Some true /\
  provideDocumentSymbols (Some (sampleConfig [])) with_macro lines
  = Some [Node 0 "foo" "" SymbolKind.Function 0
            [Node 1 ".rel" "" SymbolKind.Function 2 []]]
  /\
  provideDocumentSymbols (Some (sampleConfig [])) without_macro lines
  = Some [Node 0 "foo" "" SymbolKind.Function 0 []].
Proof.
  split; [|split].
  - intros config pats pre lc post label Hlabel Hrel Hpre. cbv zeta.
    set (st := scan config pats pre).
    set (r := length (heap st)).
    assert (Hparent : lastAbsSymbolChildren st = None).
    { destruct Hpre as [Hall|(p1 & e & p2 & -> & He & Hall)].
      - by apply (scan_from_parent_unset config pats 0 pre init).
      - unfold st. rewrite scan_cons_app.
        apply scan_from_parent_unset; [done|].
        rewrite step_parent. unfold parent_effect. by rewrite He. }
    pose proof (label_step_new_symbol config pats (length pre) lc st label Hlabel)
      as (Hlen & o & Ho & Hname & Hrange & _).
    pose proof (label_step_relative_dropped config pats (length pre) lc st label (S r)
                  Hlabel Hrel Hparent) as Hdrop.
    pose proof (scan_evolves_after_label config pats pre lc post) as Hrest.
    cbv zeta in Hrest. fold st in Hrest, Hlen, Ho, Hdrop. rewrite Hlen in Hrest.
    fold r in Hrest, Ho.
    assert (Hnot : r ∉ refs_of (scan config pats (pre ++ lc :: post))).
    { intros Hin.
      destruct (evolves_refs _ _ _ r (ev_trans _ _ _ _ Hdrop Hrest) Hin) as [Hold|Hge]; [|lia].
      pose proof (scan_refs_valid config pats pre r Hold). fold st in H. unfold r in H. lia. }
    split; [|split; [done|]].
    + destruct (evolves_lookup _ _ _ r o Hrest Ho) as (o' & Ho' & Hn' & Hr' & _).
      exists o'. split; [done|]. split; congruence.
    + intros nm k Hin. apply Hnot. by apply outline_nodes in Hin as [_ ?].
  - intros config label module struct ca65 ca65_end const data macro
           pre la e lr post absolute relative pats Hla Hnests Hla_end He He_end Hlr Hrel.
    apply (relative_label_attached config pats pre la [e] lr post relative);
      [|constructor; [|constructor]|done|done].
    + rewrite (parent_effect_with_macro_pattern config pats macro la eq_refl Hla_end).
      by rewrite Hla, Hnests.
    + rewrite (parent_effect_with_macro_pattern config pats macro e eq_refl He_end).
      by rewrite He.
  - cbv zeta. repeat split; vm_compute; reflexivity.
Qed.

Lemma relative_label_without_parent_is_dropped_witness :
  let config := sampleConfig [] in
  let final := scan config without_macro
                 (["foo:"; " ENDMODULE"] ++ ".rel: nop" :: ["bar:"]) in
  let r := length (heap (scan config without_macro ["foo:"; " ENDMODULE"])) in
  ends_block config without_macro " ENDMODULE" = true /\
  (exists o, heap final !! r = Some o /\ name o = ".rel" /\ range o = 2) /\
  (r ∉ refs_of final) /\
  (forall nm k, (r, nm, k) ∉ all_nodes (outline final)).
Proof.
  cbv zeta. split; [vm_compute; reflexivity|].
  apply (proj1 relative_label_without_parent_is_dropped
           (sampleConfig []) without_macro ["foo:"; " ENDMODULE"] ".rel: nop" ["bar:"] ".rel").
  - vm_compute. reflexivity.
  - vm_compute. reflexivity.
  - right. exists ["foo:"], " ENDMODULE", []. split; [reflexivity|].
    split; [vm_compute; reflexivity|constructor].
Defined.

(** C2, the statement as given fails: after the block end the relative
    label is not attached to the absolute label before it; it is attached
    nowhere. *)
Lemma relative_label_after_block_end_not_attached :
  let final := scan (sampleConfig []) with_macro ["foo:"; ".endproc"; ".rel:"] in
  (exists o, heap final !! 0 = Some o /\ name o = "foo" /\ range o = 0) /\
  (exists o, heap final !! 1 = Some o /\ name o = ".rel" /\ range o = 2) /\
  ~ child_of final 0 1 /\
  outline final = [Node 0 "foo" "" SymbolKind.Function 0 []].
Proof.
  cbv zeta. split; [|split; [|split]].
  - eexists. split; [vm_compute; reflexivity|]. split; reflexivity.
  - eexists. split; [vm_compute; reflexivity|]. split; reflexivity.
  - intros (o & Ho & Hc). vm_compute in Ho. injection Ho as <-.
    simpl in Hc. by apply elem_of_nil in Hc.
  - vm_compute. reflexivity.
Qed.

(** C2 (as amended). A relative label is attached as a child of the
    nearest preceding label that takes part in scope nesting, whatever
    scopes were opened in between, provided no block was ended on the
    line of that label or after it. *)
Theorem relative_label_attached_to_parent
    config pats pre la mid lr post label :
  parent_effect config pats la = SetParent ->
  Forall (fun l => parent_effect config pats l = KeepParent) mid ->
  line_label config pats lr = Some label ->
  startsWith "." label = true ->
  let final := scan config pats (pre ++ la :: mid ++ lr :: post) in
  let a := length (heap (scan config pats pre)) in
  let r := length (heap (scan config pats (pre ++ la :: mid))) in
  child_of final a r /\
  (exists o, heap final !! a = Some o /\
             line_label config pats la = Some (name o) /\ range o = length pre) /\
  (exists o, heap final !! r = Some o /\ name o = label /\
             range o = length pre + S (length mid)) /\
  (exists nm d k l sub,
     build 0 (heap final) !! a = Some (Node a nm d k l sub) /\ r ∈ map root sub).
Proof.
  intros Hset Hmid Hlabel Hrel. cbv zeta.
  cut (let final := scan config pats (pre ++ la :: mid ++ lr :: post) in
       let a := length (heap (scan config pats pre)) in
       let r := length (heap (scan config pats (pre ++ la :: mid))) in
       child_of final a r /\
       (exists o, heap final !! a = Some o /\
                  line_label config pats la = Some (name o) /\ range o = length pre) /\
       (exists o, heap final !! r = Some o /\ name o = label /\
                  range o = length pre + S (length mid))).
  { cbv zeta. intros (Hchild & Ha & Hr). do 3 (split; [done|]).
    destruct Hchild as (o & Ho & Hc).
    destruct (outline_exact config pats (pre ++ la :: mid ++ lr :: post))
      as [_ Hex].
    destruct (Hex _ _ Ho) as (sub & Hb & Hsub).
    exists (name o), (detail o), (kind o), (range o), sub. split; [done|].
    by rewrite Hsub. }
  cbv zeta.
  set (sta := scan config pats pre).
  set (stm := scan config pats (pre ++ la :: mid)).
  assert (Hla : exists l, line_label config pats la = Some l).
  { unfold parent_effect in Hset. destruct (ends_block config pats la); [done|].
    destruct (line_label config pats la); [eauto|done]. }
  destruct Hla as [l Hl].
  assert (Hparent : lastAbsSymbolChildren stm = Some (length (heap sta))).
  { unfold stm. rewrite scan_cons_app, scan_from_parent_keep by done.
    rewrite step_parent. by rewrite Hset. }
  pose proof (scan_parent_valid config pats _ _ Hparent) as Hvalid. fold stm in Hvalid.
  replace (pre ++ la :: mid ++ lr :: post) with ((pre ++ la :: mid) ++ lr :: post)
    by (by rewrite <- app_assoc).
  pose proof (scan_evolves_after_label config pats (pre ++ la :: mid) lr post) as Hrest.
  cbv zeta in Hrest. fold stm in Hrest.
  pose proof (label_step_new_symbol config pats (length (pre ++ la :: mid)) lr stm
                label Hlabel)
    as (Hlen & o & Ho & Hname & Hrange & _).
  split; [|split].
  - eapply evolves_child_of; [exact Hrest|].
    by apply (label_step_relative_attached config pats
                (length (pre ++ la :: mid)) lr stm label).
  - pose proof (label_step_new_symbol config pats (length pre) la sta l Hl)
      as (_ & oa & Hoa & Hna & Hra & _).
    pose proof (scan_evolves_after_label config pats pre la (mid ++ lr :: post)) as Ha.
    cbv zeta in Ha. fold sta in Ha, Hoa.
    replace ((pre ++ la :: mid) ++ lr :: post) with (pre ++ la :: mid ++ lr :: post)
      by (by rewrite <- app_assoc).
    destruct (evolves_lookup _ _ _ _ oa Ha Hoa) as (o' & Ho' & Hn' & Hr' & _).
    exists o'. split; [done|]. split; congruence.
  - destruct (evolves_lookup _ _ _ _ o Hrest Ho) as (o' & Ho' & Hn' & Hr' & _).
    exists o'. split; [done|]. split; [congruence|].
    rewrite Hr', Hrange, length_app. simpl. lia.
Qed.

Lemma relative_label_attached_to_parent_witness :
  let config := mkConfig true false [] true 0 true true "/ws" "" in
  let final := scan config with_macro
                 ([".proc p"] ++ "foo:" :: [".scope s"; "@tmp:"; " nop"]
                  ++ ".rel:" :: [".endscope"; ".endproc"]) in
  let a := length (heap (scan config with_macro [".proc p"])) in
  let r := length (heap (scan config with_macro
                           ([".proc p"] ++ "foo:" :: [".scope s"; "@tmp:"; " nop"]))) in
  child_of final a r /\
  (exists o, heap final !! a = Some o /\
             line_label config with_macro "foo:" = Some (name o) /\ range o = 1) /\
  (exists o, heap final !! r = Some o /\ name o = ".rel" /\ range o = 1 + 4) /\
  (exists nm d k l sub,
     build 0 (heap final) !! a = Some (Node a nm d k l sub) /\ r ∈ map root sub).
Proof.
  apply (relative_label_attached_to_parent
           (mkConfig true false [] true 0 true true "/ws" "") with_macro
           [".proc p"] "foo:" [".scope s"; "@tmp:"; " nop"] ".rel:"
           [".endscope"; ".endproc"] ".rel").
  - vm_compute. reflexivity.
  - repeat constructor.
  - vm_compute. reflexivity.
  - vm_compute. reflexivity.
Defined.

(** ** Excluded labels *)

(** C10. The exclusion list of the outline scan is the configured list
    with the entry include in front, whatever the configuration, and no
    label symbol of the returned outline is named include. *)
Theorem include_is_always_excluded config pats lines :
  excludes config = "include" :: labelsExcludes config /\
  (forall trees,
     provideDocumentSymbols (Some config) pats lines = Some trees ->
     forall r k, is_label_kind k = true -> (r, "include", k) ∉ all_nodes trees).
Proof.
  split; [reflexivity|].
  intros trees Hres r k Hk Hin. unfold provideDocumentSymbols in Hres.
  destruct (enableOutlineView config); [|done]. injection Hres as <-.
  apply (outline_excluded config pats lines r "include" k Hin Hk).
  unfold excludes. by left.
Qed.

Lemma include_is_always_excluded_witness :
  let config := sampleConfig [] in
  let lines := ["include: nop"; "start: nop"] in
  labelsExcludes config = [] /\
  provideDocumentSymbols (Some config) with_macro lines
  = Some [Node 0 "start" "" SymbolKind.Function 1 []] /\
  (0, "include", SymbolKind.Function)
    ∉ all_nodes [Node 0 "start" "" SymbolKind.Function 1 []].
Proof.
  cbv zeta. split; [reflexivity|].
  assert (Hres : provideDocumentSymbols (Some (sampleConfig [])) with_macro
                   ["include: nop"; "start: nop"]
                 = Some [Node 0 "start" "" SymbolKind.Function 1 []])
    by (vm_compute; reflexivity).
  split; [exact Hres|].
  destruct (include_is_always_excluded (sampleConfig []) with_macro
              ["include: nop"; "start: nop"]) as [_ H].
  exact (H _ Hres 0 SymbolKind.Function eq_refl).
Defined.

(** C8. A label whose text is in the configured exclusion list is
    discarded: the outline holds no label symbol of that name, and every
    symbol the workspace query returns was found in a folder whose
    configuration does not exclude its name. *)
Theorem excluded_labels_are_discarded
    config pats lines
    (grepMultiple : list Regex.RegExp -> string -> string -> string -> list GrepLocation)
    (regexCA65DirectiveForWord : Regex.regex -> bool -> Regex.RegExp)
    (configs : string -> option Config)
    (wsFolders : option (list string)) (query : string) (token : nat -> bool) :
  (forall trees,
     provideDocumentSymbols (Some config) pats lines = Some trees ->
     forall r nm k,
       (r, nm, k) ∈ all_nodes trees -> is_label_kind k = true ->
       nm ∉ labelsExcludes config) /\
  (forall result,
     provideWorkspaceSymbols grepMultiple regexCA65DirectiveForWord configs
       wsFolders query token = Some result ->
     forall sym, sym ∈ result ->
       exists folders ws cfg,
         wsFolders = Some folders /\ ws ∈ folders /\ configs ws = Some cfg /\
         sym ∈ getWsSymbols grepMultiple regexCA65DirectiveForWord cfg query /\
         si_name sym ∉ labelsExcludes cfg).
Proof.
  split.
  - intros trees Hres r nm k Hin Hk Hex. unfold provideDocumentSymbols in Hres.
    destruct (enableOutlineView config); [|done]. injection Hres as <-.
    apply (outline_excluded config pats lines r nm k Hin Hk).
    unfold excludes. by right.
  - intros result Hres sym Hsym. unfold provideWorkspaceSymbols in Hres.
    destruct wsFolders as [folders|].
    + apply folders_loop_Some in Hres as [_ ->]. simpl in Hsym.
      apply elem_of_concat_map in Hsym as (ws & Hws & Hsym).
      unfold folder_symbols, searched in Hsym.
      destruct (configs ws) as [cfg|] eqn:Hcfg; [|by apply elem_of_nil in Hsym].
      destruct (negb (enableWorkspaceSymbols cfg)); [by apply elem_of_nil in Hsym|].
      destruct (String.length query <? workspaceSymbolsRequiredLength cfg);
        [by apply elem_of_nil in Hsym|].
      exists folders, ws, cfg. repeat (split; [done|]).
      by eapply getWsSymbols_not_excluded.
    + injection Hres as <-. by apply elem_of_nil in Hsym.
Qed.

Lemma excluded_labels_are_discarded_witness :
  let config := sampleConfig ["skip"] in
  let lines := ["skip: nop"; "keep: nop"] in
  let keep := mkSymbolInformation "keep" "/ws/a.asm" 7 in
  provideDocumentSymbols (Some config) with_macro lines
  = Some [Node 0 "keep" "" SymbolKind.Function 1 []] /\
  ("keep" ∉ labelsExcludes config) /\
  provideWorkspaceSymbols sample_grep sample_ca65_for_word sample_configs
    (Some ["/ws"]) "k" (fun _ => false) = Some [keep] /\
  exists folders ws cfg,
    Some ["/ws"] = Some folders /\ ws ∈ folders /\ sample_configs ws = Some cfg /\
    keep ∈ getWsSymbols sample_grep sample_ca65_for_word cfg "k" /\
    si_name keep ∉ labelsExcludes cfg.
Proof.
  cbv zeta.
  destruct (excluded_labels_are_discarded (sampleConfig ["skip"]) with_macro
              ["skip: nop"; "keep: nop"] sample_grep sample_ca65_for_word
              sample_configs (Some ["/ws"]) "k" (fun _ => false)) as [Hdoc Hws].
  assert (Hres : provideDocumentSymbols (Some (sampleConfig ["skip"])) with_macro
                   ["skip: nop"; "keep: nop"]
                 = Some [Node 0 "keep" "" SymbolKind.Function 1 []])
    by (vm_compute; reflexivity).
  assert (Hq : provideWorkspaceSymbols sample_grep sample_ca65_for_word sample_configs
                 (Some ["/ws"]) "k" (fun _ => false)
               = Some [mkSymbolInformation "keep" "/ws/a.asm" 7])
    by (vm_compute; reflexivity).
  split; [exact Hres|]. split.
  - apply (Hdoc _ Hres 0 "keep" SymbolKind.Function); [|reflexivity].
    simpl. by left.
  - split; [exact Hq|]. apply (Hws _ Hq). by left.
Defined.

(** ** Cancellation of the workspace query *)

(** C4, the statement as given fails: a cancellation seen at the check
    before the second folder discards the symbols gathered in the first. *)
Lemma cancellation_discards_gathered_symbols :
  let query := provideWorkspaceSymbols sample_grep sample_ca65_for_word sample_configs in
  query (Some ["/a"]) "k" (fun _ => false)
  = Some [mkSymbolInformation "keep" "/a/a.asm" 7] /\
  query (Some ["/a"; "/b"]) "k" (fun n => n =? 1) = None.
Proof. split; vm_compute; reflexivity. Qed.

(** C4 (as amended). When a cancellation is seen at the check before a
    workspace folder, the query resolves to undefined: the folders not yet
    processed are not searched, and the symbols gathered for the folders
    already processed are not returned. *)
Theorem cancellation_resolves_undefined
    (grepMultiple : list Regex.RegExp -> string -> string -> string -> list GrepLocation)
    (regexCA65DirectiveForWord : Regex.regex -> bool -> Regex.RegExp)
    (configs : string -> option Config)
    (wsFolders : list string) (query : string) (token : nat -> bool) (i : nat) :
  i < length wsFolders -> token i = true ->
  provideWorkspaceSymbols grepMultiple regexCA65DirectiveForWord configs
    (Some wsFolders) query token = None.
Proof.
  intros Hi Htok. unfold provideWorkspaceSymbols.
  by apply (folders_loop_cancelled _ _ _ token query 0 wsFolders [] i).
Qed.

Lemma cancellation_resolves_undefined_witness :
  1 < length ["/a"; "/b"; "/c"] /\
  provideWorkspaceSymbols sample_grep sample_ca65_for_word sample_configs
    (Some ["/a"; "/b"; "/c"]) "k" (fun n => 1 <=? n) = None.
Proof.
  split; [simpl; lia|].
  apply (cancellation_resolves_undefined sample_grep sample_ca65_for_word
           sample_configs ["/a"; "/b"; "/c"] "k" (fun n => 1 <=? n) 1).
  - simpl. lia.
  - reflexivity.
Defined.

(** ** The search patterns *)

Import Regex Matching RegexFacts CompletionRegexes CommonRegexes_fuzzy.
Import Declaring DeclaringFacts.

(** C6, the statement as given fails: in the source dialect a MODULE
    keyword that starts at column 0 is not matched, although it is the
    first token of its line; with a blank in front it is. *)
Lemma module_at_column_0_not_matched :
  let pattern :=
    regexEveryModuleForWord (regexPrepareFuzzy "fo") LanguageId.ASM_COLLECTION in
  exec pattern "MODULE foo" = None /\
  (group 1 <$> exec pattern " MODULE foo") = Some (Some " MODULE ").
Proof. split; vm_compute; reflexivity. Qed.

(** C6 (as amended). A match of the MODULE-for-word pattern starts at
    position 0 and consists of: in the list-file dialect any text, in the
    source dialect nothing; then white space, at least one character; the
    keyword MODULE in either case; white space again; and the word. So in
    the source dialect the keyword is the first token of its line and has
    white space in front of it. Group 1 is all that stands before the
    word. A line of that form whose word is an identifier matches for
    every query that is a subsequence of the identifier. *)
Theorem module_pattern_for_word (fuzzySearchWord : regex) (languageId : string) :
  (forall line m,
     groupless fuzzySearchWord = true ->
     exec (regexEveryModuleForWord fuzzySearchWord languageId) line = Some m ->
     index m = 0 /\
     exists p ws kw ws' w tail,
       JsString.chars line = p ++ ws ++ kw ++ ws' ++ w ++ tail /\
       (languageId <> LanguageId.ASM_LIST_FILE -> p = []) /\
       Forall (fun c => JsChar.is_line_terminator c = false) p /\
       ws <> [] /\ Forall (fun c => JsChar.is_space c = true) ws /\
       same_word true (JsString.chars "MODULE") kw /\
       ws' <> [] /\ Forall (fun c => JsChar.is_space c = true) ws' /\
       group 1 m = Some (JsString.of_chars (p ++ ws ++ kw ++ ws')) /\
       whole m = JsString.of_chars ((p ++ ws ++ kw ++ ws') ++ w)) /\
  (forall q word p ws kw ws' tail,
     fuzzySearchWord = regexPrepareFuzzy_l q ->
     q `sublist_of` word -> identifier word ->
     (p = [] \/ languageId = LanguageId.ASM_LIST_FILE) ->
     Forall (fun c => JsChar.is_line_terminator c = false) p ->
     ws <> [] -> Forall (fun c => JsChar.is_space c = true) ws ->
     same_word true (JsString.chars "MODULE") kw ->
     ws' <> [] -> Forall (fun c => JsChar.is_space c = true) ws' ->
     exists m,
       exec (regexEveryModuleForWord fuzzySearchWord languageId)
            (JsString.of_chars (p ++ ws ++ kw ++ ws' ++ word ++ tail)) = Some m /\
       index m = 0).
Proof.
  split.
  - intros line m Hfz Hex. by eapply keyword_pattern_sound.
  - intros q word p ws kw ws' tail -> Hsub Hword Hp Hpl Hws1 Hws2 Hkw Hws1' Hws2'.
    apply keyword_line_matches; try done.
    + by apply fmap_sublist.
    + apply word_in_word_or_dot.
Qed.

Lemma module_pattern_for_word_witness :
  let pattern :=
    regexEveryModuleForWord (regexPrepareFuzzy "fo") LanguageId.ASM_LIST_FILE in
  let m := mkExec 0 "0012 MODULE foo" [(1, JsString.chars "0012 MODULE "); (2, JsString.chars "MODULE")] in
  exec pattern "0012 MODULE foo.bar" = Some (mkExec 0 "0012 MODULE foo.bar" (captures m)) /\
  (exists p ws kw ws' w tail,
     JsString.chars "0012 MODULE foo.bar" = p ++ ws ++ kw ++ ws' ++ w ++ tail /\
     (LanguageId.ASM_LIST_FILE <> LanguageId.ASM_LIST_FILE -> p = []) /\
     Forall (fun c => JsChar.is_line_terminator c = false) p /\
     ws <> [] /\ Forall (fun c => JsChar.is_space c = true) ws /\
     same_word true (JsString.chars "MODULE") kw /\
     ws' <> [] /\ Forall (fun c => JsChar.is_space c = true) ws' /\
     group 1 (mkExec 0 "0012 MODULE foo.bar" (captures m))
     = Some (JsString.of_chars (p ++ ws ++ kw ++ ws')) /\
     whole (mkExec 0 "0012 MODULE foo.bar" (captures m))
     = JsString.of_chars ((p ++ ws ++ kw ++ ws') ++ w)) /\
  (exists m',
     exec pattern
       (JsString.of_chars (JsString.chars "0012" ++ JsString.chars " " ++
                           JsString.chars "module" ++ JsString.chars "  " ++
                           JsString.chars "foo" ++ JsString.chars " ; x")) = Some m' /\
     index m' = 0).
Proof.
  cbv zeta.
  destruct (module_pattern_for_word (regexPrepareFuzzy "fo") LanguageId.ASM_LIST_FILE)
    as [Hsound Hmatch].
  assert (Hex : exec (regexEveryModuleForWord (regexPrepareFuzzy "fo")
                        LanguageId.ASM_LIST_FILE) "0012 MODULE foo.bar"
                = Some (mkExec 0 "0012 MODULE foo.bar"
                          [(1, JsString.chars "0012 MODULE "); (2, JsString.chars "MODULE")]))
    by (vm_compute; reflexivity).
  split; [exact Hex|]. split.
  - exact (proj2 (Hsound _ _ eq_refl Hex)).
  - apply (Hmatch (JsString.chars "fo") (JsString.chars "foo") (JsString.chars "0012")
             (JsString.chars " ") (JsString.chars "module") (JsString.chars "  ")
             (JsString.chars " ; x")).
    + reflexivity.
    + unfold JsString.chars. simpl. do 2 apply sublist_skip. apply sublist_cons. constructor.
    + split; [discriminate|repeat constructor].
    + by right.
    + repeat constructor.
    + discriminate.
    + repeat constructor.
    + repeat constructor.
    + discriminate.
    + repeat constructor.
Defined.



(* ===================================================================== *)
(** * Part VII: further properties of the code                            *)
(* ===================================================================== *)

(** ** Matching without regard to case *)

Module CasingFacts.
Import Regex Matching RegexFacts Casing.

Ltac each_char c :=
  destruct c as [[] [] [] [] [] [] [] []]; vm_compute; reflexivity.

Lemma is_word_upper c : JsChar.is_word (JsChar.toUpperCase c) = JsChar.is_word c.
Proof. each_char c. Qed.

Lemma is_space_upper c : JsChar.is_space (JsChar.toUpperCase c) = JsChar.is_space c.
Proof. each_char c. Qed.

Lemma is_digit_upper c : JsChar.is_digit (JsChar.toUpperCase c) = JsChar.is_digit c.
Proof. each_char c. Qed.

Lemma is_line_terminator_upper c :
  JsChar.is_line_terminator (JsChar.toUpperCase c) = JsChar.is_line_terminator c.
Proof. each_char c. Qed.

Lemma upper_upper c :
  JsChar.toUpperCase (JsChar.toUpperCase c) = JsChar.toUpperCase c.
Proof. each_char c. Qed.

Lemma cset_mem_upper cs c :
  cset_mem true cs (JsChar.toUpperCase c) = cset_mem true cs c.
Proof.
  induction cs; simpl.
  - by rewrite upper_upper.
  - apply is_word_upper.
  - apply is_space_upper.
  - apply is_digit_upper.
  - by rewrite is_line_terminator_upper.
  - by rewrite IHcs1, IHcs2.
  - by rewrite IHcs.
Qed.

Lemma word_boundary_upper st :
  word_boundary (upper_state st) = word_boundary st.
Proof.
  unfold word_boundary, upper_state. simpl.
  destruct (before st) as [|b ?], (after st) as [|a ?]; simpl;
    by rewrite ?is_word_upper.
Qed.

Lemma consumed_upper st st' :
  consumed (upper_state st) (upper_state st') = upper_l (consumed st st').
Proof.
  unfold consumed, upper_state, upper_l. simpl.
  by rewrite !length_map, firstn_map, map_rev.
Qed.

Lemma set_cap_upper n st st' :
  set_cap n (upper_state st) (upper_state st') = upper_state (set_cap n st st').
Proof.
  unfold set_cap. simpl. unfold upper_state at 3. simpl.
  by rewrite consumed_upper.
Qed.

Lemma star_cls_upper g cs k k' aft : forall bef cps,
  lifts k k' ->
  star_cls g (cset_mem true cs) k' (upper_l bef) (upper_l aft) (upper_caps cps)
  = upper_state <$> star_cls g (cset_mem true cs) k bef aft cps.
Proof.
  induction aft as [|c aft IH]; intros bef cps Hk; simpl.
  - apply (Hk (mkMState bef [] cps)).
  - rewrite cset_mem_upper. destruct (cset_mem true cs c).
    + pose proof (IH (c :: bef) cps Hk) as IH'. simpl in IH'.
      pose proof (Hk (mkMState bef (c :: aft) cps)) as Hk'.
      unfold upper_state in Hk'. simpl in Hk'.
      destruct g.
      * rewrite IH'. destruct (star_cls _ _ k (c :: bef) aft cps); [done|].
        simpl. exact Hk'.
      * rewrite Hk'. destruct (k _); [done|]. simpl. exact IH'.
    + apply (Hk (mkMState bef (c :: aft) cps)).
Qed.

Lemma rmatch_upper r : forall k k' st,
  lifts k k' ->
  rmatch true r k' (upper_state st) = upper_state <$> rmatch true r k st.
Proof.
  induction r; intros k k' st Hk; simpl.
  - apply Hk.
  - destruct (before st); simpl; [apply Hk|done].
  - destruct (after st); simpl; [apply Hk|done].
  - rewrite word_boundary_upper. destruct (word_boundary st); [apply Hk|done].
  - destruct st as [bef [|c aft] cps]; simpl; [done|].
    rewrite cset_mem_upper. destruct (cset_mem true cs c); [|done].
    apply (Hk (mkMState (c :: bef) aft cps)).
  - apply IHr1. intros st'. by apply IHr2.
  - rewrite (IHr1 k k' st Hk). destruct (rmatch true r1 k st); [done|].
    simpl. by apply IHr2.
  - rewrite (IHr k k' st Hk). destruct (rmatch true r k st); [done|].
    simpl. apply Hk.
  - destruct st as [bef aft cps]. by apply star_cls_upper.
  - apply IHr. intros st'. rewrite set_cap_upper. apply Hk.
  - rewrite (IHr Some Some st) by done.
    destruct (rmatch true r Some st); [done|]. simpl. apply Hk.
Qed.

Lemma exec_from_upper r aft : forall bef,
  exec_from true r (upper_l bef) (upper_l aft)
  = upper_result <$> exec_from true r bef aft.
Proof.
  induction aft as [|c aft IH]; intros bef;
    rewrite (exec_from_unfold true r (upper_l bef)), (exec_from_unfold true r bef).
  - pose proof (rmatch_upper r Some Some (mkMState bef [] [])) as H.
    unfold upper_state in H at 1. simpl in H. simpl upper_l at 2.
    rewrite H by done.
    destruct (rmatch true r Some (mkMState bef [] [])) as [st'|]; [|done].
    simpl. unfold upper_result. simpl. f_equal. f_equal; [apply length_map|].
    change (mkMState (upper_l bef) [] []) with (upper_state (mkMState bef [] [])).
    rewrite consumed_upper. unfold toUpperCase. by rewrite chars_of_chars.
  - pose proof (rmatch_upper r Some Some (mkMState bef (c :: aft) [])) as H.
    unfold upper_state in H at 1. simpl in H.
    change (upper_l (c :: aft)) with (JsChar.toUpperCase c :: upper_l aft).
    rewrite H by done.
    destruct (rmatch true r Some (mkMState bef (c :: aft) [])) as [st'|].
    + simpl. unfold upper_result. simpl. f_equal. f_equal; [apply length_map|].
      change (mkMState (upper_l bef) (JsChar.toUpperCase c :: upper_l aft) [])
        with (upper_state (mkMState bef (c :: aft) [])).
      rewrite consumed_upper. unfold toUpperCase. by rewrite chars_of_chars.
    + simpl. apply (IH (c :: bef)).
Qed.

(** With the flag [i] a pattern matches the upper-case line where and as
    it matches the line. *)
Lemma exec_upper re s :
  ignoreCase re = true ->
  exec re (toUpperCase s) = upper_result <$> exec re s.
Proof.
  intros Hi. unfold exec. rewrite Hi. unfold toUpperCase.
  rewrite chars_of_chars. apply (exec_from_upper (source re) (JsString.chars s) []).
Qed.

Lemma same_word_upper w w' :
  same_word true w w' -> upper_l w = upper_l w'.
Proof.
  induction 1 as [|a c w w' Hac _ IH]; [done|].
  simpl. f_equal; [exact Hac|exact IH].
Qed.

Lemma exec_same_word re s s' :
  ignoreCase re = true ->
  same_word true (JsString.chars s) (JsString.chars s') ->
  index <$> exec re s = index <$> exec re s'.
Proof.
  intros Hi Hw.
  assert (Hup : toUpperCase s = toUpperCase s').
  { unfold toUpperCase. by rewrite (same_word_upper _ _ Hw). }
  pose proof (exec_upper re s Hi) as H1. pose proof (exec_upper re s' Hi) as H2.
  rewrite Hup in H1. rewrite H1 in H2.
  destruct (exec re s), (exec re s'); simpl in *; try done.
  by inversion H2.
Qed.

Lemma patterns_for_word_ignoreCase fz languageId re :
  re ∈ patterns_for_word fz languageId -> ignoreCase re = true.
Proof.
  unfold patterns_for_word. rewrite !elem_of_cons.
  intros [-> | [-> | [-> | [-> | []%elem_of_nil]]]]; [done|..];
    unfold CompletionRegexes.regexEveryLabelColonForWord,
      CompletionRegexes.regexEveryModuleForWord,
      CompletionRegexes.regexEveryMacroForWord, CompletionRegexes.keyword_pattern;
    by destruct (bool_decide _).
Qed.

End CasingFacts.

(** ** More on the search patterns (src/regexes/completionregexes.ts) *)

Import Regex Matching RegexFacts CompletionRegexes CommonRegexes_fuzzy.
Import Casing CasingFacts DelimiterFacts.

(** X1. A match of the label-with-colon pattern, in either dialect and
    for any fuzzy word, starts at position 0 and ends with a colon that is
    followed by one more character that is no colon, or by the end of the
    line. *)
Theorem label_with_colon_match (fuzzySearchWord : regex) (languageId line : string)
    (m : RegExpExecArray) :
  exec (regexEveryLabelColonForWord fuzzySearchWord languageId) line = Some m ->
  index m = 0 /\
  exists name after_colon rest,
    whole m = JsString.of_chars (name ++ ":"%char :: after_colon) /\
    JsString.chars line = name ++ ":"%char :: after_colon ++ rest /\
    ((exists c, after_colon = [c] /\ c <> ":"%char) \/
     (after_colon = [] /\ rest = [])).
Proof.
  unfold exec.
  assert (Hi : ignoreCase (regexEveryLabelColonForWord fuzzySearchWord languageId) = true)
    by (unfold regexEveryLabelColonForWord; by destruct (bool_decide _)).
  rewrite Hi.
  intros (skipped & rest0 & st' & Hline & Hp & ->)%exec_from_sound.
  apply colon_pattern_path in Hp as (Hb & st1 & st2 & Hseg1 & Hfz & Htail).
  rewrite app_nil_r in Hb. apply (f_equal (@rev ascii)) in Hb.
  rewrite rev_involutive in Hb. simpl in Hb. subst skipped. simpl in *. subst rest0.
  split; [done|].
  apply path_segment in Hfz as (t2 & Hseg2).
  apply colon_tail_inv in Htail as (name_end & after_colon & Hseg3 & Hend).
  pose proof (segment_app _ _ _ _ _ Hseg1 (segment_app _ _ _ _ _ Hseg2 Hseg3)) as Hseg.
  rewrite !app_assoc in Hseg. rewrite <- (app_assoc _ t2) in Hseg.
  apply segment_whole in Hseg as [Hc Hl].
  eexists _, after_colon, (after st'). split; [by rewrite Hc|].
  split; [by rewrite Hl, <- app_assoc|].
  destruct Hend as [?|[? ?]]; [by left|by right].
Qed.

Lemma label_with_colon_match_witness :
  let pattern :=
    regexEveryLabelColonForWord (regexPrepareFuzzy "ml") LanguageId.ASM_COLLECTION in
  exec pattern "main_loop: nop"
  = Some (mkExec 0 "main_loop: " [(1, [])]) /\
  exec pattern "main_loop::nop" = None /\
  (exists name after_colon rest,
     whole (mkExec 0 "main_loop: " [(1, [])])
     = JsString.of_chars (name ++ ":"%char :: after_colon) /\
     JsString.chars "main_loop: nop" = name ++ ":"%char :: after_colon ++ rest /\
     ((exists c, after_colon = [c] /\ c <> ":"%char) \/
      (after_colon = [] /\ rest = []))).
Proof.
  cbv zeta.
  assert (Hex : exec (regexEveryLabelColonForWord (regexPrepareFuzzy "ml")
                        LanguageId.ASM_COLLECTION) "main_loop: nop"
                = Some (mkExec 0 "main_loop: " [(1, [])]))
    by (vm_compute; reflexivity).
  split; [exact Hex|]. split; [vm_compute; reflexivity|].
  exact (proj2 (label_with_colon_match _ _ _ _ Hex)).
Defined.

(** X2. A match of the label-without-colon pattern starts at position 0,
    and what follows it on the line is nothing, or starts with a character
    that is no colon, no dot and no word character. *)
Theorem label_without_colon_match (fuzzySearchWord : regex) (line : string)
    (m : RegExpExecArray) :
  exec (regexEveryLabelWithoutColonForWord fuzzySearchWord) line = Some m ->
  index m = 0 /\
  exists rest,
    JsString.chars line = JsString.chars (whole m) ++ rest /\
    match rest with
    | [] => True
    | c :: _ => c <> ":"%char /\ c <> "."%char /\ JsChar.is_word c = false
    end.
Proof.
  unfold regexEveryLabelWithoutColonForWord.
  intros (st' & Hp & ->)%exec_anchored. split; [done|].
  pose proof (path_segment _ _ _ _ Hp) as (t & Hseg).
  apply segment_whole in Hseg as [Hc Hl].
  exists (after st'). simpl. rewrite Hc, chars_of_chars. split; [done|].
  apply path_seq_inv in Hp as (st1 & _ & Hp).
  apply path_seq_inv in Hp as (st2 & _ & Hp).
  apply path_seq_inv in Hp as (st3 & _ & Hp).
  apply path_seq_inv in Hp as (st4 & _ & Hp).
  apply path_seq_inv in Hp as (st5 & _ & Hp).
  apply path_neglook_inv in Hp as [-> Hn].
  destruct st5 as [bef5 [|c aft] cps5]; [done|].
  cbn [rmatch after] in Hn.
  destruct (cset_mem true (CUnion (CChar ":"%char) word_or_dot) c) eqn:E; [done|].
  cbn [cset_mem word_or_dot] in E.
  apply orb_false_iff in E as [E1 [E2 E3]%orb_false_iff].
  apply bool_decide_eq_false in E1. apply bool_decide_eq_false in E3.
  simpl. split; [|split; [|done]]; by intros ->.
Qed.

Lemma label_without_colon_match_witness :
  let pattern := regexEveryLabelWithoutColonForWord (regexPrepareFuzzy "ml") in
  exec pattern "main_loop equ 5" = Some (mkExec 0 "main_loop" [(1, [])]) /\
  exec pattern "main_loop: nop" = None /\
  (exists rest,
     JsString.chars "main_loop equ 5"
     = JsString.chars (whole (mkExec 0 "main_loop" [(1, [])])) ++ rest /\
     match rest with
     | [] => True
     | c :: _ => c <> ":"%char /\ c <> "."%char /\ JsChar.is_word c = false
     end).
Proof.
  cbv zeta.
  assert (Hex : exec (regexEveryLabelWithoutColonForWord (regexPrepareFuzzy "ml"))
                     "main_loop equ 5"
                = Some (mkExec 0 "main_loop" [(1, [])]))
    by (vm_compute; reflexivity).
  split; [exact Hex|]. split; [vm_compute; reflexivity|].
  exact (proj2 (label_without_colon_match _ _ _ Hex)).
Defined.

(** X3. A match of the MACRO-for-word pattern starts at position 0 and
    consists of: in the list-file dialect any text, in the source dialect
    nothing; white space; the keyword MACRO in either case; white space;
    and the word. Group 1 is all that stands before the word. *)
Theorem macro_pattern_for_word (fuzzySearchWord : regex) (languageId line : string)
    (m : RegExpExecArray) :
  groupless fuzzySearchWord = true ->
  exec (regexEveryMacroForWord fuzzySearchWord languageId) line = Some m ->
  index m = 0 /\
  exists p ws kw ws' w tail,
    JsString.chars line = p ++ ws ++ kw ++ ws' ++ w ++ tail /\
    (languageId <> LanguageId.ASM_LIST_FILE -> p = []) /\
    Forall (fun c => JsChar.is_line_terminator c = false) p /\
    ws <> [] /\ Forall (fun c => JsChar.is_space c = true) ws /\
    same_word true (JsString.chars "MACRO") kw /\
    ws' <> [] /\ Forall (fun c => JsChar.is_space c = true) ws' /\
    group 1 m = Some (JsString.of_chars (p ++ ws ++ kw ++ ws')) /\
    whole m = JsString.of_chars ((p ++ ws ++ kw ++ ws') ++ w).
Proof. intros Hfz Hex. by eapply keyword_pattern_sound. Qed.

Lemma macro_pattern_for_word_witness :
  let pattern :=
    regexEveryMacroForWord (regexPrepareFuzzy "wt") LanguageId.ASM_COLLECTION in
  let m := mkExec 0 "  macro wait_us"
             [(1, JsString.chars "  macro "); (2, JsString.chars "macro")] in
  groupless (regexPrepareFuzzy "wt") = true /\
  exec pattern "  macro wait_us 10" = Some m /\
  exec pattern "macro wait_us 10" = None /\
  (exists p ws kw ws' w tail,
     JsString.chars "  macro wait_us 10" = p ++ ws ++ kw ++ ws' ++ w ++ tail /\
     (LanguageId.ASM_COLLECTION <> LanguageId.ASM_LIST_FILE -> p = []) /\
     Forall (fun c => JsChar.is_line_terminator c = false) p /\
     ws <> [] /\ Forall (fun c => JsChar.is_space c = true) ws /\
     same_word true (JsString.chars "MACRO") kw /\
     ws' <> [] /\ Forall (fun c => JsChar.is_space c = true) ws' /\
     group 1 m = Some (JsString.of_chars (p ++ ws ++ kw ++ ws')) /\
     whole m = JsString.of_chars ((p ++ ws ++ kw ++ ws') ++ w)).
Proof.
  cbv zeta.
  assert (Hex : exec (regexEveryMacroForWord (regexPrepareFuzzy "wt")
                        LanguageId.ASM_COLLECTION) "  macro wait_us 10"
                = Some (mkExec 0 "  macro wait_us"
                          [(1, JsString.chars "  macro "); (2, JsString.chars "macro")]))
    by (vm_compute; reflexivity).
  split; [reflexivity|]. split; [exact Hex|]. split; [vm_compute; reflexivity|].
  exact (proj2 (macro_pattern_for_word (regexPrepareFuzzy "wt") LanguageId.ASM_COLLECTION
                  "  macro wait_us 10" _ eq_refl Hex)).
Defined.

(** X4. The search patterns do not look at case: two lines that differ
    only in the case of their letters are matched alike by each of the
    four patterns for a word, whatever the fuzzy word and the dialect. *)
Theorem search_patterns_ignore_case (fuzzySearchWord : regex)
    (languageId line line' : string) :
  same_word true (JsString.chars line) (JsString.chars line') ->
  Forall (fun re => index <$> exec re line = index <$> exec re line')
         (patterns_for_word fuzzySearchWord languageId).
Proof.
  intros Hw. apply Forall_forall. intros re Hre.
  apply exec_same_word; [|done].
  by eapply patterns_for_word_ignoreCase.
Qed.

Lemma search_patterns_ignore_case_witness :
  same_word true (JsString.chars "Main_Loop: nop") (JsString.chars "MAIN_loop: NOP") /\
  Forall (fun re => index <$> exec re "Main_Loop: nop"
                    = index <$> exec re "MAIN_loop: NOP")
         (patterns_for_word (regexPrepareFuzzy "ml") LanguageId.ASM_COLLECTION).
Proof.
  assert (Hw : same_word true (JsString.chars "Main_Loop: nop")
                              (JsString.chars "MAIN_loop: NOP"))
    by (repeat constructor).
  split; [exact Hw|].
  exact (search_patterns_ignore_case _ _ _ _ Hw).
Defined.

(** ** The hits of a folder, as symbols *)

Module FolderHitsFacts.
Import WorkspaceSymbolProvider Folders WorkspaceFacts FolderHits.

Lemma foldl_kept config locations : forall acc,
  foldl (fun symbols loc =>
           if JsString.includes (labelsExcludes config) (loc_symbol loc)
           then symbols
           else symbols ++ [mkSymbolInformation (loc_symbol loc) (loc_uri loc)
                                                 (loc_range loc)])
        acc locations
  = acc ++ kept config locations.
Proof.
  unfold kept. induction locations as [|loc locations IH]; intros acc; simpl.
  - by rewrite app_nil_r.
  - rewrite IH, filter_cons. unfold JsString.includes.
    destruct (decide (loc_symbol loc ∈ labelsExcludes config)) as [Hin|Hn].
    + rewrite bool_decide_eq_true_2 by done. by rewrite decide_False by (by intros H).
    + rewrite bool_decide_eq_false_2 by done. rewrite decide_True by done.
      simpl. by rewrite <- app_assoc.
Qed.

Lemma getWsSymbols_kept grepMultiple regexCA65DirectiveForWord config query :
  getWsSymbols grepMultiple regexCA65DirectiveForWord config query
  = kept config
      (grepMultiple (search_regexes regexCA65DirectiveForWord config query)
         (wsFolderPath config) LanguageId.ASM_COLLECTION (excludeFiles config)).
Proof. unfold getWsSymbols. cbv zeta. by rewrite foldl_kept. Qed.

End FolderHitsFacts.

(** ** More on the workspace symbols (src/WorkspaceSymbolProvider.ts) *)

Import WorkspaceSymbolProvider Folders WorkspaceFacts FolderHits FolderHitsFacts.
Import SamplePatterns.

(** X5. When no cancellation is seen at the checks, one before each
    folder, the query resolves to the hits of the folders in the order
    of the folders, and within a folder in the order of the search and
    without the excluded names. A folder that has no configuration, or
    has workspace symbols switched off, or asks for a longer query, is
    not searched and adds nothing. *)
Theorem workspace_symbols_in_folder_order
    (grepMultiple : list Regex.RegExp -> string -> string -> string -> list GrepLocation)
    (regexCA65DirectiveForWord : Regex.regex -> bool -> Regex.RegExp)
    (configs : string -> option Config)
    (wsFolders : list string) (query : string) (token : nat -> bool) :
  (forall i, i < length wsFolders -> token i = false) ->
  provideWorkspaceSymbols grepMultiple regexCA65DirectiveForWord configs
    (Some wsFolders) query token
  = Some (concat (map (fun ws =>
                         match searched configs query ws with
                         | Some config =>
                             kept config
                               (grepMultiple
                                  (search_regexes regexCA65DirectiveForWord config query)
                                  (wsFolderPath config) LanguageId.ASM_COLLECTION
                                  (excludeFiles config))
                         | None => []
                         end) wsFolders)).
Proof.
  intros Htok. unfold provideWorkspaceSymbols.
  rewrite folders_loop_complete by done. simpl. do 2 f_equal.
  apply map_ext. intros ws. unfold folder_symbols.
  destruct (searched configs query ws); [apply getWsSymbols_kept|done].
Qed.

Lemma workspace_symbols_in_folder_order_witness :
  let configs := fun ws => if String.eqb ws "/off" then None else sample_configs ws in
  (forall i, i < length ["/a"; "/off"; "/b"] -> (fun _ : nat => false) i = false) /\
  provideWorkspaceSymbols sample_grep sample_ca65_for_word configs
    (Some ["/a"; "/off"; "/b"]) "ke" (fun _ => false)
  = Some [mkSymbolInformation "keep" "/a/a.asm" 7;
          mkSymbolInformation "keep" "/b/a.asm" 7] /\
  provideWorkspaceSymbols sample_grep sample_ca65_for_word configs
    (Some ["/a"; "/off"; "/b"]) "ke" (fun _ => false)
  = Some (concat (map (fun ws =>
                         match searched configs "ke" ws with
                         | Some config =>
                             kept config
                               (sample_grep
                                  (search_regexes sample_ca65_for_word config "ke")
                                  (wsFolderPath config) LanguageId.ASM_COLLECTION
                                  (excludeFiles config))
                         | None => []
                         end) ["/a"; "/off"; "/b"])).
Proof.
  cbv zeta.
  assert (H : forall i, i < length ["/a"; "/off"; "/b"] ->
                        (fun _ : nat => false) i = false) by done.
  split; [exact H|]. split; [vm_compute; reflexivity|].
  exact (workspace_symbols_in_folder_order sample_grep sample_ca65_for_word
           (fun ws => if String.eqb ws "/off" then None else sample_configs ws)
           ["/a"; "/off"; "/b"] "ke" (fun _ => false) H).
Defined.

(** ** How the store grows *)

Module GrowthFacts.
Import JsString DocumentSymbolProvider Outline ScanFacts Growth.

(** *** The references after a push *)

Lemma children_alter_same (f : DocumentSymbol -> DocumentSymbol) i h :
  (forall o, children (f o) = children o) ->
  map children (alter f i h) = map children h.
Proof.
  intros Hf. revert i. induction h as [|o h IH]; intros [|i]; simpl; try done.
  - by rewrite Hf.
  - f_equal. apply IH.
Qed.

Lemma children_push c p h :
  concat (map children
            (alter (fun o => mkDocumentSymbol (name o) (detail o) (kind o) (range o)
                               (children o ++ [c])) p h))
  ≡ₚ (if decide (p < length h) then [c] else []) ++ concat (map children h).
Proof.
  revert p. induction h as [|o h IH]; intros [|p]; simpl; try done.
  - rewrite <- (app_assoc (children o) [c]). simpl. symmetry. apply Permutation_middle.
  - etrans; [apply Permutation_app_head, IH|].
    destruct (decide (p < length h)), (decide (S p < S (length h)));
      try lia; simpl; [|done].
    symmetry. apply Permutation_middle.
Qed.

Lemma refs_of_push_child p c st :
  refs_of (push_child p c st)
  ≡ₚ (if decide (p < length (heap st)) then [c] else []) ++ refs_of st.
Proof.
  unfold refs_of, push_child. simpl. rewrite children_push.
  destruct (decide _); simpl; [|done].
  by rewrite <- Permutation_middle.
Qed.

Lemma refs_of_push_root c st :
  refs_of (push_root c st) ≡ₚ c :: refs_of st.
Proof.
  unfold refs_of, push_root. simpl. rewrite <- app_assoc. simpl.
  by rewrite <- Permutation_middle.
Qed.

Lemma refs_of_new nm k line st :
  refs_of (new_symbol nm k line st).2 = refs_of st.
Proof.
  unfold refs_of, new_symbol. simpl. rewrite map_app, concat_app. simpl.
  by rewrite !app_nil_r.
Qed.

Lemma refs_of_set_kind_detail k d e st :
  refs_of (set_kind_detail k d e st) = refs_of st.
Proof.
  unfold refs_of, set_kind_detail. simpl. by rewrite children_alter_same.
Qed.

Lemma StronglySorted_snoc_lt l c :
  StronglySorted lt l -> (forall x, x ∈ l -> x < c) -> StronglySorted lt (l ++ [c]).
Proof.
  induction 1 as [|a l Hl IH Ha]; intros Hc; simpl.
  - repeat constructor.
  - constructor.
    + apply IH. intros x Hx. apply Hc. by right.
    + apply Forall_app. split; [done|]. constructor; [|constructor].
      apply Hc. by left.
Qed.

Lemma StronglySorted_snoc_le l c :
  StronglySorted le l -> (forall x, x ∈ l -> x <= c) -> StronglySorted le (l ++ [c]).
Proof.
  induction 1 as [|a l Hl IH Ha]; intros Hc; simpl.
  - repeat constructor.
  - constructor.
    + apply IH. intros x Hx. apply Hc. by right.
    + apply Forall_app. split; [done|]. constructor; [|constructor].
      apply Hc. by left.
Qed.

(** *** What growth keeps *)

Lemma grows_evolves line st st' : grows line st st' -> evolves 0 st st'.
Proof.
  induction 1.
  - by apply ev_same.
  - by eapply ev_trans.
  - apply ev_new.
  - apply ev_push_child; [lia|done].
  - apply ev_push_root; [lia|done].
  - apply ev_set_kind_detail.
Qed.

Lemma grows_tidy line st st' : grows line st st' -> tidy st -> tidy st'.
Proof.
  induction 1 as [st st' Hh Hs| |nm k st|p c st Hfresh Hc|c st Hfresh Hc|k d e st];
    intros (Hnd & Hroots & Hch & Hval).
  - unfold tidy, refs_valid, refs_of in *. rewrite Hh, Hs. by split_and!.
  - apply IHgrows2, IHgrows1. by split_and!.
  - unfold tidy, refs_valid. rewrite refs_of_new. simpl. rewrite length_app. simpl.
    split; [done|]. split; [done|]. split.
    + apply Forall_app. split; [done|]. repeat constructor.
    + intros x Hx. apply Hval in Hx. lia.
  - unfold tidy. split; [|split; [done|split]].
    + rewrite refs_of_push_child. destruct (decide _); simpl; [|done].
      constructor; [|done]. intros Hin. apply Hfresh in Hin. lia.
    + simpl. apply Forall_forall. intros o Ho.
      apply elem_of_alter in Ho as [Ho | (o' & Ho' & ->)].
      * rewrite Forall_forall in Hch. by apply Hch.
      * simpl. apply StronglySorted_snoc_lt.
        -- rewrite Forall_forall in Hch. eapply Hch. by eapply list_elem_of_lookup_2.
        -- intros x Hx. apply Hfresh. apply elem_of_refs_of. right.
           exists o'. split; [by eapply list_elem_of_lookup_2|done].
    + intros x Hx. rewrite refs_of_push_child in Hx. simpl. rewrite length_alter.
      destruct (decide _); simpl in Hx.
      * apply elem_of_cons in Hx as [-> | Hx]; [done|by apply Hval].
      * by apply Hval.
  - unfold tidy. split; [|split; [|split; [done|]]].
    + rewrite refs_of_push_root. constructor; [|done].
      intros Hin. apply Hfresh in Hin. lia.
    + simpl. apply StronglySorted_snoc_lt; [done|].
      intros x Hx. apply Hfresh. apply elem_of_refs_of. by left.
    + intros x Hx. rewrite refs_of_push_root in Hx. simpl.
      apply elem_of_cons in Hx as [-> | Hx]; [done|by apply Hval].
  - unfold tidy, refs_valid. rewrite refs_of_set_kind_detail. simpl.
    rewrite length_alter. split; [done|]. split; [done|]. split; [|done].
    apply Forall_forall. intros o Ho.
    apply elem_of_alter in Ho as [Ho | (o' & Ho' & ->)].
    + rewrite Forall_forall in Hch. by apply Hch.
    + simpl. rewrite Forall_forall in Hch. eapply Hch.
      by eapply list_elem_of_lookup_2.
Qed.

Lemma range_alter_same (f : DocumentSymbol -> DocumentSymbol) i h :
  (forall o, range (f o) = range o) ->
  map range (alter f i h) = map range h.
Proof.
  intros Hf. revert i. induction h as [|o h IH]; intros [|i]; simpl; try done.
  - by rewrite Hf.
  - f_equal. apply IH.
Qed.

Lemma lined_ranges line st :
  lined line st <->
  Forall (fun n => n <= line) (map range (heap st)) /\
  StronglySorted le (map range (heap st)).
Proof. unfold lined. by rewrite Forall_map. Qed.

Lemma grows_lined line st st' : grows line st st' -> lined line st -> lined line st'.
Proof.
  induction 1 as [st st' Hh Hs| |nm k st|p c st Hfresh Hc|c st Hfresh Hc|k d e st];
    rewrite ?lined_ranges in *.
  - by rewrite Hh.
  - auto.
  - intros [Hle Hs]. simpl. rewrite map_app. simpl. split.
    + apply Forall_app. split; [done|]. by repeat constructor.
    + apply StronglySorted_snoc_le; [done|]. intros x Hx.
      rewrite Forall_forall in Hle. by apply Hle.
  - simpl. by rewrite range_alter_same.
  - done.
  - simpl. by rewrite range_alter_same.
Qed.

Lemma lined_weaken line line' st :
  line <= line' -> lined line st -> lined line' st.
Proof.
  intros Hle [H1 H2]. split; [|done].
  eapply Forall_impl; [exact H1|]. simpl. intros o. lia.
Qed.

(** *** The loop body grows the store *)

(** A reference of the state in which a push is made is a reference of
    the state at the beginning of the phase. *)
Ltac grow_fresh Hval :=
  let y := fresh "y" in let Hy := fresh "Hy" in
  intros y Hy;
  first [ eapply Nat.lt_le_trans; [apply Hval|simpl; rewrite ?length_app; simpl; lia]
        | apply Hval ];
  revert Hy; unfold refs_of; simpl;
  rewrite ?map_app, ?concat_app; simpl; rewrite ?app_nil_r; exact id.

Ltac grow_step Hval :=
  lazymatch goal with
  | |- grows ?n ?st ?st => apply grows_same; reflexivity
  | |- grows ?n ?st (set_lastSymbol ?v ?x) =>
      apply (grows_trans n st x); [|apply grows_same; reflexivity]
  | |- grows ?n ?st (set_lastSymbols ?v ?x) =>
      apply (grows_trans n st x); [|apply grows_same; reflexivity]
  | |- grows ?n ?st (set_lastAbsSymbolChildren ?v ?x) =>
      apply (grows_trans n st x); [|apply grows_same; reflexivity]
  | |- grows ?n ?st (set_lastModules ?v ?x) =>
      apply (grows_trans n st x); [|apply grows_same; reflexivity]
  | |- grows ?n ?st (set_defaultSymbolKind ?v ?x) =>
      apply (grows_trans n st x); [|apply grows_same; reflexivity]
  | |- grows ?n ?st (push_child ?p ?c ?x) =>
      apply (grows_trans n st x);
      [|apply grows_push_child;
        [grow_fresh Hval|simpl; rewrite ?length_app; simpl; lia]]
  | |- grows ?n ?st (push_root ?c ?x) =>
      apply (grows_trans n st x);
      [|apply grows_push_root;
        [grow_fresh Hval|simpl; rewrite ?length_app; simpl; lia]]
  | |- grows ?n ?st (push_to_lastModule ?c ?x) =>
      apply (grows_trans n st x);
      [|unfold push_to_lastModule; destruct (last (lastModules x));
        [apply grows_push_child|apply grows_push_root];
        [grow_fresh Hval|simpl; rewrite ?length_app; simpl; lia
        |grow_fresh Hval|simpl; rewrite ?length_app; simpl; lia]]
  | |- grows ?n ?st (set_heap (heap ?x ++ [mkDocumentSymbol ?nm _ ?k ?n _]) ?x) =>
      apply (grows_trans n st x); [|apply (grows_new n nm k x)]
  end.

Ltac grow Hval := cbn [fst snd]; repeat grow_step Hval.

Lemma foldl_set_kind_detail_grows n k d l st :
  grows n st (foldl (fun st elem => set_kind_detail k d elem st) st l).
Proof.
  revert st. induction l as [|r l IH]; intros st; simpl.
  - by apply grows_same.
  - eapply grows_trans; [apply grows_set_kind_detail|apply IH].
Qed.

Section GrowthPhases.
Context (config : Config) (pats : Patterns).

Lemma label_step_grows line lc st :
  refs_valid st -> grows line st (label_step config pats line lc st).1.
Proof.
  intros Hval. unfold label_step, new_symbol.
  destruct (regexLabel pats lc) as [m|]; [|grow Hval].
  destruct (negb _); [|grow Hval]. cbv beta iota zeta. simpl fst.
  destruct (startsWith "." _).
  { destruct (lastAbsSymbolChildren _); grow Hval. }
  destruct (_ && _); grow Hval.
Qed.

Lemma ca65_step_grows line lc st :
  refs_valid st -> grows line st (ca65_step pats line lc st).
Proof.
  intros Hval. unfold ca65_step, new_symbol.
  destruct (regexCA65 pats lc) as [m|].
  - cbv beta iota zeta. destruct (negb _); grow Hval.
  - destruct (regexCA65BlockEnd pats lc); grow Hval.
Qed.

Lemma macro_step_grows line lc st :
  refs_valid st -> grows line st (macro_step pats line lc st).1.
Proof.
  intros Hval. unfold macro_step, new_symbol.
  destruct (regexMacro pats) as [re|]; [|grow Hval]. simpl fst.
  destruct (re lc); cbv beta iota zeta; grow Hval.
Qed.

Lemma module_step_grows line lc st :
  refs_valid st -> grows line st (module_step pats line lc st).1.
Proof.
  intros Hval. unfold module_step, new_symbol.
  destruct (match regexModule pats lc with Some m => Some m | None => regexStruct pats lc end)
    as [m|]; [|grow Hval].
  cbv beta iota zeta. simpl fst.
  destruct (truthy (m2 m)); destruct (bool_decide _ || bool_decide _); grow Hval.
Qed.

Lemma classify_step_grows n lc st :
  grows n st (classify_step pats lc st).
Proof.
  unfold classify_step. cbv zeta.
  assert (He : grows n st
            (if negb (truthy (trim lc))
             then set_defaultSymbolKind SymbolKind.Function st else st))
    by (destruct (negb _); [apply grows_same; reflexivity|by apply grows_same]).
  eapply grows_trans; [exact He|].
  set (st0 := if negb (truthy (trim lc)) then _ else st). clearbody st0.
  destruct (lastSymbol st0); [|by apply grows_same].
  destruct (truthy (trim lc)); [|by apply grows_same].
  assert (Hval : refs_valid st0 -> True) by done.
  destruct (regexConst pats (trim lc)) as [m|];
    [|destruct (regexData pats (trim lc)) as [m|]];
    repeat first
      [ apply foldl_set_kind_detail_grows
      | grow_step Hval ].
Qed.

Lemma step_grows line lc st :
  refs_valid st -> grows line st (step config pats line lc st).
Proof.
  intros Hval. rewrite step_unfold. cbv zeta.
  set (rest := rest_of_line config pats lc).
  pose proof (label_step_grows line lc st Hval) as H1.
  set (st1 := (label_step config pats line lc st).1) in *.
  assert (V1 : refs_valid st1)
    by (eapply evolves_refs_valid; [by eapply grows_evolves|done]).
  pose proof (ca65_step_grows line rest st1 V1) as H2.
  set (st2 := ca65_step pats line rest st1) in *.
  assert (V2 : refs_valid st2)
    by (eapply evolves_refs_valid; [by eapply grows_evolves|done]).
  pose proof (macro_step_grows line rest st2 V2) as H3.
  set (st3 := macro_step pats line rest st2) in *.
  assert (V3 : refs_valid st3.1)
    by (eapply evolves_refs_valid; [by eapply grows_evolves|done]).
  assert (G3 : grows line st st3.1)
    by (eapply grows_trans; [|exact H3]; by eapply grows_trans).
  destruct st3.2; [done|].
  pose proof (module_step_grows line rest st3.1 V3) as H4.
  set (st4 := module_step pats line rest st3.1) in *.
  assert (G4 : grows line st st4.1) by (by eapply grows_trans).
  destruct st4.2; [done|].
  eapply grows_trans; [exact G4|]. apply classify_step_grows.
Qed.

(** The scan keeps the store tidy, and a symbol lies on the line on
    which it was created. *)
Lemma scan_from_tidy line lines st :
  tidy st -> tidy (scan_from config pats line lines st).
Proof.
  revert line st. induction lines as [|lc lines IH]; intros line st Ht; simpl; [done|].
  apply IH. eapply grows_tidy; [|done]. apply step_grows. apply Ht.
Qed.

Lemma scan_from_lined line lines st :
  refs_valid st ->
  Forall (fun o => range o < line) (heap st) ->
  StronglySorted le (map range (heap st)) ->
  Forall (fun o => range o < line + length lines)
         (heap (scan_from config pats line lines st)) /\
  StronglySorted le (map range (heap (scan_from config pats line lines st))).
Proof.
  revert line st. induction lines as [|lc lines IH]; intros line st Hval Hlt Hs; simpl.
  - split; [|done]. eapply Forall_impl; [exact Hlt|]. simpl. intros o. lia.
  - assert (Hl : lined line st).
    { split; [|done]. eapply Forall_impl; [exact Hlt|]. simpl. intros o. lia. }
    pose proof (step_grows line lc st Hval) as Hg.
    apply (grows_lined _ _ _ Hg) in Hl as [Hle Hs'].
    replace (line + S (length lines)) with (S line + length lines) by lia.
    apply IH; [|eapply Forall_impl; [exact Hle|]; simpl; intros o; lia|done].
    eapply evolves_refs_valid; [by eapply grows_evolves|done].
Qed.

Lemma init_tidy : tidy init.
Proof.
  unfold tidy, refs_valid, refs_of, init. simpl.
  split; [constructor|]. split; [constructor|]. split; [constructor|].
  by intros x Hx%elem_of_nil.
Qed.

Lemma scan_tidy lines : tidy (scan config pats lines).
Proof. apply scan_from_tidy, init_tidy. Qed.

Lemma scan_lined lines :
  Forall (fun o => range o < length lines) (heap (scan config pats lines)) /\
  StronglySorted le (map range (heap (scan config pats lines))).
Proof.
  apply (scan_from_lined 0 lines init).
  - by intros x Hx%elem_of_nil.
  - constructor.
  - constructor.
Qed.

End GrowthPhases.

(** *** Reading the order off a sorted list *)

Lemma StronglySorted_lookup {A} (R : A -> A -> Prop) (l : list A) i j x y :
  StronglySorted R l -> i < j -> l !! i = Some x -> l !! j = Some y -> R x y.
Proof.
  intros Hs. revert i j. induction Hs as [|a l Hs IH Ha]; intros i j Hij Hi Hj.
  - done.
  - destruct j as [|j]; [lia|]. simpl in Hj. destruct i as [|i]; simpl in Hi.
    + simplify_eq. rewrite Forall_forall in Ha. apply Ha.
      by eapply list_elem_of_lookup_2.
    + apply (IH i j); [lia|done|done].
Qed.

Lemma NoDup_concat_lookup {A} (ls : list (list A)) i j l l' x :
  NoDup (concat ls) -> ls !! i = Some l -> ls !! j = Some l' ->
  x ∈ l -> x ∈ l' -> i = j.
Proof.
  revert i j. induction ls as [|l0 ls IH]; intros i j Hnd Hi Hj Hx Hx'; [done|].
  simpl in Hnd. apply NoDup_app in Hnd as (_ & Hdis & Hnd).
  assert (Hin : forall k lk, ls !! k = Some lk -> x ∈ lk -> x ∈ concat ls).
  { intros k lk Hk Hxk. apply list_elem_of_In, in_concat. exists lk.
    split; apply list_elem_of_In; [by eapply list_elem_of_lookup_2|done]. }
  destruct i as [|i], j as [|j]; simpl in Hi, Hj; simplify_eq.
  - done.
  - exfalso. apply (Hdis x Hx). by eapply Hin.
  - exfalso. apply (Hdis x Hx'). by eapply Hin.
  - f_equal. by eapply IH.
Qed.

Lemma NoDup_concat_elem {A} (ls : list (list A)) l :
  NoDup (concat ls) -> l ∈ ls -> NoDup l.
Proof.
  induction ls as [|l0 ls IH]; intros Hnd Hl; [by apply elem_of_nil in Hl|].
  simpl in Hnd. apply NoDup_app in Hnd as (H0 & _ & Hnd).
  apply elem_of_cons in Hl as [-> | Hl]; [done|by apply IH].
Qed.

(** *** The scope stack *)

Lemma stack_run_app e1 e2 a b c :
  stack_run e1 a b -> stack_run e2 b c -> stack_run (e1 ++ e2) a c.
Proof.
  induction 1; intros H2; simpl; [done| |].
  - eapply stack_open. by apply IHstack_run.
  - apply stack_close. by apply IHstack_run.
Qed.

Lemma stack_run_nil_inv a b : stack_run [] a b -> b = a.
Proof. by inversion 1. Qed.

Lemma stack_run_closed es : forall base x l',
  stack_run es (base ++ x) l' ->
  never_negative (length x) es = true ->
  exists x', l' = base ++ x' /\ length x' = depth_after es (length x).
Proof.
  induction es as [|e es IH]; intros base x l' Hrun Hnn.
  - apply stack_run_nil_inv in Hrun as ->. by exists x.
  - inversion Hrun as [|c es' l0 l0' Hrun'|es' l0 l0' Hrun']; subst; simpl in *.
    + rewrite <- app_assoc in Hrun'.
      apply IH in Hrun' as (x' & -> & Hlen).
      * exists x'. split; [done|]. rewrite Hlen, length_app. simpl.
        by replace (length x + 1) with (S (length x)) by lia.
      * rewrite length_app. simpl.
        by replace (length x + 1) with (S (length x)) by lia.
    + destruct x as [|y x _] using rev_ind; [done|].
      rewrite app_assoc, removelast_last in Hrun'.
      rewrite length_app in Hnn. simpl in Hnn.
      replace (length x + 1) with (S (length x)) in Hnn by lia.
      apply IH in Hrun' as (x' & -> & Hlen); [|done].
      exists x'. split; [done|]. rewrite Hlen, length_app. simpl.
      by replace (length x + 1) with (S (length x)) by lia.
Qed.

Section Stack.
Context (config : Config) (pats : Patterns).

Lemma push_to_lastModule_lastModules c st :
  lastModules (push_to_lastModule c st) = lastModules st.
Proof. unfold push_to_lastModule. by destruct (last (lastModules st)). Qed.

Lemma ca65_step_stack line lc st :
  stack_run (ca65_events pats lc) (lastModules st)
            (lastModules (ca65_step pats line lc st)).
Proof.
  unfold ca65_events, ca65_step, new_symbol.
  destruct (regexCA65 pats lc) as [m|].
  - cbv beta iota zeta. destruct (startsWith ".define" _); simpl negb; cbv iota.
    + rewrite push_to_lastModule_lastModules. constructor.
    + simpl lastModules. rewrite push_to_lastModule_lastModules.
      eapply stack_open. constructor.
  - destruct (regexCA65BlockEnd pats lc).
    + apply stack_close. constructor.
    + constructor.
Qed.

Lemma module_step_stack line lc st :
  regexMacro pats = None ->
  stack_run (module_events pats lc) (lastModules st)
            (lastModules (module_step pats line lc st).1).
Proof.
  intros Hre. unfold module_events, match_module, is_end_keyword, module_step, new_symbol.
  rewrite Hre.
  destruct (match regexModule pats lc with Some m => Some m | None => regexStruct pats lc end)
    as [m|]; [|constructor].
  cbv beta iota zeta. cbn [fst].
  destruct (truthy (m2 m));
    destruct (bool_decide _ || bool_decide _); simpl lastModules;
    rewrite ?push_to_lastModule_lastModules.
  - eapply stack_open. apply stack_close. constructor.
  - eapply stack_open. constructor.
  - apply stack_close. constructor.
  - constructor.
Qed.

(** What the loop body does to the stack after the CA65 step. *)
Lemma step_after_ca65_stack line lc st :
  stack_run (module_events pats (rest_of_line config pats lc))
    (lastModules (ca65_step pats line (rest_of_line config pats lc)
                    (label_step config pats line lc st).1))
    (lastModules (step config pats line lc st)).
Proof.
  rewrite step_unfold. cbv zeta.
  set (rest := rest_of_line config pats lc).
  set (st2 := ca65_step pats line rest _).
  pose proof (macro_step_lastModules pats line rest st2) as H3.
  pose proof (macro_step_continue pats line rest st2) as C3.
  destruct (macro_step pats line rest st2) as [st3 c3]. simpl in H3, C3. subst c3.
  simpl. destruct (regexMacro pats) as [re|] eqn:Hre.
  - rewrite bool_decide_eq_true_2 by done.
    unfold module_events. rewrite Hre, H3. constructor.
  - rewrite bool_decide_eq_false_2 by (by intros [? ?]).
    pose proof (module_step_stack line rest st3 Hre) as H4.
    pose proof (module_step_not_continue pats line rest st3) as N4.
    destruct (module_step pats line rest st3) as [st4 c4]. simpl in H4, N4.
    rewrite H3 in H4. destruct c4; [done|]. cbn [fst snd].
    by rewrite classify_step_lastModules.
Qed.

Lemma step_stack line lc st :
  stack_run (scope_events config pats lc) (lastModules st)
            (lastModules (step config pats line lc st)).
Proof.
  unfold scope_events. eapply stack_run_app; [|apply step_after_ca65_stack].
  rewrite <- (label_step_lastModules config pats line lc st).
  apply ca65_step_stack.
Qed.

Lemma scan_from_stack line lines st :
  stack_run (document_events config pats lines) (lastModules st)
            (lastModules (scan_from config pats line lines st)).
Proof.
  revert line st. induction lines as [|lc lines IH]; intros line st; simpl.
  - constructor.
  - eapply stack_run_app; [apply step_stack|apply IH].
Qed.

Lemma scan_from_closed_blocks line lines st :
  closed_blocks (document_events config pats lines) ->
  lastModules (scan_from config pats line lines st) = lastModules st.
Proof.
  intros [Hnn Hd].
  pose proof (scan_from_stack line lines st) as Hrun.
  rewrite <- (app_nil_r (lastModules st)) in Hrun.
  apply stack_run_closed in Hrun as (x' & -> & Hlen); [|done].
  simpl in Hlen. rewrite Hd in Hlen. destruct x'; [|done]. by rewrite app_nil_r.
Qed.

End Stack.

(** *** Kind and detail *)

Lemma kind_at_same st st' i :
  heap st' = heap st -> kind_at st' i = kind_at st i.
Proof. unfold kind_at. by intros ->. Qed.

Lemma kind_at_new nm k line st i :
  i < length (heap st) -> kind_at (new_symbol nm k line st).2 i = kind_at st i.
Proof. intros Hi. unfold kind_at. simpl. by rewrite lookup_app_l. Qed.

Lemma kind_at_push_child p c st i :
  kind_at (push_child p c st) i = kind_at st i.
Proof.
  unfold kind_at. simpl. destruct (decide (p = i)) as [->|Hne].
  - rewrite list_lookup_alter_eq. by destruct (heap st !! i).
  - by rewrite list_lookup_alter_ne.
Qed.

Lemma kind_at_push_to_lastModule c st i :
  kind_at (push_to_lastModule c st) i = kind_at st i.
Proof.
  unfold push_to_lastModule. destruct (last (lastModules st)); [|done].
  apply kind_at_push_child.
Qed.

Lemma kind_at_set_kind_detail k d e st i :
  e <> i -> kind_at (set_kind_detail k d e st) i = kind_at st i.
Proof. intros Hne. unfold kind_at. simpl. by rewrite list_lookup_alter_ne. Qed.

Lemma kind_at_foldl k d l st i :
  i ∉ l ->
  kind_at (foldl (fun st elem => set_kind_detail k d elem st) st l) i = kind_at st i.
Proof.
  revert st. induction l as [|e l IH]; intros st Hi; simpl; [done|].
  apply not_elem_of_cons in Hi as [Hne Hi].
  rewrite IH by done. by apply kind_at_set_kind_detail.
Qed.

Lemma foldl_set_kind_detail_lookup k d l : forall st i o,
  heap st !! i = Some o ->
  exists o',
    heap (foldl (fun st elem => set_kind_detail k d elem st) st l) !! i = Some o' /\
    name o' = name o /\ range o' = range o /\ children o' = children o /\
    (i ∈ l -> kind o' = k /\ detail o' = d) /\
    (i ∉ l -> kind o' = kind o /\ detail o' = detail o).
Proof.
  induction l as [|e l IH]; intros st i o Ho; simpl.
  - exists o. do 4 (split; [done|]). split; [by intros ?%elem_of_nil|done].
  - destruct (decide (e = i)) as [->|Hne].
    + destruct (IH (set_kind_detail k d i st) i
                  (mkDocumentSymbol (name o) d k (range o) (children o)))
        as (o' & Ho' & Hn & Hr & Hc & Hin & Hout).
      { simpl. by rewrite list_lookup_alter_eq, Ho. }
      exists o'. simpl in *. do 4 (split; [done|]). split.
      * intros _. destruct (decide (i ∈ l)); [by apply Hin|by apply Hout].
      * intros Hn'. exfalso. apply Hn'. by left.
    + destruct (IH (set_kind_detail k d e st) i o) as (o' & Ho' & Hn & Hr & Hc & Hin & Hout).
      { simpl. by rewrite list_lookup_alter_ne. }
      exists o'. do 4 (split; [done|]). split.
      * intros [?|?]%elem_of_cons; [congruence|by apply Hin].
      * intros [? ?]%not_elem_of_cons. by apply Hout.
Qed.

(** The setters of the scan's variables leave the store alone. *)
Ltac kind_at_setters :=
  repeat first
    [ progress change (kind_at (set_lastAbsSymbolChildren ?v ?x) ?i) with (kind_at x i)
    | progress change (kind_at (set_lastModules ?v ?x) ?i) with (kind_at x i)
    | progress change (kind_at (set_lastSymbol ?v ?x) ?i) with (kind_at x i)
    | progress change (kind_at (set_lastSymbols ?v ?x) ?i) with (kind_at x i)
    | progress change (kind_at (set_defaultSymbolKind ?v ?x) ?i) with (kind_at x i)
    | progress change (kind_at (push_root ?v ?x) ?i) with (kind_at x i)
    | rewrite kind_at_push_to_lastModule
    | rewrite kind_at_push_child ].

Section Kinds.
Context (config : Config) (pats : Patterns).

Lemma label_step_kind_at line lc st i :
  i < length (heap st) ->
  kind_at (label_step config pats line lc st).1 i = kind_at st i.
Proof.
  intros Hi. unfold label_step.
  destruct (regexLabel pats lc) as [m|]; [|done].
  destruct (negb _); [|done].
  pose proof (kind_at_new (m1 m +:+ m2 m) (defaultSymbolKind st) line st i Hi) as Hn.
  unfold new_symbol in *. cbv beta iota zeta. cbn [fst snd] in *.
  destruct (startsWith "." _).
  - destruct (lastAbsSymbolChildren _); kind_at_setters; exact Hn.
  - destruct (_ && _); kind_at_setters; exact Hn.
Qed.

Lemma ca65_step_kind_at line lc st i :
  i < length (heap st) ->
  kind_at (ca65_step pats line lc st) i = kind_at st i.
Proof.
  intros Hi. unfold ca65_step.
  destruct (regexCA65 pats lc) as [m|].
  - pose proof (kind_at_new (m2 m) SymbolKind.Method line st i Hi) as Hn.
    unfold new_symbol in *. cbv beta iota zeta. cbn [fst snd] in *.
    destruct (negb _); kind_at_setters; exact Hn.
  - by destruct (regexCA65BlockEnd pats lc).
Qed.

Lemma macro_step_kind_at line lc st i :
  i < length (heap st) ->
  kind_at (macro_step pats line lc st).1 i = kind_at st i.
Proof.
  intros Hi. unfold macro_step.
  destruct (regexMacro pats) as [re|]; [|done]. cbn [fst].
  destruct (re lc) as [m|]; [|done].
  pose proof (kind_at_new (m2 m) SymbolKind.Method line st i Hi) as Hn.
  unfold new_symbol in *. cbv beta iota zeta. cbn [fst snd] in *.
  kind_at_setters. exact Hn.
Qed.

Lemma module_step_kind_at line lc st i :
  i < length (heap st) ->
  kind_at (module_step pats line lc st).1 i = kind_at st i.
Proof.
  intros Hi. unfold module_step.
  destruct (match regexModule pats lc with Some m => Some m | None => regexStruct pats lc end)
    as [m|]; [|done].
  cbv zeta. cbn [fst].
  set (k := if startsWith "module" (toLowerCase (m1 m))
            then SymbolKind.Module else SymbolKind.Struct).
  pose proof (kind_at_new (m2 m) k line st i Hi) as Hn.
  unfold new_symbol in *. cbv beta iota zeta. cbn [fst snd] in *.
  kind_at_setters.
  destruct (truthy (m2 m)); destruct (bool_decide _ || bool_decide _);
    kind_at_setters; done.
Qed.

Lemma classify_step_kind_at lc st i :
  i ∉ lastSymbols st ->
  kind_at (classify_step pats lc st) i = kind_at st i.
Proof.
  intros Hi. unfold classify_step. cbv zeta.
  set (st0 := if negb (truthy (trim lc))
              then set_defaultSymbolKind SymbolKind.Function st else st).
  assert (H0 : kind_at st0 i = kind_at st i) by (unfold st0; by destruct (negb _)).
  assert (L0 : lastSymbols st0 = lastSymbols st) by (unfold st0; by destruct (negb _)).
  clearbody st0.
  destruct (lastSymbol st0); [|done].
  destruct (truthy (trim lc)); [|done].
  kind_at_setters.
  destruct (regexConst pats (trim lc)) as [m|];
    [|destruct (regexData pats (trim lc)) as [m|]]; [| |done].
  all: kind_at_setters; rewrite kind_at_foldl by (by rewrite L0); done.
Qed.

(** The pending labels after each phase. *)
Lemma label_step_lastSymbols line lc st :
  lastSymbols (label_step config pats line lc st).1
  = lastSymbols st ++
    match line_label config pats lc with
    | Some _ => [length (heap st)]
    | None => []
    end.
Proof.
  unfold line_label, label_step, new_symbol.
  destruct (regexLabel pats lc) as [m|]; [|by rewrite app_nil_r].
  destruct (includes (excludes config) (m1 m +:+ m2 m)); [by rewrite app_nil_r|].
  cbv beta iota zeta. cbn [negb fst].
  destruct (startsWith "." _).
  - by destruct (lastAbsSymbolChildren _).
  - destruct (_ && _); [done|]. simpl.
    unfold push_to_lastModule. by destruct (last _).
Qed.

Lemma ca65_step_lastSymbols line lc st :
  lastSymbols (ca65_step pats line lc st) = lastSymbols st.
Proof.
  unfold ca65_step, new_symbol. destruct (regexCA65 pats lc) as [m|].
  - cbv beta iota zeta. destruct (negb _); simpl;
      unfold push_to_lastModule; by destruct (last _).
  - by destruct (regexCA65BlockEnd pats lc).
Qed.

Lemma macro_step_lastSymbols line lc st :
  lastSymbols (macro_step pats line lc st).1 = lastSymbols st.
Proof.
  unfold macro_step, new_symbol. destruct (regexMacro pats) as [re|]; [|done].
  cbn [fst]. by destruct (re lc).
Qed.

Lemma module_step_lastSymbols line lc st :
  lastSymbols (module_step pats line lc st).1
  = if (module_step pats line lc st).2 then [] else lastSymbols st.
Proof.
  unfold module_step.
  by destruct (match regexModule pats lc with Some m => Some m | None => regexStruct pats lc end).
Qed.

Lemma classify_step_lastSymbols lc st r :
  r ∈ lastSymbols (classify_step pats lc st) -> r ∈ lastSymbols st.
Proof.
  unfold classify_step. cbv zeta.
  set (st0 := if negb (truthy (trim lc))
              then set_defaultSymbolKind SymbolKind.Function st else st).
  assert (L0 : lastSymbols st0 = lastSymbols st) by (unfold st0; by destruct (negb _)).
  clearbody st0.
  destruct (lastSymbol st0); [|by rewrite L0].
  destruct (truthy (trim lc)); [|by rewrite L0].
  simpl. by intros ?%elem_of_nil.
Qed.

(** The symbols below a mark that is below all pending labels keep kind
    and detail, and the pending labels stay above the mark. *)
Lemma step_keeps_kinds line lc st mark :
  mark <= length (heap st) ->
  (forall r, r ∈ lastSymbols st -> mark <= r) ->
  (forall i, i < mark -> kind_at (step config pats line lc st) i = kind_at st i) /\
  (forall r, r ∈ lastSymbols (step config pats line lc st) -> mark <= r).
Proof.
  intros Hmark Hpend. rewrite step_unfold. cbv zeta.
  set (rest := rest_of_line config pats lc).
  set (st1 := (label_step config pats line lc st).1).
  assert (K1 : forall i, i < mark -> kind_at st1 i = kind_at st i)
    by (intros i Hi; apply label_step_kind_at; lia).
  assert (P1 : forall r, r ∈ lastSymbols st1 -> mark <= r).
  { intros r. unfold st1. rewrite label_step_lastSymbols, elem_of_app.
    intros [Hr | Hr]; [by apply Hpend|].
    destruct (line_label config pats lc); [|by apply elem_of_nil in Hr].
    apply list_elem_of_singleton in Hr. lia. }
  assert (L1 : length (heap st) <= length (heap st1))
    by (eapply evolves_length, label_step_evolves).
  set (st2 := ca65_step pats line rest st1).
  assert (K2 : forall i, i < mark -> kind_at st2 i = kind_at st i)
    by (intros i Hi; unfold st2; rewrite ca65_step_kind_at by lia; by apply K1).
  assert (P2 : forall r, r ∈ lastSymbols st2 -> mark <= r)
    by (intros r; unfold st2; rewrite ca65_step_lastSymbols; apply P1).
  assert (L2 : length (heap st1) <= length (heap st2))
    by (eapply evolves_length, ca65_step_evolves).
  set (st3 := macro_step pats line rest st2).
  assert (K3 : forall i, i < mark -> kind_at st3.1 i = kind_at st i)
    by (intros i Hi; unfold st3; rewrite macro_step_kind_at by lia; by apply K2).
  assert (P3 : forall r, r ∈ lastSymbols st3.1 -> mark <= r)
    by (intros r; unfold st3; rewrite macro_step_lastSymbols; apply P2).
  assert (L3 : length (heap st2) <= length (heap st3.1))
    by (eapply evolves_length, macro_step_evolves).
  destruct st3.2; [done|].
  set (st4 := module_step pats line rest st3.1).
  assert (K4 : forall i, i < mark -> kind_at st4.1 i = kind_at st i)
    by (intros i Hi; unfold st4; rewrite module_step_kind_at by lia; by apply K3).
  assert (P4 : forall r, r ∈ lastSymbols st4.1 -> mark <= r).
  { intros r. unfold st4. rewrite module_step_lastSymbols.
    destruct (module_step pats line rest st3.1).2; [by intros ?%elem_of_nil|apply P3]. }
  destruct st4.2; [done|]. split.
  - intros i Hi. rewrite classify_step_kind_at; [by apply K4|].
    intros Hin%P4. lia.
  - intros r Hr%classify_step_lastSymbols. by apply P4.
Qed.

Lemma scan_from_keeps_kinds line lines st mark i :
  mark <= length (heap st) ->
  (forall r, r ∈ lastSymbols st -> mark <= r) ->
  i < mark ->
  kind_at (scan_from config pats line lines st) i = kind_at st i.
Proof.
  revert line st. induction lines as [|lc lines IH]; intros line st Hmark Hpend Hi;
    simpl; [done|].
  destruct (step_keeps_kinds line lc st mark Hmark Hpend) as [K P].
  rewrite IH; [by apply K| |done|done].
  pose proof (evolves_length _ _ _ (step_evolves config pats line lc st)). lia.
Qed.

End Kinds.

(** *** Where a new symbol is put *)

Lemma evolves_root n st st' x :
  evolves n st st' -> x ∈ symbols st -> x ∈ symbols st'.
Proof.
  induction 1 as [st st' Hh Hs| | | | |]; intros Hx; simpl; auto.
  - by rewrite Hs.
  - apply elem_of_app. by left.
Qed.

Section Placement.
Context (config : Config) (pats : Patterns).

Lemma ca65_step_open line lc st m :
  regexCA65 pats lc = Some m ->
  startsWith ".define" (trim (toLowerCase (m1 m))) = false ->
  lastModules (ca65_step pats line lc st) = lastModules st ++ [length (heap st)] /\
  length (heap (ca65_step pats line lc st)) = S (length (heap st)) /\
  exists o, heap (ca65_step pats line lc st) !! length (heap st) = Some o /\
            name o = m2 m /\ kind o = SymbolKind.Method /\ range o = line.
Proof.
  intros Hm Hd. unfold ca65_step, new_symbol. rewrite Hm.
  cbv beta iota zeta. rewrite Hd. simpl negb. cbv iota.
  simpl lastModules. rewrite push_to_lastModule_lastModules. simpl lastModules.
  split; [done|].
  set (o := mkDocumentSymbol _ _ _ _ _).
  assert (Hl : (heap st ++ [o]) !! length (heap st) = Some o).
  { rewrite lookup_app_r by lia. by rewrite Nat.sub_diag. }
  unfold push_to_lastModule. simpl.
  destruct (last (lastModules st)) as [p|]; simpl.
  - rewrite length_alter, length_app. simpl. split; [lia|].
    destruct (decide (p = length (heap st))) as [->|].
    + rewrite list_lookup_alter_eq, Hl. simpl. eauto.
    + rewrite list_lookup_alter_ne by done. rewrite Hl. eauto.
  - rewrite length_app. simpl. split; [lia|]. rewrite Hl. eauto.
Qed.

Lemma label_step_nested line lc st label block :
  line_label config pats lc = Some label ->
  nests config label = true ->
  last (lastModules st) = Some block ->
  block < length (heap st) ->
  child_of (label_step config pats line lc st).1 block (length (heap st)).
Proof.
  unfold line_label, nests, label_step, new_symbol.
  destruct (regexLabel pats lc) as [m|]; [|done].
  destruct (includes (excludes config) (m1 m +:+ m2 m)); [done|].
  intros [= <-] [Hdot Hat]%andb_prop Hlast Hlt. cbv beta iota zeta. cbn [negb fst].
  apply negb_true_iff in Hdot, Hat. rewrite Hdot, Hat.
  unfold push_to_lastModule. simpl lastModules. rewrite Hlast.
  unfold child_of. simpl. rewrite list_lookup_alter_eq.
  destruct (lookup_lt_is_Some_2 (heap st) block Hlt) as [o Ho].
  rewrite lookup_app_l, Ho by done. simpl. eexists. split; [done|]. simpl.
  apply elem_of_app. right. by apply list_elem_of_singleton.
Qed.

Lemma label_step_root line lc st label :
  line_label config pats lc = Some label ->
  startsWith "@" label = true ->
  enableCA65CheapLocalLabelNestingInOutline config = false ->
  length (heap st) ∈ symbols (label_step config pats line lc st).1.
Proof.
  unfold line_label, label_step, new_symbol.
  destruct (regexLabel pats lc) as [m|]; [|done].
  destruct (includes (excludes config) (m1 m +:+ m2 m)); [done|].
  intros [= <-] Hat Hoff. cbv beta iota zeta. cbn [negb fst].
  assert (Hdot : startsWith "." (m1 m +:+ m2 m) = false).
  { unfold startsWith in *. destruct (m1 m +:+ m2 m) as [|c l]; [done|].
    cbn [String.prefix] in *. destruct (ascii_dec "@" c) as [<-|]; [|done].
    by destruct (ascii_dec "." "@"). }
  rewrite Hdot, Hat, Hoff. simpl. apply elem_of_app. right. by left.
Qed.

Lemma module_step_open line lc st m :
  match_module pats lc = Some m ->
  truthy (m2 m) = true ->
  is_end_keyword m = false ->
  (module_step pats line lc st).2 = true /\
  lastModules (module_step pats line lc st).1 = lastModules st ++ [length (heap st)] /\
  lastSymbols (module_step pats line lc st).1 = [] /\
  length (heap (module_step pats line lc st).1) = S (length (heap st)) /\
  exists o, heap (module_step pats line lc st).1 !! length (heap st) = Some o /\
            name o = m2 m /\
            kind o = (if startsWith "module" (toLowerCase (m1 m))
                      then SymbolKind.Module else SymbolKind.Struct).
Proof.
  unfold match_module, is_end_keyword, module_step, new_symbol.
  intros -> Ht He. cbv beta iota zeta. rewrite Ht, He. cbn [fst snd].
  split; [done|]. simpl lastModules. rewrite push_to_lastModule_lastModules.
  simpl lastModules. split; [done|]. split; [done|].
  set (o := mkDocumentSymbol _ _ _ _ _).
  assert (Hl : (heap st ++ [o]) !! length (heap st) = Some o).
  { rewrite lookup_app_r by lia. by rewrite Nat.sub_diag. }
  unfold push_to_lastModule. simpl.
  destruct (last (lastModules st)) as [p|]; simpl.
  - rewrite length_alter, length_app. simpl. split; [lia|].
    destruct (decide (p = length (heap st))) as [->|].
    + rewrite list_lookup_alter_eq, Hl. simpl. eauto.
    + rewrite list_lookup_alter_ne by done. rewrite Hl. eauto.
  - rewrite length_app. simpl. split; [lia|]. rewrite Hl. eauto.
Qed.

Lemma label_step_lastSymbol line lc st :
  lastSymbol (label_step config pats line lc st).1
  = match line_label config pats lc with
    | Some _ => Some (length (heap st))
    | None => lastSymbol st
    end.
Proof.
  unfold line_label, label_step, new_symbol.
  destruct (regexLabel pats lc) as [m|]; [|done].
  destruct (includes (excludes config) (m1 m +:+ m2 m)); [done|].
  cbv beta iota zeta. cbn [negb fst].
  destruct (startsWith "." _).
  - by destruct (lastAbsSymbolChildren _).
  - destruct (_ && _); [done|]. simpl.
    unfold push_to_lastModule. by destruct (last _).
Qed.

End Placement.

(** *** Pending labels *)

Section Pending.
Context (config : Config) (pats : Patterns).
Context (Hre : regexMacro pats = None).

Lemma ca65_step_no_directive line lc st :
  regexCA65 pats lc = None ->
  heap (ca65_step pats line lc st) = heap st /\
  lastSymbol (ca65_step pats line lc st) = lastSymbol st /\
  lastSymbols (ca65_step pats line lc st) = lastSymbols st.
Proof.
  intros Hn. unfold ca65_step. rewrite Hn.
  by destruct (regexCA65BlockEnd pats lc).
Qed.

Lemma module_step_no_module line lc st :
  match_module pats lc = None -> module_step pats line lc st = (st, false).
Proof.
  unfold match_module, module_step.
  by destruct (match regexModule pats lc with Some m => Some m | None => regexStruct pats lc end).
Qed.

(** The loop body on a line that is no directive and no module line. *)
Lemma step_plain_line line lc st :
  regexCA65 pats (rest_of_line config pats lc) = None ->
  match_module pats (rest_of_line config pats lc) = None ->
  step config pats line lc st
  = classify_step pats (rest_of_line config pats lc)
      (ca65_step pats line (rest_of_line config pats lc)
         (label_step config pats line lc st).1).
Proof using Hre.
  intros Hc Hm. rewrite step_without_macro_pattern by done. cbv zeta.
  by rewrite module_step_no_module.
Qed.

Lemma label_only_step line lc st :
  label_only config pats lc ->
  heap (step config pats line lc st) = heap (label_step config pats line lc st).1 /\
  lastSymbols (step config pats line lc st) = lastSymbols st ++ [length (heap st)] /\
  lastSymbol (step config pats line lc st) = Some (length (heap st)).
Proof using Hre.
  intros ([label Hl] & Hc & Hm & Ht).
  rewrite step_plain_line by done.
  destruct (ca65_step_no_directive line (rest_of_line config pats lc)
              (label_step config pats line lc st).1 Hc) as (Hh & Hs & Hss).
  unfold classify_step. cbv zeta. rewrite Ht. simpl truthy. simpl negb. cbv iota.
  simpl lastSymbol. rewrite Hs, label_step_lastSymbol, Hl.
  simpl. rewrite Hss, Hs, label_step_lastSymbols, label_step_lastSymbol, Hl. done.
Qed.

Lemma label_only_run ls : forall line st,
  Forall (label_only config pats) ls ->
  length (heap (scan_from config pats line ls st)) = length (heap st) + length ls /\
  lastSymbols (scan_from config pats line ls st)
  = lastSymbols st ++ seq (length (heap st)) (length ls) /\
  (ls <> [] -> is_Some (lastSymbol (scan_from config pats line ls st))) /\
  (forall i lc label,
     ls !! i = Some lc -> line_label config pats lc = Some label ->
     exists o, heap (scan_from config pats line ls st) !! (length (heap st) + i) = Some o /\
               name o = label).
Proof using Hre.
  induction ls as [|lc ls IH]; intros line st Hall.
  - simpl. rewrite app_nil_r. split; [lia|]. split; [done|]. split; [done|].
    by intros [|i].
  - apply Forall_cons in Hall as [Hlc Hall].
    destruct (label_only_step line lc st Hlc) as (Hh & Hss & Hs).
    pose proof Hlc as ([label Hl] & _).
    destruct (label_step_new_symbol config pats line lc st label Hl)
      as (Hlen & o & Ho & Hname & _).
    rewrite <- Hh in Hlen, Ho.
    simpl scan_from.
    destruct (IH (S line) (step config pats line lc st) Hall) as (IH1 & IH2 & IH4 & IH3).
    rewrite IH1, IH2, Hlen, Hss. simpl length.
    split; [lia|]. split; [by rewrite <- app_assoc|].
    split.
    { intros _. destruct ls as [|lc2 ls]; [simpl; by rewrite Hs|by apply IH4]. }
    intros [|i] lc' label' Hi Hl'; simpl in Hi.
    + injection Hi as <-. rewrite Nat.add_0_r.
      destruct (evolves_lookup _ _ _ _ _
                  (scan_from_evolves config pats (S line) ls (step config pats line lc st)) Ho)
        as (o' & Ho' & Hn' & _).
      exists o'. split; [done|]. congruence.
    + destruct (IH3 i lc' label' Hi Hl') as (o' & Ho' & Hn').
      exists o'. split; [|done]. rewrite <- Ho'. f_equal. lia.
Qed.

(** The line that classifies: every pending label gets the kind and the
    detail, and the buffer is emptied. *)
Lemma classified_step line lc st K m :
  classification config pats lc = Some (K, m) ->
  is_Some (lastSymbol (label_step config pats line lc st).1) ->
  let st1 := (label_step config pats line lc st).1 in
  let st' := step config pats line lc st in
  lastSymbols st' = [] /\
  defaultSymbolKind st' = K /\
  length (heap st') = length (heap st1) /\
  forall r o, r ∈ lastSymbols st1 -> heap st1 !! r = Some o ->
    exists o', heap st' !! r = Some o' /\ name o' = name o /\
               kind o' = K /\ detail o' = detail_of m.
Proof using Hre.
  unfold classification. cbv zeta.
  destruct (regexCA65 pats (rest_of_line config pats lc)) eqn:Hc; [done|].
  destruct (match_module pats (rest_of_line config pats lc)) eqn:Hm; [done|].
  destruct (truthy (trim (rest_of_line config pats lc))) eqn:Ht; [|done].
  intros Hfound [s Hs].
  rewrite step_plain_line by done.
  destruct (ca65_step_no_directive line (rest_of_line config pats lc)
              (label_step config pats line lc st).1 Hc) as (Hh & Hs' & Hss).
  set (st1 := (label_step config pats line lc st).1) in *.
  set (st2 := ca65_step pats line (rest_of_line config pats lc) st1) in *.
  unfold classify_step. cbv zeta. rewrite Ht. simpl negb. cbv iota.
  rewrite Hs', Hs.
  assert (Hcase :
    (match regexConst pats (trim (rest_of_line config pats lc)) with
     | Some m => Some (SymbolKind.Constant, m)
     | None =>
         match regexData pats (trim (rest_of_line config pats lc)) with
         | Some m => Some (SymbolKind.Field, m)
         | None => None
         end
     end) = Some (K, m)) by exact Hfound.
  rewrite Hcase. simpl lastSymbols. split; [done|].
  split; [done|].
  destruct (foldl_set_kind_detail_fields K (m1 m +:+ " " +:+ trimEnd (m2 m))
              (lastSymbols st2) st2) as (_ & _ & _ & _ & _ & _ & Hlen).
  simpl heap. split; [by rewrite Hlen, Hh|].
  intros r o Hr Ho. rewrite <- Hh in Ho. rewrite <- Hss in Hr.
  destruct (foldl_set_kind_detail_lookup K (m1 m +:+ " " +:+ trimEnd (m2 m))
              (lastSymbols st2) st2 r o Ho) as (o' & Ho' & Hn & _ & _ & Hin & _).
  exists o'. split; [done|]. split; [done|]. by apply Hin.
Qed.

(** The loop body on a line with a label and an instruction: the label
    keeps the kind it was created with, and the buffer is emptied. *)
Lemma code_line_step line lc st label :
  line_label config pats lc = Some label ->
  code_line config pats lc ->
  lastSymbols (step config pats line lc st) = [] /\
  defaultSymbolKind (step config pats line lc st) = defaultSymbolKind st /\
  length (heap (step config pats line lc st)) = S (length (heap st)) /\
  exists o, heap (step config pats line lc st) !! length (heap st) = Some o /\
            name o = label /\ kind o = defaultSymbolKind st /\ detail o = "".
Proof using Hre.
  intros Hl (Hc & Hm & Ht & Hconst & Hdata).
  rewrite step_plain_line by done.
  destruct (ca65_step_no_directive line (rest_of_line config pats lc)
              (label_step config pats line lc st).1 Hc) as (Hh & Hs & Hss).
  set (st1 := (label_step config pats line lc st).1) in *.
  set (st2 := ca65_step pats line (rest_of_line config pats lc) st1) in *.
  assert (Hd2 : defaultSymbolKind st2 = defaultSymbolKind st).
  { unfold st2, ca65_step. rewrite Hc.
    transitivity (defaultSymbolKind st1).
    - by destruct (regexCA65BlockEnd pats _).
    - unfold st1, label_step, new_symbol.
      destruct (regexLabel pats lc) as [m|]; [|done].
      destruct (negb _); [|done]. cbv beta iota zeta. cbn [fst].
      destruct (startsWith "." _).
      + by destruct (lastAbsSymbolChildren _).
      + destruct (_ && _); [done|]. simpl.
        unfold push_to_lastModule. by destruct (last _). }
  assert (Hs1 : lastSymbol st1 = Some (length (heap st)))
    by (unfold st1; by rewrite label_step_lastSymbol, Hl).
  unfold classify_step. cbv zeta. rewrite Ht. simpl negb. cbv iota.
  rewrite Hs, Hs1, Hconst, Hdata. simpl. rewrite Hh.
  split; [done|]. split; [done|].
  destruct (label_step_new_symbol config pats line lc st label Hl)
    as (Hlen & o & Ho & Hn & _ & Hk).
  split; [exact Hlen|]. exists o. split; [exact Ho|]. split; [done|]. split; [done|].
  (* the detail of a new symbol is empty *)
  assert (Hka : kind_at st1 (length (heap st)) = Some (defaultSymbolKind st, "")).
  { unfold st1, label_step, new_symbol. unfold line_label in Hl.
    destruct (regexLabel pats lc) as [m|]; [|done].
    destruct (includes (excludes config) (m1 m +:+ m2 m)); [done|].
    cbv beta iota zeta. cbn [negb fst].
    assert (Hnew : kind_at (set_heap (heap st ++ [mkDocumentSymbol (m1 m +:+ m2 m) ""
                                                    (defaultSymbolKind st) line []]) st)
                     (length (heap st)) = Some (defaultSymbolKind st, "")).
    { unfold kind_at. simpl. rewrite lookup_app_r by lia.
      by rewrite Nat.sub_diag. }
    destruct (startsWith "." _).
    - destruct (lastAbsSymbolChildren _); kind_at_setters; exact Hnew.
    - destruct (_ && _); kind_at_setters; exact Hnew. }
  unfold kind_at in Hka. fold st1 in Ho. rewrite Ho in Hka. simpl in Hka. congruence.
Qed.

End Pending.

Lemma omap_all_Some {A B} (f : A -> option B) (l : list A) :
  Forall (fun x => is_Some (f x)) l ->
  length (omap f l) = length l /\
  forall i y, omap f l !! i = Some y -> exists x, l !! i = Some x /\ f x = Some y.
Proof.
  induction 1 as [|x l [y Hy] _ [IH1 IH2]]; simpl.
  - split; [done|]. by intros [|i].
  - rewrite Hy. simpl. split; [f_equal; exact IH1|].
    intros [|i] y' Hi; simpl in Hi.
    + exists x. split; [done|]. congruence.
    + destruct (IH2 i y' Hi) as (x' & ? & ?). by exists x'.
Qed.

Section AfterCA65.
Context (config : Config) (pats : Patterns).

Lemma step_evolves_after_ca65 line lc st :
  evolves 0
    (ca65_step pats line (rest_of_line config pats lc)
       (label_step config pats line lc st).1)
    (step config pats line lc st).
Proof.
  rewrite step_unfold. cbv zeta.
  set (rest := rest_of_line config pats lc).
  set (st2 := ca65_step pats line rest _).
  pose proof (macro_step_evolves pats line rest st2) as H3.
  apply (evolves_weaken _ 0) in H3; [|lia].
  destruct (macro_step pats line rest st2) as [st3 c3]. cbn [fst snd] in *.
  destruct c3; [done|].
  pose proof (module_step_evolves pats line rest st3) as H4.
  apply (evolves_weaken _ 0) in H4; [|lia].
  destruct (module_step pats line rest st3) as [st4 c4]. cbn [fst snd] in *.
  destruct c4; [by eapply ev_trans|].
  eapply ev_trans; [exact H3|]. eapply ev_trans; [exact H4|].
  apply classify_step_evolves.
Qed.

(** A label that takes part in nesting becomes a child of the symbol on
    top of the scope stack, with closed blocks in between. *)
Lemma label_nests_under_top before mid post declaring label block :
  last (lastModules (scan config pats before)) = Some block ->
  closed_blocks (document_events config pats mid) ->
  line_label config pats declaring = Some label ->
  nests config label = true ->
  let sym := length (heap (scan config pats (before ++ mid))) in
  let st := scan config pats (before ++ mid ++ declaring :: post) in
  child_of st block sym /\
  (exists o, heap st !! sym = Some o /\ name o = label) /\
  evolves 0 (scan config pats before) st.
Proof.
  intros Htop Hclosed Hlabel Hnests sym st.
  set (st_b := scan config pats before) in *.
  set (st_mid := scan config pats (before ++ mid)) in *.
  assert (Hmid : st_mid = scan_from config pats (length before) mid st_b).
  { unfold st_mid, scan. by rewrite scan_from_app. }
  assert (Hev_mid : evolves 0 st_b st_mid).
  { rewrite Hmid. eapply evolves_weaken; [|apply scan_from_evolves]. lia. }
  assert (Hstack_mid : lastModules st_mid = lastModules st_b)
    by (rewrite Hmid; by apply scan_from_closed_blocks).
  assert (Hlt : block < length (heap st_mid)).
  { destruct (scan_ordered config pats (before ++ mid)) as (_ & _ & Hmods & _).
    fold st_mid in Hmods. rewrite Forall_forall in Hmods. apply Hmods.
    rewrite Hstack_mid. apply last_Some in Htop as [l' Htop].
    rewrite Htop. apply elem_of_app. right. by left. }
  assert (Hst : st = scan config pats ((before ++ mid) ++ declaring :: post)).
  { unfold st. f_equal. by rewrite <- app_assoc. }
  pose proof (scan_evolves_after_label config pats (before ++ mid) declaring post)
    as Hev_end. cbv zeta in Hev_end. rewrite <- Hst in Hev_end. fold st_mid in Hev_end.
  split; [|split].
  - eapply evolves_child_of; [exact Hev_end|].
    apply (label_step_nested config pats _ declaring st_mid label block);
      [done|done| |done].
    by rewrite Hstack_mid.
  - destruct (label_step_new_symbol config pats (length (before ++ mid))
                declaring st_mid label Hlabel) as (_ & o & Ho & Hn & _).
    destruct (evolves_lookup _ _ _ _ _ Hev_end Ho) as (o' & Ho' & Hn' & _).
    exists o'. split; [done|]. congruence.
  - eapply ev_trans; [exact Hev_mid|].
    eapply ev_trans; [|eapply evolves_weaken; [|exact Hev_end]; lia].
    eapply evolves_weaken; [|apply label_step_evolves]. lia.
Qed.

End AfterCA65.

End GrowthFacts.

(** ** More on the outline (src/DocumentSymbolProvider.ts) *)

Import JsString DocumentSymbolProvider Outline ScanFacts Growth GrowthFacts.
Import SamplePatterns.

(** X6. The result is a forest. The roots of the trees handed to the
    editor are the array [symbols]; no symbol is pushed twice: the roots
    are distinct, the children of a symbol are distinct, a child is no
    root, a symbol is the child of at most one symbol, and a child was
    created after its parent. *)
Theorem outline_is_a_forest (config : Config) (pats : Patterns) (lines : list string) :
  let st := scan config pats lines in
  map root (outline st) = symbols st /\
  NoDup (symbols st) /\
  (forall p o, heap st !! p = Some o -> NoDup (children o)) /\
  (forall p c, child_of st p c -> p < c /\ c ∉ symbols st) /\
  (forall p p' c, child_of st p c -> child_of st p' c -> p = p').
Proof.
  intros st.
  destruct (scan_tidy config pats lines) as (Hnd & _).
  destruct (scan_ordered config pats lines) as (Hord & _).
  fold st in Hnd, Hord. unfold refs_of in Hnd.
  apply NoDup_app in Hnd as (Hroots & Hdis & Hch).
  split; [apply (outline_exact config pats lines)|]. split; [done|].
  split; [|split].
  - intros p o Ho. apply (NoDup_concat_elem _ _ Hch).
    apply list_elem_of_fmap. exists o. split; [done|].
    by eapply list_elem_of_lookup_2.
  - intros p c (o & Ho & Hc). split.
    + pose proof (Hord p o Ho) as Hall. rewrite Forall_forall in Hall.
      by apply Hall.
    + intros Hroot. apply (Hdis c Hroot).
      apply elem_of_concat_map. exists o.
      split; [by eapply list_elem_of_lookup_2|done].
  - intros p p' c (o & Ho & Hc) (o' & Ho' & Hc').
    apply (NoDup_concat_lookup _ p p' (children o) (children o') c Hch);
      try done; rewrite list_lookup_fmap; by rewrite ?Ho, ?Ho'.
Qed.

(** X7. The result is in document order. Every symbol lies on a line
    of the document; the roots, and the children of every symbol, are in
    the order of their lines; and no child lies above its parent. *)
Theorem outline_in_document_order (config : Config) (pats : Patterns)
    (lines : list string) :
  let st := scan config pats lines in
  in_document_order st (symbols st) /\
  (forall p o, heap st !! p = Some o ->
     range o < length lines /\
     in_document_order st (children o) /\
     (forall c n, c ∈ children o -> line_of st c = Some n -> range o <= n)).
Proof.
  intros st.
  destruct (scan_tidy config pats lines) as (_ & Hroots & Hch & _).
  destruct (scan_lined config pats lines) as (Hlt & Hsorted).
  destruct (scan_ordered config pats lines) as (Hord & _).
  fold st in Hroots, Hch, Hlt, Hsorted, Hord.
  assert (Hmono : forall r r' n n',
            r < r' -> line_of st r = Some n -> line_of st r' = Some n' -> n <= n').
  { intros r r' n n' Hrr Hn Hn'. unfold line_of in *.
    apply (StronglySorted_lookup le (map range (heap st)) r r' n n' Hsorted Hrr).
    - change (map range (heap st)) with (range <$> heap st).
      by rewrite list_lookup_fmap.
    - change (map range (heap st)) with (range <$> heap st).
      by rewrite list_lookup_fmap. }
  assert (Hlist : forall l, StronglySorted lt l -> in_document_order st l).
  { intros l Hl i j r r' n n' Hij Hi Hj Hn Hn'.
    pose proof (StronglySorted_lookup lt l i j r r' Hl Hij Hi Hj) as Hrr.
    split; [done|]. by eapply Hmono. }
  split; [by apply Hlist|].
  intros p o Ho. split; [|split].
  - rewrite Forall_forall in Hlt. apply Hlt. by eapply list_elem_of_lookup_2.
  - apply Hlist. rewrite Forall_forall in Hch. apply Hch.
    by eapply list_elem_of_lookup_2.
  - intros c n Hc Hn. pose proof (Hord p o Ho) as Hall.
    rewrite Forall_forall in Hall. apply Hall in Hc as [Hpc _].
    apply (Hmono p c (range o) n Hpc); [|done].
    unfold line_of. by rewrite Ho.
Qed.

(** X8. Blocks that are closed leave no trace on the scope stack: after
    lines in which every block that is opened is closed again, and
    nothing else is closed, the stack holds the symbols it held before,
    whatever they are. *)
Theorem closed_blocks_restore_scope_stack (config : Config) (pats : Patterns)
    (pre block : list string) :
  closed_blocks (document_events config pats block) ->
  lastModules (scan config pats (pre ++ block)) = lastModules (scan config pats pre).
Proof.
  intros Hclosed. unfold scan. rewrite scan_from_app.
  by apply scan_from_closed_blocks.
Qed.

Lemma closed_blocks_restore_scope_stack_witness :
  let pre := [".proc outer"] in
  let block := [".proc inner"; "x: nop"; ".endproc"; ".scope s"; ".endscope"] in
  closed_blocks (document_events (sampleConfig []) with_macro block) /\
  lastModules (scan (sampleConfig []) with_macro pre) = [0] /\
  lastModules (scan (sampleConfig []) with_macro (pre ++ block))
  = lastModules (scan (sampleConfig []) with_macro pre).
Proof.
  cbv zeta.
  assert (H : closed_blocks
                (document_events (sampleConfig []) with_macro
                   [".proc inner"; "x: nop"; ".endproc"; ".scope s"; ".endscope"]))
    by (split; vm_compute; reflexivity).
  split; [exact H|]. split; [vm_compute; reflexivity|].
  exact (closed_blocks_restore_scope_stack (sampleConfig []) with_macro
           [".proc outer"] _ H).
Defined.

(** X9. A label that takes part in nesting, one that does not start
    with a dot and is no cheap local label left out of nesting, is a
    child of the symbol of the CA65 block it stands in. The block is
    opened by a directive other than a define, on a line on which the
    MODULE/STRUCT step opens and closes nothing; the lines between hold
    closed blocks only. Then, at the end of the scan, the symbol of the
    label is in the child list of the symbol of the directive, which bears
    the name the directive gives, whatever follows. *)
Theorem labels_nest_in_open_block (config : Config) (pats : Patterns)
    (pre mid post : list string) (opening declaring label : string) (m : ExecResult) :
  regexCA65 pats (rest_of_line config pats opening) = Some m ->
  startsWith ".define" (trim (toLowerCase (m1 m))) = false ->
  module_events pats (rest_of_line config pats opening) = [] ->
  closed_blocks (document_events config pats mid) ->
  line_label config pats declaring = Some label ->
  nests config label = true ->
  let block :=
    length (heap (scan config pats pre))
    + match line_label config pats opening with Some _ => 1 | None => 0 end in
  let sym := length (heap (scan config pats (pre ++ opening :: mid))) in
  let st := scan config pats (pre ++ opening :: mid ++ declaring :: post) in
  child_of st block sym /\
  (exists o, heap st !! block = Some o /\ name o = m2 m) /\
  (exists o, heap st !! sym = Some o /\ name o = label).
Proof.
  intros Hm Hdef Hmod Hclosed Hlabel Hnests block sym st.
  set (st0 := scan config pats pre).
  set (st1 := (label_step config pats (length pre) opening st0).1).
  assert (Hblock : length (heap st1) = block).
  { unfold block, st1. destruct (line_label config pats opening) as [l|] eqn:Hl.
    - destruct (label_step_new_symbol config pats (length pre) opening st0 l Hl) as [-> _].
      fold st0. lia.
    - rewrite (label_step_no_label config pats (length pre) opening st0 Hl).
      fold st0. lia. }
  set (st2 := ca65_step pats (length pre) (rest_of_line config pats opening) st1).
  destruct (ca65_step_open pats (length pre) _ st1 m Hm Hdef)
    as (Hstack2 & Hlen2 & o2 & Ho2 & Hname2 & _).
  fold st2 in Hstack2, Hlen2, Ho2. rewrite Hblock in Hstack2, Hlen2, Ho2.
  set (st_open := step config pats (length pre) opening st0).
  assert (Hstack_open : lastModules st_open = lastModules st0 ++ [block]).
  { pose proof (step_after_ca65_stack config pats (length pre) opening st0) as Hrun.
    rewrite Hmod in Hrun. apply stack_run_nil_inv in Hrun.
    fold st1 st2 st_open in Hrun. rewrite Hrun, Hstack2.
    unfold st1. by rewrite label_step_lastModules. }
  assert (Hev_open : evolves 0 st2 st_open)
    by apply step_evolves_after_ca65.
  set (st_mid := scan config pats (pre ++ opening :: mid)).
  assert (Hmid : st_mid = scan_from config pats (S (length pre)) mid st_open)
    by apply scan_cons_app.
  assert (Hev_mid : evolves 0 st_open st_mid).
  { rewrite Hmid. eapply evolves_weaken; [|apply scan_from_evolves]. lia. }
  assert (Hstack_mid : lastModules st_mid = lastModules st0 ++ [block]).
  { rewrite Hmid, scan_from_closed_blocks by done. exact Hstack_open. }
  assert (Hlt : block < length (heap st_mid)).
  { pose proof (evolves_length _ _ _ Hev_open). pose proof (evolves_length _ _ _ Hev_mid).
    lia. }
  assert (Hst : st = scan config pats ((pre ++ opening :: mid) ++ declaring :: post)).
  { unfold st. f_equal. by rewrite <- app_assoc. }
  pose proof (scan_evolves_after_label config pats (pre ++ opening :: mid) declaring post)
    as Hev_end. cbv zeta in Hev_end. rewrite <- Hst in Hev_end. fold st_mid in Hev_end.
  split; [|split].
  - eapply evolves_child_of; [exact Hev_end|].
    apply (label_step_nested config pats _ declaring st_mid label block);
      [done|done| |done].
    rewrite Hstack_mid. apply last_snoc.
  - destruct (evolves_lookup _ _ _ _ _ Hev_open Ho2) as (o3 & Ho3 & Hn3 & _).
    destruct (evolves_lookup _ _ _ _ _ Hev_mid Ho3) as (o4 & Ho4 & Hn4 & _).
    pose proof (label_step_evolves config pats (length (pre ++ opening :: mid))
                  declaring st_mid) as Hev_label.
    destruct (evolves_lookup _ _ _ _ _ Hev_label Ho4) as (o5 & Ho5 & Hn5 & _).
    destruct (evolves_lookup _ _ _ _ _ Hev_end Ho5) as (o6 & Ho6 & Hn6 & _).
    exists o6. split; [done|]. congruence.
  - destruct (label_step_new_symbol config pats (length (pre ++ opening :: mid))
                declaring st_mid label Hlabel) as (_ & o & Ho & Hn & _).
    destruct (evolves_lookup _ _ _ _ _ Hev_end Ho) as (o' & Ho' & Hn' & _).
    exists o'. split; [done|]. congruence.
Qed.

Lemma labels_nest_in_open_block_witness :
  let config := sampleConfig [] in
  let pats := without_macro in
  let m := mkExecResult ".proc main" ".proc" "main" in
  let st := scan config pats
              ([] ++ ".proc main" :: [".scope s"; "a: nop"; ".endscope"]
                  ++ "loop: nop" :: [".endproc"]) in
  regexCA65 pats (rest_of_line config pats ".proc main") = Some m /\
  startsWith ".define" (trim (toLowerCase (m1 m))) = false /\
  module_events pats (rest_of_line config pats ".proc main") = [] /\
  closed_blocks (document_events config pats [".scope s"; "a: nop"; ".endscope"]) /\
  line_label config pats "loop: nop" = Some "loop" /\
  nests config "loop" = true /\
  child_of st 0 3 /\
  (exists o, heap st !! 0 = Some o /\ name o = m2 m) /\
  (exists o, heap st !! 3 = Some o /\ name o = "loop").
Proof.
  cbv zeta.
  assert (H1 : regexCA65 without_macro
                 (rest_of_line (sampleConfig []) without_macro ".proc main")
               = Some (mkExecResult ".proc main" ".proc" "main"))
    by (vm_compute; reflexivity).
  assert (H4 : closed_blocks
                 (document_events (sampleConfig []) without_macro
                    [".scope s"; "a: nop"; ".endscope"]))
    by (split; vm_compute; reflexivity).
  assert (H5 : line_label (sampleConfig []) without_macro "loop: nop" = Some "loop")
    by (vm_compute; reflexivity).
  split; [exact H1|]. split; [reflexivity|]. split; [vm_compute; reflexivity|].
  split; [exact H4|]. split; [exact H5|]. split; [reflexivity|].
  exact (labels_nest_in_open_block (sampleConfig []) without_macro
           [] [".scope s"; "a: nop"; ".endscope"] [".endproc"]
           ".proc main" "loop: nop" "loop" _ H1 eq_refl eq_refl H4 H5 eq_refl).
Defined.

(** X10. In a dialect without a macro pattern, a label in an open
    MODULE or STRUCT is a child of its symbol. The module is opened by a
    MODULE or STRUCT line with a name, which is no directive; the lines
    between hold closed blocks only; the label is one that takes part in
    nesting. Then, at the end of the scan, the symbol of the label is in
    the child list of the symbol of the module, whose kind is Module or
    Struct by its keyword, whatever follows. *)
Theorem labels_nest_in_open_module (config : Config) (pats : Patterns)
    (pre mid post : list string) (opening declaring label : string) (m : ExecResult) :
  regexMacro pats = None ->
  regexCA65 pats (rest_of_line config pats opening) = None ->
  regexCA65BlockEnd pats (rest_of_line config pats opening) = None ->
  match_module pats (rest_of_line config pats opening) = Some m ->
  truthy (m2 m) = true ->
  is_end_keyword m = false ->
  closed_blocks (document_events config pats mid) ->
  line_label config pats declaring = Some label ->
  nests config label = true ->
  let block :=
    length (heap (scan config pats pre))
    + match line_label config pats opening with Some _ => 1 | None => 0 end in
  let sym := length (heap (scan config pats (pre ++ opening :: mid))) in
  let st := scan config pats (pre ++ opening :: mid ++ declaring :: post) in
  child_of st block sym /\
  (exists o, heap st !! block = Some o /\ name o = m2 m /\
             kind o = (if startsWith "module" (toLowerCase (m1 m))
                       then SymbolKind.Module else SymbolKind.Struct)) /\
  (exists o, heap st !! sym = Some o /\ name o = label).
Proof.
  intros Hre Hc Hend Hm Ht He Hclosed Hlabel Hnests block sym st.
  set (st0 := scan config pats pre).
  set (st1 := (label_step config pats (length pre) opening st0).1).
  assert (Hblock : length (heap st1) = block).
  { unfold block, st1. destruct (line_label config pats opening) as [l|] eqn:Hl.
    - destruct (label_step_new_symbol config pats (length pre) opening st0 l Hl) as [-> _].
      fold st0. lia.
    - rewrite (label_step_no_label config pats (length pre) opening st0 Hl).
      fold st0. lia. }
  set (st_open := scan config pats (pre ++ [opening])).
  assert (Hopen : st_open
                  = (module_step pats (length pre) (rest_of_line config pats opening) st1).1).
  { unfold st_open. rewrite scan_snoc, step_without_macro_pattern by done. cbv zeta.
    assert (Hca : ca65_step pats (length pre) (rest_of_line config pats opening) st1 = st1)
      by (unfold ca65_step; by rewrite Hc, Hend).
    fold st0 st1. rewrite Hca.
    destruct (module_step_open pats (length pre) _ st1 m Hm Ht He) as (-> & _). done. }
  destruct (module_step_open pats (length pre) _ st1 m Hm Ht He)
    as (_ & Hstack & Hpend & Hlen & o & Ho & Hname & Hkind).
  rewrite <- Hopen in Hstack, Hpend, Hlen, Ho. rewrite Hblock in Hstack, Hlen, Ho.
  assert (Hassoc : pre ++ opening :: mid ++ declaring :: post
                   = (pre ++ [opening]) ++ mid ++ declaring :: post)
    by (by rewrite <- app_assoc).
  assert (Hassoc' : pre ++ opening :: mid = (pre ++ [opening]) ++ mid)
    by (by rewrite <- app_assoc).
  destruct (label_nests_under_top config pats (pre ++ [opening]) mid post declaring
              label block) as (Hchild & Hsym & Hev); try done.
  { fold st_open. rewrite Hstack. apply last_snoc. }
  cbv zeta in Hchild, Hsym, Hev. rewrite <- Hassoc in Hchild, Hsym, Hev.
  rewrite <- Hassoc' in Hchild, Hsym. fold st sym st_open in Hchild, Hsym, Hev.
  split; [exact Hchild|]. split; [|exact Hsym].
  destruct (evolves_lookup _ _ _ _ _ Hev Ho) as (o' & Ho' & Hn' & _).
  exists o'. split; [done|]. split; [congruence|].
  assert (Hkeep : kind_at st block = kind_at st_open block).
  { unfold st. rewrite Hassoc. unfold scan at 1. rewrite scan_from_app.
    fold (scan config pats (pre ++ [opening])). fold st_open.
    apply (scan_from_keeps_kinds config pats _ _ st_open (length (heap st_open)));
      [done| |lia].
    rewrite Hpend. by intros r ?%elem_of_nil. }
  unfold kind_at in Hkeep. rewrite Ho', Ho in Hkeep. simpl in Hkeep.
  injection Hkeep as Hk _. congruence.
Qed.

Lemma labels_nest_in_open_module_witness :
  let config := sampleConfig [] in
  let pats := without_macro in
  let m := mkExecResult " STRUCT point" "STRUCT" "point" in
  let st := scan config pats
              (["start: nop"] ++ " STRUCT point" :: [".proc p"; ".endproc"]
                  ++ "x: defb 0" :: [" ENDS"]) in
  regexMacro pats = None /\
  regexCA65 pats (rest_of_line config pats " STRUCT point") = None /\
  regexCA65BlockEnd pats (rest_of_line config pats " STRUCT point") = None /\
  match_module pats (rest_of_line config pats " STRUCT point") = Some m /\
  truthy (m2 m) = true /\
  is_end_keyword m = false /\
  closed_blocks (document_events config pats [".proc p"; ".endproc"]) /\
  line_label config pats "x: defb 0" = Some "x" /\
  nests config "x" = true /\
  child_of st 1 3 /\
  (exists o, heap st !! 1 = Some o /\ name o = "point" /\
             kind o = SymbolKind.Struct) /\
  (exists o, heap st !! 3 = Some o /\ name o = "x").
Proof.
  cbv zeta.
  assert (H2 : regexCA65 without_macro
                 (rest_of_line (sampleConfig []) without_macro " STRUCT point") = None)
    by (vm_compute; reflexivity).
  assert (H3 : regexCA65BlockEnd without_macro
                 (rest_of_line (sampleConfig []) without_macro " STRUCT point") = None)
    by (vm_compute; reflexivity).
  assert (H4 : match_module without_macro
                 (rest_of_line (sampleConfig []) without_macro " STRUCT point")
               = Some (mkExecResult " STRUCT point" "STRUCT" "point"))
    by (vm_compute; reflexivity).
  assert (H7 : closed_blocks
                 (document_events (sampleConfig []) without_macro [".proc p"; ".endproc"]))
    by (split; vm_compute; reflexivity).
  assert (H8 : line_label (sampleConfig []) without_macro "x: defb 0" = Some "x")
    by (vm_compute; reflexivity).
  split; [reflexivity|]. split; [exact H2|]. split; [exact H3|]. split; [exact H4|].
  split; [reflexivity|]. split; [vm_compute; reflexivity|]. split; [exact H7|].
  split; [exact H8|]. split; [reflexivity|].
  exact (labels_nest_in_open_module (sampleConfig []) without_macro
           ["start: nop"] [".proc p"; ".endproc"] [" ENDS"]
           " STRUCT point" "x: defb 0" "x" _ eq_refl H2 H3 H4 eq_refl eq_refl H7 H8 eq_refl).
Defined.

(** X11. With the nesting of cheap local labels switched off, a label
    that starts with [@] is a root of the outline and a child of no
    symbol, whatever scopes are open where it is declared. *)
Theorem cheap_local_labels_at_root (config : Config) (pats : Patterns)
    (pre post : list string) (declaring label : string) :
  enableCA65CheapLocalLabelNestingInOutline config = false ->
  line_label config pats declaring = Some label ->
  startsWith "@" label = true ->
  let sym := length (heap (scan config pats pre)) in
  let st := scan config pats (pre ++ declaring :: post) in
  sym ∈ symbols st /\
  (forall p, ~ child_of st p sym) /\
  (exists o, heap st !! sym = Some o /\ name o = label).
Proof.
  intros Hoff Hlabel Hat sym st.
  pose proof (scan_evolves_after_label config pats pre declaring post) as Hev.
  cbv zeta in Hev. fold st in Hev.
  assert (Hroot : sym ∈ symbols st).
  { eapply evolves_root; [exact Hev|]. by eapply label_step_root. }
  split; [done|]. split.
  - intros p (o & Ho & Hc).
    destruct (scan_tidy config pats (pre ++ declaring :: post)) as (Hnd & _).
    fold st in Hnd. unfold refs_of in Hnd.
    apply NoDup_app in Hnd as (_ & Hdis & _). apply (Hdis sym Hroot).
    apply elem_of_concat_map. exists o.
    split; [by eapply list_elem_of_lookup_2|done].
  - destruct (label_step_new_symbol config pats (length pre) declaring
                (scan config pats pre) label Hlabel) as (_ & o & Ho & Hn & _).
    destruct (evolves_lookup _ _ _ _ _ Hev Ho) as (o' & Ho' & Hn' & _).
    exists o'. split; [done|]. congruence.
Qed.

Lemma cheap_local_labels_at_root_witness :
  let config := mkConfig true false [] true 0 true true "/ws" "" in
  let st := scan config without_macro ([".proc main"] ++ "@skip: nop" :: [".endproc"]) in
  enableCA65CheapLocalLabelNestingInOutline config = false /\
  line_label config without_macro "@skip: nop" = Some "@skip" /\
  startsWith "@" "@skip" = true /\
  lastModules (scan config without_macro [".proc main"]) = [0] /\
  1 ∈ symbols st /\
  (forall p, ~ child_of st p 1) /\
  (exists o, heap st !! 1 = Some o /\ name o = "@skip").
Proof.
  cbv zeta.
  assert (H2 : line_label (mkConfig true false [] true 0 true true "/ws" "")
                 without_macro "@skip: nop" = Some "@skip")
    by (vm_compute; reflexivity).
  split; [reflexivity|]. split; [exact H2|]. split; [reflexivity|].
  split; [vm_compute; reflexivity|].
  exact (cheap_local_labels_at_root (mkConfig true false [] true 0 true true "/ws" "")
           without_macro [".proc main"] [".endproc"] "@skip: nop" "@skip"
           eq_refl H2 eq_refl).
Defined.

(** X12. In a dialect without a macro pattern, labels that stand alone
    on their lines wait for the line that says what they are: when the
    next line is a constant or a data definition, with or without a label
    of its own, every one of these labels gets the kind Constant or Field
    and the detail of that line, and keeps them to the end of the scan. *)
Theorem pending_labels_are_classified (config : Config) (pats : Patterns)
    (pre alone post : list string) (defining : string)
    (K : SymbolKind.t) (m : ExecResult) :
  regexMacro pats = None ->
  Forall (label_only config pats) alone ->
  classification config pats defining = Some (K, m) ->
  let first := length (heap (scan config pats pre)) in
  let st := scan config pats (pre ++ alone ++ defining :: post) in
  forall i label,
    omap (line_label config pats) (alone ++ [defining]) !! i = Some label ->
    exists o, heap st !! (first + i) = Some o /\
              name o = label /\ kind o = K /\ detail o = detail_of m.
Proof.
  intros Hre Halone Hclass first st i label Hi.
  set (st0 := scan config pats pre).
  set (st_a := scan config pats (pre ++ alone)).
  assert (Ha : st_a = scan_from config pats (length pre) alone st0).
  { unfold st_a, scan. rewrite scan_from_app. reflexivity. }
  destruct (label_only_run config pats Hre alone (length pre) st0 Halone)
    as (Hlen_a & Hpend_a & Hlast_a & Hnames_a).
  rewrite <- Ha in Hlen_a, Hpend_a, Hlast_a, Hnames_a. fold first in Hlen_a, Hpend_a, Hnames_a.
  set (line := length (pre ++ alone)).
  set (st1 := (label_step config pats line defining st_a).1).
  set (st_d := step config pats line defining st_a).
  assert (Hst : st = scan_from config pats (S line) post st_d).
  { unfold st. rewrite app_assoc. apply scan_cons_app. }
  assert (Hev1 : evolves (length (heap st_a)) st_a st1) by apply label_step_evolves.
  (* the symbol of the label, in the state after label detection *)
  assert (Hsym : exists o1, heap st1 !! (first + i) = Some o1 /\ name o1 = label /\
                            first + i ∈ lastSymbols st1 /\ is_Some (lastSymbol st1)).
  { assert (Hall : Forall (fun x => is_Some (line_label config pats x)) alone).
    { eapply Forall_impl; [exact Halone|]. by intros x (? & _). }
    destruct (omap_all_Some _ _ Hall) as [Hlen_o Hget].
    rewrite omap_app in Hi.
    unfold st1. rewrite label_step_lastSymbols, label_step_lastSymbol, Hpend_a.
    destruct (decide (i < length alone)) as [Hlt|Hge].
    - rewrite lookup_app_l in Hi by lia.
      destruct (Hget i label Hi) as (lc & Hlc & Hl).
      destruct (Hnames_a i lc label Hlc Hl) as (o & Ho & Hn).
      destruct (evolves_lookup _ _ _ _ _ Hev1 Ho) as (o1 & Ho1 & Hn1 & _).
      exists o1. split; [exact Ho1|]. split; [congruence|]. split.
      + rewrite !elem_of_app. left. right. apply elem_of_seq.
        unfold first, st0 in *. lia.
      + destruct (line_label config pats defining); [done|].
        apply Hlast_a. intros ->. simpl in Hlt. lia.
    - rewrite lookup_app_r in Hi by lia. rewrite Hlen_o in Hi.
      simpl in Hi. destruct (line_label config pats defining) as [l|] eqn:Hl;
        [|by destruct (i - length alone)].
      destruct (i - length alone) as [|j] eqn:Hj; [|by destruct j].
      simpl in Hi. injection Hi as ->.
      assert (i = length alone) as -> by lia.
      destruct (label_step_new_symbol config pats line defining st_a label Hl)
        as (_ & o & Ho & Hn & _).
      rewrite Hlen_a in Ho. exists o. split; [exact Ho|]. split; [done|]. split; [|done].
      rewrite !elem_of_app. right. rewrite Hlen_a. by left. }
  destruct Hsym as (o1 & Ho1 & Hn1 & Hin1 & Hlast1).
  destruct (classified_step config pats Hre line defining st_a K m Hclass Hlast1)
    as (Hempty & _ & Hlen_d & Hkinds).
  destruct (Hkinds _ _ Hin1 Ho1) as (o2 & Ho2 & Hn2 & Hk2 & Hd2).
  fold st_d in Hempty, Hlen_d, Ho2.
  (* from there to the end of the scan *)
  assert (Hlt : first + i < length (heap st_d)) by (by eapply lookup_lt_Some).
  assert (Hkeep : kind_at st (first + i) = kind_at st_d (first + i)).
  { rewrite Hst.
    apply (scan_from_keeps_kinds config pats (S line) post st_d (length (heap st_d)));
      [done| |done].
    rewrite Hempty. by intros r ?%elem_of_nil. }
  destruct (evolves_lookup _ _ _ _ _
              (scan_from_evolves config pats (S line) post st_d) Ho2)
    as (o3 & Ho3 & Hn3 & _).
  rewrite <- Hst in Ho3.
  unfold kind_at in Hkeep. rewrite Ho3, Ho2 in Hkeep.
  simpl in Hkeep. injection Hkeep as Hk3 Hd3.
  exists o3. split; [done|]. split; [congruence|]. split; congruence.
Qed.

Lemma pending_labels_are_classified_witness :
  let config := sampleConfig [] in
  let pats := without_macro in
  let m := mkExecResult "defb 1, 2" "defb" "1, 2" in
  let st := scan config pats (["start: nop"] ++ ["tab_a:"; "tab_b:"]
                                ++ "tab_c: defb 1, 2" :: ["end: ret"]) in
  regexMacro pats = None /\
  Forall (label_only config pats) ["tab_a:"; "tab_b:"] /\
  classification config pats "tab_c: defb 1, 2" = Some (SymbolKind.Field, m) /\
  omap (line_label config pats) (["tab_a:"; "tab_b:"] ++ ["tab_c: defb 1, 2"])
  = ["tab_a"; "tab_b"; "tab_c"] /\
  forall i label,
    omap (line_label config pats) (["tab_a:"; "tab_b:"] ++ ["tab_c: defb 1, 2"]) !! i
    = Some label ->
    exists o, heap st !! (length (heap (scan config pats ["start: nop"])) + i) = Some o /\
              name o = label /\ kind o = SymbolKind.Field /\ detail o = detail_of m.
Proof.
  cbv zeta.
  assert (H2 : Forall (label_only (sampleConfig []) without_macro) ["tab_a:"; "tab_b:"]).
  { repeat constructor; try (vm_compute; reflexivity); vm_compute; eauto. }
  assert (H3 : classification (sampleConfig []) without_macro "tab_c: defb 1, 2"
               = Some (SymbolKind.Field, mkExecResult "defb 1, 2" "defb" "1, 2"))
    by (vm_compute; reflexivity).
  split; [reflexivity|]. split; [exact H2|]. split; [exact H3|].
  split; [vm_compute; reflexivity|].
  exact (pending_labels_are_classified (sampleConfig []) without_macro
           ["start: nop"] ["tab_a:"; "tab_b:"] ["end: ret"] "tab_c: defb 1, 2"
           SymbolKind.Field _ eq_refl H2 H3).
Defined.

(** X13. In a dialect without a macro pattern, a line that declares a
    label and is a constant or data definition is followed directly by a
    line that declares a label and holds an instruction. Then the label
    of the second line is created with the kind of that definition,
    Constant or Field, and without detail, and keeps both to the end of
    the scan. *)
Theorem label_after_definition_inherits_kind (config : Config) (pats : Patterns)
    (pre post : list string) (defining declaring label : string)
    (K : SymbolKind.t) (m : ExecResult) :
  regexMacro pats = None ->
  classification config pats defining = Some (K, m) ->
  is_Some (line_label config pats defining) ->
  line_label config pats declaring = Some label ->
  code_line config pats declaring ->
  let sym := length (heap (scan config pats (pre ++ [defining]))) in
  let st := scan config pats (pre ++ defining :: declaring :: post) in
  exists o, heap st !! sym = Some o /\
            name o = label /\ kind o = K /\ detail o = "".
Proof.
  intros Hre Hclass [l Hl] Hlabel Hcode sym st. subst sym.
  set (st_d := scan config pats (pre ++ [defining])).
  assert (Hd : st_d = step config pats (length pre) defining (scan config pats pre))
    by apply scan_snoc.
  assert (Hlast : is_Some (lastSymbol (label_step config pats (length pre) defining
                                         (scan config pats pre)).1))
    by (by rewrite label_step_lastSymbol, Hl).
  destruct (classified_step config pats Hre (length pre) defining (scan config pats pre)
              K m Hclass Hlast) as (_ & HK & _).
  rewrite <- Hd in HK.
  set (line := length (pre ++ [defining])).
  set (st_l := step config pats line declaring st_d).
  assert (Hst : st = scan_from config pats (S line) post st_l).
  { unfold st. rewrite (cons_middle defining pre), app_assoc. apply scan_cons_app. }
  destruct (code_line_step config pats Hre line declaring st_d label Hlabel Hcode)
    as (Hempty & _ & Hlen & o & Ho & Hn & Hk & Hdet).
  fold st_l in Hempty, Hlen, Ho.
  assert (Hkeep : kind_at st (length (heap st_d)) = kind_at st_l (length (heap st_d))).
  { rewrite Hst.
    apply (scan_from_keeps_kinds config pats (S line) post st_l (length (heap st_l)));
      [done| |by eapply lookup_lt_Some].
    rewrite Hempty. by intros r ?%elem_of_nil. }
  destruct (evolves_lookup _ _ _ _ _
              (scan_from_evolves config pats (S line) post st_l) Ho)
    as (o' & Ho' & Hn' & _).
  rewrite <- Hst in Ho'.
  unfold kind_at in Hkeep. rewrite Ho', Ho in Hkeep.
  simpl in Hkeep. injection Hkeep as Hk' Hd'.
  exists o'. split; [done|]. split; [congruence|]. split; congruence.
Qed.

Lemma label_after_definition_inherits_kind_witness :
  let config := sampleConfig [] in
  let pats := without_macro in
  let m := mkExecResult "defb 1" "defb" "1" in
  let st := scan config pats (["start: nop"] ++ "tab: defb 1" :: "next: ld a, 1" :: ["ret"]) in
  regexMacro pats = None /\
  classification config pats "tab: defb 1" = Some (SymbolKind.Field, m) /\
  is_Some (line_label config pats "tab: defb 1") /\
  line_label config pats "next: ld a, 1" = Some "next" /\
  code_line config pats "next: ld a, 1" /\
  exists o, heap st !! 2 = Some o /\
            name o = "next" /\ kind o = SymbolKind.Field /\ detail o = "".
Proof.
  cbv zeta.
  assert (H2 : classification (sampleConfig []) without_macro "tab: defb 1"
               = Some (SymbolKind.Field, mkExecResult "defb 1" "defb" "1"))
    by (vm_compute; reflexivity).
  assert (H3 : is_Some (line_label (sampleConfig []) without_macro "tab: defb 1"))
    by (vm_compute; eauto).
  assert (H4 : line_label (sampleConfig []) without_macro "next: ld a, 1" = Some "next")
    by (vm_compute; reflexivity).
  assert (H5 : code_line (sampleConfig []) without_macro "next: ld a, 1")
    by (repeat split; vm_compute; reflexivity).
  split; [reflexivity|]. split; [exact H2|]. split; [exact H3|].
  split; [exact H4|]. split; [exact H5|].
  exact (label_after_definition_inherits_kind (sampleConfig []) without_macro
           ["start: nop"] ["ret"] "tab: defb 1" "next: ld a, 1" "next"
           SymbolKind.Field _ eq_refl H2 H3 H4 H5).
Defined.

(** ** Removing and registering providers *)

Module ExtensionFacts.
Import Extension Providers.

Lemma indexOf_from_notin pv l i :
  pv ∉ l -> indexOf_from pv l i = (-1)%Z.
Proof.
  revert i. induction l as [|x l IH]; intros i Hn; simpl; [done|].
  apply not_elem_of_cons in Hn as [Hx Hl].
  destruct (decide (x = pv)); [congruence|]. by apply IH.
Qed.

Lemma indexOf_from_in pv l1 l2 i :
  pv ∉ l1 -> indexOf_from pv (l1 ++ pv :: l2) i = Z.of_nat (i + length l1).
Proof.
  revert i. induction l1 as [|x l1 IH]; intros i Hn; simpl.
  - rewrite decide_True by done. f_equal. lia.
  - apply not_elem_of_cons in Hn as [Hx Hl].
    destruct (decide (x = pv)); [congruence|].
    rewrite IH by done. f_equal. lia.
Qed.

Lemma removelast_take (l : list Disposable) :
  removelast l = take (length l - 1) l.
Proof.
  induction l as [|x l IH] using rev_ind; [done|].
  rewrite removelast_last, length_app. simpl.
  replace (length l + 1 - 1) with (length l) by lia.
  by rewrite take_app_length.
Qed.

Lemma splice1_minus1 l : splice1 (-1) l = removelast l.
Proof.
  unfold splice1. change (-1 <? 0)%Z with true. cbv iota zeta.
  replace (Z.to_nat (Z.max (Z.of_nat (length l) + -1) 0)) with (length l - 1) by lia.
  rewrite removelast_take.
  destruct l as [|x l]; [done|].
  rewrite (drop_ge (x :: l)) by (simpl; lia). by rewrite app_nil_r.
Qed.

Lemma splice1_at l1 d l2 :
  splice1 (Z.of_nat (length l1)) (l1 ++ d :: l2) = l1 ++ l2.
Proof.
  unfold splice1.
  destruct (Z.of_nat (length l1) <? 0)%Z eqn:E; [apply Z.ltb_lt in E; lia|].
  rewrite length_app. simpl.
  replace (Z.to_nat (Z.min _ _)) with (length l1) by lia.
  rewrite take_app_length.
  replace (S (length l1)) with (length (l1 ++ [d])) by (rewrite length_app; simpl; lia).
  rewrite (cons_middle d l1 l2), app_assoc. by rewrite drop_app_length.
Qed.

Lemma remove_one_in pv l1 l2 :
  pv ∉ l1 -> remove_one pv (l1 ++ pv :: l2) = l1 ++ l2.
Proof.
  intros Hn. unfold remove_one, indexOf.
  rewrite indexOf_from_in by done. simpl. apply splice1_at.
Qed.

Lemma remove_one_notin pv l :
  pv ∉ l -> remove_one pv l = removelast l.
Proof.
  intros Hn. unfold remove_one, indexOf.
  rewrite indexOf_from_notin by done. apply splice1_minus1.
Qed.

Lemma remove_one_NoDup pv l : NoDup l -> NoDup (remove_one pv l).
Proof.
  intros Hl. destruct (decide (pv ∈ l)) as [Hin|Hn].
  - apply list_elem_of_split_l in Hin as (l1 & l2 & -> & Hn1).
    rewrite remove_one_in by done.
    apply NoDup_app in Hl as (H1 & H12 & H2). apply NoDup_cons in H2 as [_ H2].
    apply NoDup_app. split; [done|]. split; [|done].
    intros x Hx Hx2. apply (H12 x Hx). by right.
  - rewrite remove_one_notin by done.
    destruct l as [|x l] using rev_ind; [done|].
    rewrite removelast_last. by apply NoDup_app in Hl as (H1 & _ & _).
Qed.

Lemma remove_one_subseteq pv l x : x ∈ remove_one pv l -> x ∈ l.
Proof.
  destruct (decide (pv ∈ l)) as [Hin|Hn].
  - apply list_elem_of_split_l in Hin as (l1 & l2 & -> & Hn1).
    rewrite remove_one_in by done. rewrite !elem_of_app, elem_of_cons. tauto.
  - rewrite remove_one_notin by done.
    destruct l as [|y l] using rev_ind; [done|].
    rewrite removelast_last, elem_of_app. tauto.
Qed.

Lemma filter_ext_in {A} (P Q : A -> Prop) `{!forall x, Decision (P x)}
    `{!forall x, Decision (Q x)} (l : list A) :
  (forall x, x ∈ l -> P x <-> Q x) -> filter P l = filter Q l.
Proof.
  induction l as [|x l IH]; intros Hext; [done|].
  rewrite !filter_cons.
  rewrite IH by (intros y Hy; apply Hext; by right).
  destruct (decide (P x)) as [HP|HP], (decide (Q x)) as [HQ|HQ]; try done.
  - exfalso. apply HQ, Hext; [by left|done].
  - exfalso. apply HP, Hext; [by left|done].
Qed.

Lemma filter_none {A} (P : A -> Prop) `{!forall x, Decision (P x)} (l : list A) :
  (forall x, x ∈ l -> ~ P x) -> filter P l = [].
Proof.
  induction l as [|x l IH]; intros Hext; [done|].
  rewrite filter_cons, decide_False by (apply Hext; by left).
  apply IH. intros y Hy. apply Hext. by right.
Qed.

Lemma filter_all {A} (P : A -> Prop) `{!forall x, Decision (P x)} (l : list A) :
  (forall x, x ∈ l -> P x) -> filter P l = l.
Proof.
  induction l as [|x l IH]; intros Hext; [done|].
  rewrite filter_cons, decide_True by (apply Hext; by left).
  f_equal. apply IH. intros y Hy. apply Hext. by right.
Qed.

(** The subscriptions after a series of removals: the entries that are
    removed by name are gone, and for every name that was not in the list
    the last of the other entries is gone as well. *)
Lemma remove_all_formula ds : forall l,
  NoDup l -> NoDup ds ->
  foldl (fun l d => remove_one d l) l ds =
  take (length (filter (fun x => x ∉ ds) l)
        - (length ds - length (filter (fun x => x ∈ ds) l)))
       (filter (fun x => x ∉ ds) l).
Proof.
  induction ds as [|r ds IH]; intros l Hl Hds.
  - simpl. rewrite (filter_all (fun x => x ∉ [])) by (intros; apply not_elem_of_nil).
    rewrite Nat.sub_0_r. by rewrite firstn_all.
  - apply NoDup_cons in Hds as [Hr Hds]. simpl.
    assert (Hcount : forall l0 : list Disposable, NoDup l0 ->
              length (filter (fun x => x ∈ ds) l0) <= length ds).
    { intros l0 Hl0. apply submseteq_length, NoDup_submseteq.
      - by apply NoDup_filter.
      - intros x Hx. by apply list_elem_of_filter in Hx as [? _]. }
    assert (HF : forall l0 : list Disposable, r ∉ l0 ->
              filter (fun x => x ∉ r :: ds) l0 = filter (fun x => x ∉ ds) l0).
    { intros l0 H0. apply filter_ext_in. intros x Hx.
      rewrite not_elem_of_cons. split; [tauto|]. intros ?. split; [|done].
      intros ->. done. }
    assert (HP : forall l0 : list Disposable, r ∉ l0 ->
              filter (fun x => x ∈ r :: ds) l0 = filter (fun x => x ∈ ds) l0).
    { intros l0 H0. apply filter_ext_in. intros x Hx.
      rewrite elem_of_cons. split; [|tauto]. intros [-> | ?]; done. }
    rewrite IH by (by apply remove_one_NoDup || done).
    destruct (decide (r ∈ l)) as [Hin|Hn].
    + apply list_elem_of_split_l in Hin as (l1 & l2 & -> & Hn1).
      rewrite remove_one_in by done.
      assert (Hn2 : r ∉ l2).
      { apply NoDup_app in Hl as (_ & _ & H2). by apply NoDup_cons in H2 as [? _]. }
      rewrite !filter_app, !filter_cons.
      rewrite decide_False by (intros H; apply H; by left).
      rewrite decide_True by (by left).
      rewrite !HF, !HP by done.
      rewrite !length_app. simpl. f_equal. 
      assert (Hle := Hcount (l1 ++ l2)).
      rewrite filter_app, length_app in Hle.
      lia.
    + rewrite remove_one_notin by done.
      rewrite HF, HP by done.
      destruct l as [|x l _] using rev_ind.
      { rewrite !filter_nil. reflexivity. }
      rewrite removelast_last.
      apply NoDup_app in Hl as (Hl & Hx & _).
      assert (Hle := Hcount l Hl).
      rewrite !filter_app, !filter_cons, !filter_nil.
      destruct (decide (x ∈ ds)) as [Hxd|Hxd].
      * rewrite decide_False by (by intros H).
        rewrite !app_nil_r, length_app. simpl. f_equal.
        assert (Hle2 : length (filter (fun x => x ∈ ds) (l ++ [x])) <= length ds).
        { apply Hcount. apply NoDup_app. split; [done|]. split; [done|].
          apply NoDup_singleton. }
        rewrite filter_app, length_app, filter_cons, decide_True in Hle2 by done.
        simpl in Hle2. lia.
      * rewrite decide_True by done. rewrite app_nil_r, length_app. simpl.
        rewrite take_app_le by lia. f_equal. lia.
Qed.

(** *** The two phases of [configure] *)

Lemma configure_phases s st :
  configure s st = register_phase s (remove_phase st kinds) kinds.
Proof.
  cbv [configure register_phase remove_phase kinds foldl enabled selector].
  reflexivity.
Qed.

Lemma remove_phase_fields ks : forall st,
  regProvider (remove_phase st ks) = regProvider st /\
  subscriptions (remove_phase st ks)
  = foldl (fun l d => remove_one d l) (subscriptions st) (omap (regProvider st) ks) /\
  disposed (remove_phase st ks) = disposed st ++ omap (regProvider st) ks /\
  created (remove_phase st ks) = created st /\
  registered (remove_phase st ks) = registered st.
Proof.
  induction ks as [|k ks IH]; intros st.
  - simpl. by rewrite app_nil_r.
  - unfold remove_phase. simpl foldl.
    destruct (IH (removeProvider (regProvider st k) st)) as (Hr & Hs & Hd & Hc & Hg).
    unfold remove_phase in *. rewrite Hr, Hs, Hd, Hc, Hg.
    simpl omap. destruct (regProvider st k) as [d|] eqn:Hk; simpl.
    + by rewrite <- app_assoc.
    + done.
Qed.

Lemma registrations_of_ids s ks : forall base,
  map reg_id (registrations_of s base ks)
  = seq base (length (filter (fun k => enabled s k = true) ks)).
Proof.
  induction ks as [|k ks IH]; intros base; [done|].
  simpl. rewrite filter_cons. destruct (enabled s k) eqn:E.
  - rewrite decide_True by done. simpl. by rewrite IH.
  - rewrite decide_False by done. apply IH.
Qed.

Lemma registrations_of_expected s ks : forall base,
  map (fun r => (reg_kind r, reg_selector r)) (registrations_of s base ks)
  = map (fun k => (k, selector s k)) (filter (fun k => enabled s k = true) ks).
Proof.
  induction ks as [|k ks IH]; intros base; [done|].
  simpl. rewrite filter_cons. destruct (enabled s k) eqn:E.
  - rewrite decide_True by done. simpl. by rewrite IH.
  - rewrite decide_False by done. apply IH.
Qed.

Lemma registrations_of_kind s ks : forall base r,
  r ∈ registrations_of s base ks ->
  reg_kind r ∈ ks /\ enabled s (reg_kind r) = true /\ base <= reg_id r.
Proof.
  induction ks as [|k ks IH]; intros base r Hr; simpl in Hr.
  - by apply elem_of_nil in Hr.
  - destruct (enabled s k) eqn:E.
    + apply elem_of_cons in Hr as [-> | Hr]; simpl.
      * split; [by left|done].
      * destruct (IH _ _ Hr) as (? & ? & ?). split; [by right|]. split; [done|lia].
    + destruct (IH _ _ Hr) as (? & ? & ?). split; [by right|done].
Qed.

Lemma registrations_of_enabled s ks k : forall base,
  k ∈ ks -> enabled s k = true ->
  exists r, r ∈ registrations_of s base ks /\ reg_kind r = k.
Proof.
  induction ks as [|k' ks IH]; intros base Hk He.
  - by apply elem_of_nil in Hk.
  - simpl. apply elem_of_cons in Hk as [<- | Hk].
    + rewrite He. eexists. split; [by left|done].
    + destruct (enabled s k').
      * destruct (IH (S base) Hk He) as (r & Hr & Hkr). exists r. split; [by right|done].
      * by apply IH.
Qed.

Lemma register_phase_fields s ks : forall st,
  subscriptions (register_phase s st ks)
  = subscriptions st ++ map reg_id (registrations_of s (created st) ks) /\
  created (register_phase s st ks)
  = created st + length (registrations_of s (created st) ks) /\
  registered (register_phase s st ks)
  = registered st ++ registrations_of s (created st) ks /\
  disposed (register_phase s st ks) = disposed st /\
  (forall k, regProvider (register_phase s st ks) k
             = last_of_kind k (registrations_of s (created st) ks) (regProvider st k)).
Proof.
  induction ks as [|k ks IH]; intros st.
  - simpl. rewrite !app_nil_r. repeat split; try done; lia.
  - unfold register_phase. simpl foldl. simpl registrations_of.
    destruct (enabled s k) eqn:E.
    + destruct (IH (register_if true k (selector s k) st)) as (Hs & Hc & Hg & Hd & Hr).
      unfold register_phase in Hs, Hc, Hg, Hd, Hr.
      rewrite Hs, Hc, Hg, Hd. simpl.
      rewrite <- !app_assoc. simpl.
      split; [done|]. split; [lia|]. split; [done|]. split; [done|].
      intros k'. rewrite Hr. reflexivity.
    + apply (IH st).
Qed.

Lemma last_of_kind_none k rs old :
  (forall r, r ∈ rs -> reg_kind r <> k) -> last_of_kind k rs old = old.
Proof.
  revert old. induction rs as [|r rs IH]; intros old H; [done|].
  unfold last_of_kind. simpl.
  rewrite decide_False by (intros ->; by eapply H; [left|]).
  apply IH. intros r' Hr'. apply H. by right.
Qed.

Lemma last_of_kind_in k rs old v :
  last_of_kind k rs old = Some v ->
  old = Some v \/ exists r, r ∈ rs /\ reg_kind r = k /\ reg_id r = v.
Proof.
  revert old. induction rs as [|r rs IH]; intros old H; [by left|].
  unfold last_of_kind in H. simpl in H.
  apply IH in H as [H | (r' & Hr' & Hk & Hv)].
  - destruct (decide (k = reg_kind r)) as [Hk|Hk]; [|by left].
    right. exists r. split; [by left|]. split; [done|congruence].
  - right. exists r'. split; [by right|done].
Qed.

Lemma last_of_kind_unique k rs old r :
  NoDup (map reg_kind rs) -> r ∈ rs -> reg_kind r = k ->
  last_of_kind k rs old = Some (reg_id r).
Proof.
  revert old. induction rs as [|r' rs IH]; intros old Hnd Hr Hk.
  - by apply elem_of_nil in Hr.
  - simpl in Hnd. apply NoDup_cons in Hnd as [Hn Hnd].
    unfold last_of_kind. simpl.
    apply elem_of_cons in Hr as [<- | Hr].
    + rewrite decide_True by done. apply last_of_kind_none.
      intros r2 Hr2 Hk2. apply Hn. rewrite Hk, <- Hk2.
      by apply list_elem_of_fmap_2.
    + by apply IH.
Qed.

Lemma registrations_of_NoDup_kinds s ks : forall base,
  NoDup ks -> NoDup (map reg_kind (registrations_of s base ks)).
Proof.
  induction ks as [|k ks IH]; intros base Hnd; [constructor|].
  apply NoDup_cons in Hnd as [Hk Hnd]. simpl.
  destruct (enabled s k); [|by apply IH].
  simpl. constructor; [|by apply IH].
  intros (r & Hkr & Hr)%list_elem_of_fmap.
  apply registrations_of_kind in Hr as (? & _). congruence.
Qed.

Lemma kinds_NoDup : NoDup kinds.
Proof. apply (bool_decide_unpack (NoDup kinds)). vm_compute. exact I. Qed.

Lemma elem_of_kinds k : k ∈ kinds.
Proof. unfold kinds. destruct k; repeat (first [by left | right]). Qed.

Lemma configure_fields s st :
  subscriptions (configure s st)
  = foldl (fun l d => remove_one d l) (subscriptions st) (defined_providers st)
    ++ map reg_id (registrations_of s (created st) kinds) /\
  created (configure s st)
  = created st + length (registrations_of s (created st) kinds) /\
  registered (configure s st)
  = registered st ++ registrations_of s (created st) kinds /\
  disposed (configure s st) = disposed st ++ defined_providers st /\
  (forall k, regProvider (configure s st) k
             = last_of_kind k (registrations_of s (created st) kinds)
                            (regProvider st k)).
Proof.
  rewrite configure_phases.
  destruct (remove_phase_fields kinds st) as (Hr & Hs & Hd & Hc & Hg).
  destruct (register_phase_fields s kinds (remove_phase st kinds))
    as (Hs' & Hc' & Hg' & Hd' & Hr').
  rewrite Hs', Hc', Hg', Hd', Hs, Hc, Hg, Hd.
  repeat split; try done. intros k. by rewrite Hr', Hc, Hr.
Qed.

Lemma stale_count (l ds : list Disposable) :
  NoDup l -> NoDup ds ->
  length ds - length (filter (fun x => x ∈ ds) l)
  = length (filter (fun d => d ∉ l) ds).
Proof.
  intros Hl Hds.
  assert (Hp : filter (fun x => x ∈ ds) l ≡ₚ filter (fun d => d ∈ l) ds).
  { apply NoDup_Permutation; try by apply NoDup_filter.
    intros x. rewrite !list_elem_of_filter. tauto. }
  rewrite Hp.
  pose proof (filter_app_complement (fun d => d ∈ l) ds) as Hc.
  apply Permutation_length in Hc. rewrite length_app in Hc.
  change (filter (fun d => d ∉ l) ds) with (filter (fun d => ~ d ∈ l) ds).
  lia.
Qed.

Lemma configure_subscriptions_formula s st :
  NoDup (subscriptions st) -> NoDup (defined_providers st) ->
  subscriptions (configure s st)
  = take (length (foreign st) - length (stale st)) (foreign st)
    ++ new_providers s st.
Proof.
  intros Hl Hds.
  destruct (configure_fields s st) as (-> & _).
  rewrite remove_all_formula by done.
  rewrite stale_count by done.
  by rewrite registrations_of_ids.
Qed.

(** *** The state at rest *)

Lemma consistent_defined_NoDup st :
  consistent st -> NoDup (defined_providers st).
Proof.
  intros (_ & _ & _ & Hids & _ & Hreg & _).
  unfold defined_providers.
  assert (Hinj : forall k k' d, regProvider st k = Some d ->
                   regProvider st k' = Some d -> k = k').
  { intros k k' d Hk Hk'.
    destruct (Hreg _ _ Hk) as (sel & Hr). destruct (Hreg _ _ Hk') as (sel' & Hr').
    apply list_elem_of_lookup in Hr as (i & Hi).
    apply list_elem_of_lookup in Hr' as (j & Hj).
    assert (i = j).
    { eapply NoDup_lookup; [exact Hids| |].
      - rewrite list_lookup_fmap, Hi. reflexivity.
      - rewrite list_lookup_fmap, Hj. reflexivity. }
    subst j. rewrite Hi in Hj. by inversion Hj. }
  generalize kinds_NoDup. generalize kinds as ks.
  induction ks as [|k ks IH]; intros Hnd; [constructor|].
  apply NoDup_cons in Hnd as [Hk Hnd]. simpl.
  destruct (regProvider st k) as [d|] eqn:E; [|by apply IH].
  constructor; [|by apply IH].
  intros (k' & Hk' & E')%list_elem_of_omap.
  assert (k = k') by (by eapply Hinj). congruence.
Qed.

Lemma consistent_foreign_others st :
  consistent st -> foreign st = others st.
Proof.
  intros (_ & _ & _ & _ & _ & Hreg & Hlive & Hsd).
  apply filter_ext_in. intros d Hd. split.
  - intros Hn (r & -> & Hr)%list_elem_of_fmap. apply Hn.
    destruct (Hlive r Hr (Hsd _ Hd)) as [Hk _].
    apply list_elem_of_omap. exists (reg_kind r). split; [apply elem_of_kinds|done].
  - intros Hn (k & _ & Hk)%list_elem_of_omap. apply Hn.
    destruct (Hreg _ _ Hk) as (sel & Hr).
    apply list_elem_of_fmap. by exists (mkRegistration k sel d).
Qed.

Lemma elem_of_defined_providers st d :
  d ∈ defined_providers st <-> exists k, regProvider st k = Some d.
Proof.
  unfold defined_providers. rewrite list_elem_of_omap. split.
  - intros (k & _ & Hk). by exists k.
  - intros (k & Hk). exists k. split; [apply elem_of_kinds|done].
Qed.

Lemma elem_of_take_in {A} (x : A) n (l : list A) : x ∈ take n l -> x ∈ l.
Proof.
  intros (i & Hi & _)%elem_of_take. by eapply list_elem_of_lookup_2.
Qed.

Section Configure.
Context (s : Settings) (st : State).
Context (Hst : consistent st).

#[local] Abbreviation rs := (registrations_of s (created st) kinds).
#[local] Abbreviation kept_subs :=
  (take (length (foreign st) - length (stale st)) (foreign st)).

Lemma configure_subscriptions_kept :
  subscriptions (configure s st) = kept_subs ++ map reg_id rs.
Proof using Hst.
  rewrite configure_subscriptions_formula;
    [|apply Hst|by apply consistent_defined_NoDup].
  unfold new_providers. by rewrite registrations_of_ids.
Qed.

Lemma kept_elem d :
  d ∈ kept_subs -> d ∈ subscriptions st /\ d ∉ defined_providers st.
Proof. intros Hd%elem_of_take_in. by apply list_elem_of_filter in Hd as [? ?]. Qed.

Lemma defined_registered d :
  d ∈ defined_providers st -> d ∈ map reg_id (registered st).
Proof using Hst.
  intros (k & Hk)%elem_of_defined_providers.
  destruct Hst as (_ & _ & _ & _ & _ & Hreg & _).
  destruct (Hreg _ _ Hk) as (sel & Hr).
  apply list_elem_of_fmap. by exists (mkRegistration k sel d).
Qed.

Lemma registered_created d :
  d ∈ map reg_id (registered st) -> d < created st.
Proof using Hst.
  intros (r & -> & Hr)%list_elem_of_fmap.
  destruct Hst as (_ & _ & _ & _ & Hc & _). by apply Hc.
Qed.

Lemma rs_id d : d ∈ map reg_id rs -> created st <= d.
Proof.
  intros (r & -> & Hr)%list_elem_of_fmap.
  by apply registrations_of_kind in Hr as (_ & _ & ?).
Qed.

Lemma old_registration_disposed r :
  r ∈ registered st -> reg_id r ∈ disposed st ++ defined_providers st.
Proof using Hst.
  intros Hr. destruct Hst as (_ & _ & _ & _ & _ & _ & Hlive & _).
  destruct (decide (reg_id r ∈ disposed st)) as [Hd|Hd].
  - apply elem_of_app. by left.
  - apply elem_of_app. right. destruct (Hlive r Hr Hd) as [Hk _].
    apply elem_of_defined_providers. by exists (reg_kind r).
Qed.

Lemma new_registration_current r :
  r ∈ rs -> regProvider (configure s st) (reg_kind r) = Some (reg_id r).
Proof.
  intros Hr. destruct (configure_fields s st) as (_ & _ & _ & _ & ->).
  apply last_of_kind_unique; [|done|done].
  apply registrations_of_NoDup_kinds, kinds_NoDup.
Qed.

Lemma configure_consistent : consistent (configure s st).
Proof using Hst.
  pose proof Hst as (Hnd & Hsc & Hdr & Hids & Hrc & Hreg & Hlive & Hsd).
  destruct (configure_fields s st) as (_ & Hc & Hg & Hd & Hr).
  unfold consistent.
  rewrite configure_subscriptions_kept, Hc, Hg, Hd.
  split; [|split; [|split; [|split; [|split; [|split; [|split]]]]]].
  - apply NoDup_app. split; [|split].
    + eapply sublist_NoDup; [|apply sublist_take]. by apply NoDup_filter.
    + intros d [Hd1 _]%kept_elem Hd2%rs_id. apply Hsc in Hd1. lia.
    + rewrite registrations_of_ids. apply NoDup_seq.
  - intros d [[Hd1 _]%kept_elem | Hd2]%elem_of_app.
    + apply Hsc in Hd1. lia.
    + apply list_elem_of_fmap in Hd2 as (r & -> & Hr2).
      pose proof (registrations_of_ids s kinds (created st)) as Hseq.
      assert (Hin : reg_id r ∈ seq (created st) (length (filter (fun k => enabled s k = true) kinds))).
      { rewrite <- Hseq. by apply list_elem_of_fmap_2. }
      apply elem_of_seq in Hin.
      rewrite <- (length_map reg_id), Hseq, length_seq. lia.
  - intros d [Hd1 | Hd2]%elem_of_app; rewrite map_app, elem_of_app; left.
    + by apply Hdr.
    + by apply defined_registered.
  - rewrite map_app. apply NoDup_app. split; [done|]. split.
    + intros d Hd1%registered_created Hd2%rs_id. lia.
    + rewrite registrations_of_ids. apply NoDup_seq.
  - intros r [Hr1 | Hr2]%elem_of_app.
    + apply Hrc in Hr1. lia.
    + assert (Hin : reg_id r ∈ seq (created st) (length (filter (fun k => enabled s k = true) kinds))).
      { rewrite <- registrations_of_ids. by apply list_elem_of_fmap_2. }
      apply elem_of_seq in Hin.
      rewrite <- (length_map reg_id), registrations_of_ids, length_seq. lia.
  - intros k d Hk. rewrite Hr in Hk.
    apply last_of_kind_in in Hk as [Hk | (r & Hr' & Hkr & Hid)].
    + destruct (Hreg _ _ Hk) as (sel & Hsel). exists sel. apply elem_of_app. by left.
    + exists (reg_selector r). apply elem_of_app. right.
      destruct r as [k' sel' d']. simpl in *. by subst.
  - intros r [Hr1 | Hr2]%elem_of_app Hnd'.
    + exfalso. apply Hnd'. by apply old_registration_disposed.
    + split; [by apply new_registration_current|].
      apply elem_of_app. right. by apply list_elem_of_fmap_2.
  - intros d [[Hd1 Hd1']%kept_elem | Hd2%rs_id]%elem_of_app Hdis.
    + apply elem_of_app in Hdis as [Hdis | Hdis]; [by apply (Hsd d)|done].
    + apply elem_of_app in Hdis as [Hdis | Hdis].
      * apply Hdr, registered_created in Hdis. lia.
      * apply defined_registered, registered_created in Hdis. lia.
Qed.

Lemma configure_live : live (configure s st) = rs.
Proof using Hst.
  destruct (configure_fields s st) as (_ & _ & Hg & Hd & _).
  unfold live. rewrite Hg, Hd, filter_app.
  rewrite filter_none by (intros r Hr Hn; by apply Hn, old_registration_disposed).
  rewrite app_nil_l. apply filter_all. intros r Hr Hdis.
  assert (created st <= reg_id r) by (by apply registrations_of_kind in Hr as (_ & _ & ?)).
  destruct Hst as (_ & _ & Hdr & _).
  apply elem_of_app in Hdis as [Hdis | Hdis].
  - apply Hdr, registered_created in Hdis. lia.
  - apply defined_registered, registered_created in Hdis. lia.
Qed.

Lemma configure_others :
  others (configure s st)
  = take (length (others st) - length (stale st)) (others st).
Proof using Hst.
  destruct (configure_fields s st) as (_ & _ & Hg & _).
  unfold others at 1. rewrite configure_subscriptions_kept, Hg, filter_app.
  rewrite (filter_none _ (map reg_id rs)).
  2:{ intros d Hd Hn. apply Hn. rewrite map_app, elem_of_app. by right. }
  rewrite app_nil_r, <- consistent_foreign_others by done.
  apply filter_all. intros d Hd.
  rewrite map_app, elem_of_app. intros [Hd1 | Hd2%rs_id].
  - apply elem_of_take_in in Hd. rewrite consistent_foreign_others in Hd by done.
    by apply list_elem_of_filter in Hd as [? _].
  - apply kept_elem in Hd as [Hd _]. destruct Hst as (_ & Hsc & _).
    apply Hsc in Hd. lia.
Qed.

Lemma configure_stale d :
  d ∈ stale (configure s st) <->
  exists k, enabled s k = false /\ regProvider st k = Some d.
Proof using Hst.
  destruct (configure_fields s st) as (_ & _ & _ & _ & Hr).
  unfold stale. rewrite list_elem_of_filter, elem_of_defined_providers.
  rewrite configure_subscriptions_kept. split.
  - intros (Hn & k & Hk). exists k.
    destruct (enabled s k) eqn:E.
    + exfalso. apply Hn. apply elem_of_app. right.
      destruct (registrations_of_enabled s kinds k (created st) (elem_of_kinds k) E)
        as (r & Hr' & Hkr).
      pose proof (new_registration_current r Hr') as Hcur.
      rewrite Hkr, Hk in Hcur. inversion Hcur; subst d.
      by apply list_elem_of_fmap_2.
    + split; [done|]. rewrite Hr in Hk. rewrite last_of_kind_none in Hk; [done|].
      intros r Hr' Hkr. apply registrations_of_kind in Hr' as (_ & He' & _).
      congruence.
  - intros (k & He & Hk). split.
    + intros [[_ Hd]%kept_elem | Hd%rs_id]%elem_of_app.
      * apply Hd. apply elem_of_defined_providers. by exists k.
      * assert (d < created st); [|lia].
        apply registered_created, defined_registered, elem_of_defined_providers.
        by exists k.
    + exists k. rewrite Hr. rewrite last_of_kind_none; [done|].
      intros r Hr' Hkr. apply registrations_of_kind in Hr' as (_ & He' & _).
      congruence.
Qed.

End Configure.

(** *** Subscriptions that are no providers *)

Lemma init_consistent : consistent init.
Proof.
  unfold consistent, init. simpl.
  split; [constructor|]. split; [by intros ? ?%elem_of_nil|].
  split; [by intros ? ?%elem_of_nil|]. split; [constructor|].
  split; [by intros ? ?%elem_of_nil|]. split; [done|].
  split; [by intros ? ?%elem_of_nil|]. by intros ? ?%elem_of_nil.
Qed.

Lemma consistent_disposed_created st d :
  consistent st -> d ∈ disposed st -> d < created st.
Proof.
  intros Hst Hd. apply (registered_created st Hst).
  destruct Hst as (_ & _ & Hdr & _). by apply Hdr.
Qed.

Lemma subscribe_consistent st :
  consistent st -> consistent (push (fresh st).1 (fresh st).2).
Proof.
  intros Hst. pose proof Hst as (Hnd & Hsc & Hdr & Hids & Hrc & Hreg & Hlive & Hsd).
  unfold consistent. simpl.
  split; [|split; [|split; [|split; [|split; [|split; [|split]]]]]]; try done.
  - apply NoDup_app. split; [done|]. split; [|apply NoDup_singleton].
    intros d Hd ->%list_elem_of_singleton. apply Hsc in Hd. lia.
  - intros d [Hd | ->%list_elem_of_singleton]%elem_of_app; [apply Hsc in Hd|]; lia.
  - intros r Hr. apply Hrc in Hr. lia.
  - intros r Hr Hd. destruct (Hlive r Hr Hd) as [? ?]. split; [done|].
    apply elem_of_app. by left.
  - intros d [Hd | ->%list_elem_of_singleton]%elem_of_app; [by apply Hsd|].
    intros Hd. apply (consistent_disposed_created st) in Hd; [lia|done].
Qed.

Lemma fresh_consistent st : consistent st -> consistent (fresh st).2.
Proof.
  intros (Hnd & Hsc & Hdr & Hids & Hrc & Hreg & Hlive & Hsd).
  unfold consistent. simpl.
  split; [|split; [|split; [|split; [|split; [|split; [|split]]]]]]; try done.
  - intros d Hd. apply Hsc in Hd. lia.
  - intros r Hr. apply Hrc in Hr. lia.
Qed.

Lemma subscribe_others st :
  consistent st ->
  others (push (fresh st).1 (fresh st).2) = others st ++ [created st].
Proof.
  intros Hst. unfold others. simpl. rewrite filter_app. f_equal.
  rewrite filter_cons, decide_True; [done|].
  intros Hd%(registered_created st Hst). lia.
Qed.

Lemma subscribe_stale st :
  consistent st -> stale (push (fresh st).1 (fresh st).2) = stale st.
Proof.
  intros Hst. unfold stale.
  change (defined_providers (push (fresh st).1 (fresh st).2))
    with (defined_providers st).
  apply filter_ext_in. intros d Hd. simpl.
  rewrite elem_of_app, list_elem_of_singleton.
  split; [tauto|]. intros Hn [?| ->]; [done|].
  apply (defined_registered st Hst), (registered_created st Hst) in Hd. lia.
Qed.

(** The state in which [activate] calls [configure], and the state it
    leaves. *)
Lemma activate_unfold s :
  let st3 := mkState [0; 1; 2] (fun _ => None) 3 [] [] in
  let st4 := configure s st3 in
  let st5 := push (fresh st4).1 (fresh st4).2 in
  let st6 := push (fresh st5).1 (fresh st5).2 in
  activate s = (fresh st6).2.
Proof. cbv -[configure]. reflexivity. Qed.

Lemma before_configure_consistent :
  consistent (mkState [0; 1; 2] (fun _ => None) 3 [] []).
Proof.
  change (mkState [0; 1; 2] (fun _ => None) 3 [] [])
    with (let st1 := push (fresh init).1 (fresh init).2 in
          let st2 := push (fresh st1).1 (fresh st1).2 in
          push (fresh st2).1 (fresh st2).2).
  cbv zeta. do 3 apply subscribe_consistent. apply init_consistent.
Qed.

Lemma activate_consistent s : consistent (activate s).
Proof.
  rewrite activate_unfold. cbv zeta.
  apply fresh_consistent. do 2 apply subscribe_consistent.
  apply configure_consistent, before_configure_consistent.
Qed.

Lemma activate_live s : live (activate s) = registrations_of s 3 kinds.
Proof.
  rewrite activate_unfold. cbv zeta.
  exact (configure_live s _ before_configure_consistent).
Qed.

Lemma activate_stale s : stale (activate s) = [].
Proof.
  rewrite activate_unfold. cbv zeta.
  set (st3 := mkState [0; 1; 2] (fun _ => None) 3 [] []).
  pose proof before_configure_consistent as H3. fold st3 in H3.
  pose proof (configure_consistent s st3 H3) as H4.
  change (stale (fresh ?st).2) with (stale st).
  rewrite !subscribe_stale by (try apply subscribe_consistent; done).
  destruct (stale (configure s st3)) as [|d l] eqn:E; [done|].
  assert (Hd : d ∈ stale (configure s st3)) by (rewrite E; by left).
  by apply (configure_stale s st3 H3) in Hd as (k & _ & Hk).
Qed.

Lemma activate_others s :
  others (activate s)
  = let n := length (filter (fun k => enabled s k = true) kinds) in
    [0; 1; 2; 3 + n; 4 + n].
Proof.
  rewrite activate_unfold. cbv zeta.
  set (st3 := mkState [0; 1; 2] (fun _ => None) 3 [] []).
  pose proof before_configure_consistent as H3. fold st3 in H3.
  pose proof (configure_consistent s st3 H3) as H4.
  change (others (fresh ?st).2) with (others st).
  rewrite !subscribe_others by (try apply subscribe_consistent; done).
  rewrite (configure_others s st3 H3).
  destruct (configure_fields s st3) as (_ & Hc & _).
  change (created (push (fresh ?st).1 (fresh ?st).2)) with (S (created st)).
  rewrite Hc. rewrite <- (length_map reg_id), registrations_of_ids, length_seq.
  reflexivity.
Qed.

Lemma run_snoc s ss s' : run s (ss ++ [s']) = configure s' (run s ss).
Proof. unfold run. by rewrite foldl_snoc. Qed.

Lemma run_consistent s ss : consistent (run s ss).
Proof.
  induction ss as [|s' ss IH] using rev_ind.
  - apply activate_consistent.
  - rewrite run_snoc. by apply configure_consistent.
Qed.

Lemma configure_defined s st k :
  is_Some (regProvider (configure s st) k) <->
  enabled s k = true \/ is_Some (regProvider st k).
Proof.
  destruct (configure_fields s st) as (_ & _ & _ & _ & ->).
  destruct (enabled s k) eqn:E.
  - split; [by left|]. intros _.
    destruct (registrations_of_enabled s kinds k (created st) (elem_of_kinds k) E)
      as (r & Hr & Hk).
    rewrite (last_of_kind_unique k _ _ r); [done| |done|done].
    apply registrations_of_NoDup_kinds, kinds_NoDup.
  - rewrite last_of_kind_none.
    + split; [by right|]. by intros [?|?].
    + intros r Hr Hk. apply registrations_of_kind in Hr as (_ & He & _). congruence.
Qed.

Lemma activate_defined s k :
  is_Some (regProvider (activate s) k) <-> enabled s k = true.
Proof.
  rewrite activate_unfold. cbv zeta.
  change (regProvider (fresh ?st).2) with (regProvider st).
  change (regProvider (push ?d ?st)) with (regProvider st).
  change (regProvider (fresh ?st).2) with (regProvider st).
  change (regProvider (push ?d ?st)) with (regProvider st).
  change (regProvider (fresh ?st).2) with (regProvider st).
  rewrite configure_defined. simpl. split; [|by left].
  intros [?|[? ?]]; done.
Qed.

Lemma run_defined s ss k :
  is_Some (regProvider (run s ss) k) <->
  exists s', s' ∈ s :: ss /\ enabled s' k = true.
Proof.
  induction ss as [|s1 ss IH] using rev_ind.
  - change (run s []) with (activate s). rewrite activate_defined. split.
    + intros H. exists s. split; [by left|done].
    + by intros (s' & ->%list_elem_of_singleton & H).
  - rewrite run_snoc, configure_defined, IH. split.
    + intros [H | (s' & Hs' & H)].
      * exists s1. split; [|done]. rewrite app_comm_cons, elem_of_app. right. by left.
      * exists s'. split; [|done]. rewrite app_comm_cons, elem_of_app. by left.
    + intros (s' & Hs' & H). rewrite app_comm_cons, elem_of_app in Hs'.
      destruct Hs' as [Hs' | ->%list_elem_of_singleton]; [right; by exists s'|by left].
Qed.

Lemma never_switched_off_snoc l x :
  never_switched_off (l ++ [x]) -> never_switched_off l.
Proof.
  intros H i j si sj k Hlt Hi Hj. apply (H i j si sj k Hlt).
  - by apply lookup_app_l_Some.
  - by apply lookup_app_l_Some.
Qed.

Lemma run_stale_nil s ss :
  never_switched_off (s :: ss) -> stale (run s ss) = [].
Proof.
  intros Hns. destruct ss as [|s1 ss _] using rev_ind.
  - apply activate_stale.
  - rewrite run_snoc.
    destruct (stale (configure s1 (run s ss))) as [|d l] eqn:E; [done|].
    assert (Hd : d ∈ stale (configure s1 (run s ss))) by (rewrite E; by left).
    apply (configure_stale s1 _ (run_consistent s ss)) in Hd as (k & He & Hk).
    assert (Hsome : is_Some (regProvider (run s ss) k)) by (by rewrite Hk).
    apply run_defined in Hsome as (s' & Hs' & He').
    apply list_elem_of_lookup in Hs' as (i & Hi).
    assert (Hlen : i < length (s :: ss)) by (by eapply lookup_lt_Some).
    rewrite (Hns i (length (s :: ss)) s' s1 k) in He; [done|done| | |done].
    + rewrite app_comm_cons. by apply lookup_app_l_Some.
    + rewrite app_comm_cons. rewrite lookup_app_r by done.
      by rewrite Nat.sub_diag.
Qed.

Lemma run_others_kept s ss :
  never_switched_off (s :: ss) -> others (run s ss) = others (activate s).
Proof.
  induction ss as [|s1 ss IH] using rev_ind; intros Hns; [done|].
  rewrite app_comm_cons in Hns. apply never_switched_off_snoc in Hns.
  rewrite run_snoc, (configure_others s1 _ (run_consistent s ss)).
  rewrite run_stale_nil by done. simpl.
  rewrite Nat.sub_0_r, firstn_all. by apply IH.
Qed.

Lemma consistent_others_not_disposed st d :
  consistent st -> d ∈ others st -> d ∉ disposed st.
Proof.
  intros (_ & _ & Hdr & _) [Hd _]%list_elem_of_filter Hdis. by apply Hd, Hdr.
Qed.

Lemma configure_others_not_disposed s st d :
  consistent st -> d ∈ others st -> d ∉ disposed (configure s st).
Proof.
  intros Hst Hd Hdis.
  destruct (configure_fields s st) as (_ & _ & _ & Hd' & _).
  rewrite Hd' in Hdis. apply elem_of_app in Hdis as [Hdis | Hdis].
  - by apply (consistent_others_not_disposed st d).
  - apply (defined_registered st Hst) in Hdis.
    by apply list_elem_of_filter in Hd as [Hd _].
Qed.

End ExtensionFacts.

(** ** The providers of the extension (src/extension.ts) *)

Import Extension Providers ExtensionFacts.

(** X14. [removeProvider] on a provider that is in the subscription list
    disposes it and takes its first occurrence out of the list; the other
    entries keep their order, and no provider variable changes. *)
Theorem removeProvider_removes_first_occurrence (st : State) (pv : Disposable) :
  pv ∈ subscriptions st ->
  (exists l1 l2,
     subscriptions st = l1 ++ pv :: l2 /\ (pv ∉ l1) /\
     subscriptions (removeProvider (Some pv) st) = l1 ++ l2) /\
  disposed (removeProvider (Some pv) st) = disposed st ++ [pv] /\
  (forall k, regProvider (removeProvider (Some pv) st) k = regProvider st k).
Proof.
  intros Hin. split; [|done].
  apply list_elem_of_split_l in Hin as (l1 & l2 & Hl & Hn).
  exists l1, l2. split; [done|]. split; [done|].
  change (subscriptions (removeProvider (Some pv) st))
    with (remove_one pv (subscriptions st)).
  rewrite Hl. by apply remove_one_in.
Qed.

Lemma removeProvider_removes_first_occurrence_witness :
  1 ∈ subscriptions (mkState [0; 1; 2; 1] (fun _ => None) 3 [] []) /\
  ((exists l1 l2,
      subscriptions (mkState [0; 1; 2; 1] (fun _ => None) 3 [] []) = l1 ++ 1 :: l2 /\
      (1 ∉ l1) /\
      subscriptions (removeProvider (Some 1) (mkState [0; 1; 2; 1] (fun _ => None) 3 [] []))
      = l1 ++ l2) /\
   disposed (removeProvider (Some 1) (mkState [0; 1; 2; 1] (fun _ => None) 3 [] []))
   = disposed (mkState [0; 1; 2; 1] (fun _ => None) 3 [] []) ++ [1] /\
   (forall k, regProvider (removeProvider (Some 1)
                             (mkState [0; 1; 2; 1] (fun _ => None) 3 [] [])) k
              = regProvider (mkState [0; 1; 2; 1] (fun _ => None) 3 [] []) k)).
Proof.
  assert (Hin : 1 ∈ subscriptions (mkState [0; 1; 2; 1] (fun _ => None) 3 [] []))
    by (simpl; right; left).
  split; [exact Hin|].
  exact (removeProvider_removes_first_occurrence
           (mkState [0; 1; 2; 1] (fun _ => None) 3 [] []) 1 Hin).
Defined.

(** X15. [removeProvider] on a provider that is not in the subscription
    list: [indexOf] gives -1 and [splice(-1, 1)] takes the last entry out
    of the list, whatever it is. The provider is disposed all the same. *)
Theorem removeProvider_absent_removes_last (st : State) (pv : Disposable) :
  pv ∉ subscriptions st ->
  indexOf pv (subscriptions st) = (-1)%Z /\
  subscriptions (removeProvider (Some pv) st) = removelast (subscriptions st) /\
  disposed (removeProvider (Some pv) st) = disposed st ++ [pv].
Proof.
  intros Hn. split; [by apply indexOf_from_notin|]. split; [|done].
  change (subscriptions (removeProvider (Some pv) st))
    with (remove_one pv (subscriptions st)).
  by apply remove_one_notin.
Qed.

Lemma removeProvider_absent_removes_last_witness :
  (7 ∉ subscriptions (mkState [0; 1; 2] (fun _ => None) 8 [] [7])) /\
  indexOf 7 (subscriptions (mkState [0; 1; 2] (fun _ => None) 8 [] [7])) = (-1)%Z /\
  subscriptions (removeProvider (Some 7) (mkState [0; 1; 2] (fun _ => None) 8 [] [7]))
  = removelast (subscriptions (mkState [0; 1; 2] (fun _ => None) 8 [] [7])) /\
  disposed (removeProvider (Some 7) (mkState [0; 1; 2] (fun _ => None) 8 [] [7]))
  = disposed (mkState [0; 1; 2] (fun _ => None) 8 [] [7]) ++ [7].
Proof.
  assert (Hn : 7 ∉ subscriptions (mkState [0; 1; 2] (fun _ => None) 8 [] [7])).
  { simpl. rewrite !not_elem_of_cons. repeat split; try lia. apply not_elem_of_nil. }
  split; [exact Hn|].
  exact (removeProvider_absent_removes_last
           (mkState [0; 1; 2] (fun _ => None) 8 [] [7]) 7 Hn).
Defined.

(** X16. The subscription list after [configure], when the list and the
    values of the provider variables are free of repetitions: the values
    of the provider variables are gone; so are, counted from the end, as
    many of the other subscriptions as there are provider variables whose
    value was not in the list; the new registrations follow. *)
Theorem configure_subscriptions (s : Settings) (st : State) :
  NoDup (subscriptions st) -> NoDup (defined_providers st) ->
  subscriptions (configure s st)
  = take (length (foreign st) - length (stale st)) (foreign st)
    ++ new_providers s st.
Proof. apply configure_subscriptions_formula. Qed.

Lemma configure_subscriptions_witness :
  let off := mkSettings false true true true true true true true []
                        (fun _ => None) in
  let st := run (all_on [] (fun _ => None)) [off] in
  NoDup (subscriptions st) /\ NoDup (defined_providers st) /\
  stale st = [3] /\
  subscriptions (configure off st)
  = take (length (foreign st) - length (stale st)) (foreign st)
    ++ new_providers off st.
Proof.
  cbv zeta.
  set (off := mkSettings false true true true true true true true [] (fun _ => None)).
  set (st := run (all_on [] (fun _ => None)) [off]).
  assert (H1 : NoDup (subscriptions st))
    by (apply (bool_decide_unpack (NoDup (subscriptions st))); vm_compute; exact I).
  assert (H2 : NoDup (defined_providers st))
    by (apply (bool_decide_unpack (NoDup (defined_providers st))); vm_compute; exact I).
  split; [exact H1|]. split; [exact H2|]. split; [vm_compute; reflexivity|].
  exact (configure_subscriptions off st H1 H2).
Defined.

(** X17. After activation and any sequence of configuration changes the
    registrations that have not been disposed are exactly those the
    latest settings ask for: one for every enabled feature and one for
    folding, in the order of [configure], each with its selector built
    from the latest settings. *)
Theorem live_providers_follow_settings (s : Settings) (changes : list Settings) :
  map (fun r => (reg_kind r, reg_selector r)) (live (run s changes))
  = expected (default s (last changes)).
Proof.
  destruct changes as [|s1 changes _] using rev_ind.
  - change (run s []) with (activate s). rewrite activate_live.
    apply registrations_of_expected.
  - rewrite run_snoc, (configure_live s1 _ (run_consistent s changes)).
    rewrite last_snoc. apply registrations_of_expected.
Qed.

(** X18. As long as no feature that has been enabled is disabled again,
    the five subscriptions [activate] makes besides the providers stay in
    the list, in their order, and are not disposed. *)
Theorem subscriptions_kept_while_enabled (s : Settings) (changes : list Settings) :
  never_switched_off (s :: changes) ->
  others (run s changes)
  = (let n := length (filter (fun k => enabled s k = true) kinds) in
     [0; 1; 2; 3 + n; 4 + n]) /\
  Forall (fun d => d ∉ disposed (run s changes)) (others (run s changes)).
Proof.
  intros Hns. split.
  - rewrite run_others_kept by done. apply activate_others.
  - apply Forall_forall. intros d Hd.
    by apply (consistent_others_not_disposed _ _ (run_consistent s changes)).
Qed.

Lemma subscriptions_kept_while_enabled_witness :
  let on := all_on ["/ws"] (fun _ => Some "**/*.asm") in
  never_switched_off [on; on; on] /\
  others (run on [on; on]) = [0; 1; 2; 12; 13] /\
  Forall (fun d => d ∉ disposed (run on [on; on])) (others (run on [on; on])).
Proof.
  cbv zeta.
  set (on := all_on ["/ws"] (fun _ => Some "**/*.asm")).
  assert (Hns : never_switched_off [on; on; on]).
  { intros i j si sj k _ Hi Hj _.
    assert (sj = on); [|subst sj; by destruct k].
    destruct j as [|[|[|j]]]; simpl in Hj; by simplify_eq. }
  split; [exact Hns|].
  exact (subscriptions_kept_while_enabled on [on; on] Hns).
Defined.

(** X19. A feature that was enabled and is then disabled leaves its
    provider variable set to a disposed provider that is no longer in the
    list. The next [configure] removes that provider once more, and this
    takes the last of the other subscriptions out of the list: what is
    left of them is a prefix of the list without its last entry. The
    subscription that is dropped is not disposed. *)
Theorem disabled_feature_drops_subscription
    (s : Settings) (changes : list Settings) (s1 s2 : Settings) (k : ProviderKind) :
  (exists s', s' ∈ s :: changes /\ enabled s' k = true) ->
  enabled s1 k = false ->
  stale (run s (changes ++ [s1])) <> [] /\
  others (run s (changes ++ [s1; s2]))
    `prefix_of` removelast (others (run s (changes ++ [s1]))) /\
  Forall (fun d => d ∉ disposed (run s (changes ++ [s1; s2])))
         (others (run s (changes ++ [s1]))).
Proof.
  intros Hever Hoff.
  assert (Hst : stale (run s (changes ++ [s1])) <> []).
  { apply run_defined in Hever as [d Hd].
    assert (Hin : d ∈ stale (run s (changes ++ [s1]))).
    { rewrite run_snoc. apply (configure_stale s1 _ (run_consistent s changes)).
      by exists k. }
    intros E. rewrite E in Hin. by apply elem_of_nil in Hin. }
  split; [exact Hst|].
  replace (changes ++ [s1; s2]) with ((changes ++ [s1]) ++ [s2])
    by (by rewrite <- app_assoc).
  rewrite (run_snoc s (changes ++ [s1]) s2). split.
  - rewrite (configure_others s2 _ (run_consistent s (changes ++ [s1]))).
    rewrite removelast_firstn_len.
    destruct (stale (run s (changes ++ [s1]))) as [|d l]; [done|].
    set (l0 := others (run s (changes ++ [s1]))).
    replace (take (length l0 - length (d :: l)) l0)
      with (take (length l0 - length (d :: l)) (take (Nat.pred (length l0)) l0)).
    + apply prefix_take.
    + rewrite take_take. f_equal. simpl. lia.
  - apply Forall_forall. intros d Hd.
    by apply configure_others_not_disposed; [apply run_consistent|].
Qed.

Lemma disabled_feature_drops_subscription_witness :
  let on := all_on ["/ws"] (fun _ => Some "**/*.asm") in
  let off := mkSettings false true true true true true true true ["/ws"]
                        (fun _ => Some "**/*.asm") in
  (exists s', s' ∈ [on] /\ enabled s' CodeLens = true) /\
  enabled off CodeLens = false /\
  others (run on [off]) = [0; 1; 2; 12; 13] /\
  others (run on [off; off]) = [0; 1; 2; 12] /\
  stale (run on ([] ++ [off])) <> [] /\
  others (run on ([] ++ [off; off]))
    `prefix_of` removelast (others (run on ([] ++ [off]))) /\
  Forall (fun d => d ∉ disposed (run on ([] ++ [off; off])))
         (others (run on ([] ++ [off]))).
Proof.
  cbv zeta.
  set (on := all_on ["/ws"] (fun _ => Some "**/*.asm")).
  set (off := mkSettings false true true true true true true true ["/ws"]
                         (fun _ => Some "**/*.asm")).
  assert (Hever : exists s', s' ∈ [on] /\ enabled s' CodeLens = true)
    by (exists on; split; [by left|reflexivity]).
  split; [exact Hever|]. split; [reflexivity|].
  split; [vm_compute; reflexivity|]. split; [vm_compute; reflexivity|].
  exact (disabled_feature_drops_subscription on [] off off CodeLens Hever eq_refl).
Defined.
